(** * The two examples of [DP_Hypothesis_Testing.ipynb]

    ** Example 2: the binary-search estimator

    Example 2 of the notebook estimates the maximum of a private column with
    [k] noisy comparisons.  The cell is

<<
    LOWER_BOUND = -2**32
    UPPER_BOUND = 2**32
    current_value = 0
    step_size = (UPPER_BOUND - LOWER_BOUND) / 4.0
    k = 64
    eps = 0.02
    t = 0.02
    for i in range(k):
      test = pdf > current_value
      result = test.mean(eps)
      if result[0] > t:
        current_value = current_value + step_size
      else:
        current_value = current_value - step_size
      step_size = step_size/2.
>>

    The remote call [test.mean(eps)] is the oracle: it is a parameter of the
    run, its invocations are recorded in a ledger, and it may raise.

    The control flow of the cell does not depend on how numbers are
    represented, so the embedding is written once over an interface [Arith]
    of the arithmetic the cell uses, and instantiated twice:
    - with IEEE 754 binary64, what a Python [float] is, through the
      executable specification [SpecFloat] of the Standard Library: this is
      the cell;
    - with exact rationals [Q], the arithmetic the specification describes
      (real valued, no rounding): the reference the cell's runs are compared
      with.

    What is proved about invocations, completion and failure holds for both.
    What is proved about numbers is proved of the cell in binary64: for every
    domain where the steps or the order of two estimates are concerned,
    halving being exact and rounding monotone, and for the notebook's domain
    [[-2^32, 2^32]] and its 64 rounds where the value of the estimate is
    concerned, whose sums are rounded from round 54 on.  The statements in
    exact arithmetic stand beside them, marked as such.

    ** Example 1: the date-format tests

    Example 1 writes 5000 dates, each in one of four formats drawn at
    random, and maps tests over them that return 1 or 0: does the string
    look like day-month-year, like ddmmyyyy, like a month name followed by
    day and year.  The tests are embedded over Python strings as lists of
    code points, with [split], [find], [in], slices and [isdigit] as Python
    defines them; [strftime] is embedded for the four formats. *)

From Stdlib Require Import ZArith NArith QArith Qabs Qpower List Bool Lia Lqa.
From Stdlib Require Import SpecFloat.
From Stdlib Require String Ascii.
Import ListNotations.
Import String.StringSyntax Ascii.AsciiSyntax.
Delimit Scope string_scope with string.
Delimit Scope char_scope with char.

(** ** Arithmetic of the cell *)

Class Arith (V : Type) : Type := {
  of_int : Z -> V;          (* a Python int where a float is expected *)
  add : V -> V -> V;
  sub : V -> V -> V;
  div : V -> V -> V;
  gtb : V -> V -> bool      (* [x > y] *)
}.

(** Exact rationals: no rounding, no underflow, no overflow.  This is the
    arithmetic of the specification, not of the cell; it serves as the
    reference that binary64 runs are compared with. *)
#[export] Instance Arith_Q : Arith Q := {
  of_int := inject_Z;
  add := Qplus;
  sub := Qminus;
  div := Qdiv;
  gtb := fun x y => negb (Qle_bool x y)
}.

(** Python floats: binary64, round to nearest, ties to even. *)
Module Binary64.
Definition prec : Z := 53.
Definition emax : Z := 1024.
Definition float : Type := spec_float.

(** [float(z)] for a Python int [z]: the float nearest to it.  Where that
    would be an infinity, Python raises [OverflowError] instead of returning
    one; [converts] tells whether it returns, and [cell] further down
    raises where the notebook's cell does. *)
Definition of_int (z : Z) : float := binary_normalize prec emax z 0 false.
Definition converts (z : Z) : bool :=
  match of_int z with
  | S754_infinity _ => false
  | _ => true
  end.

Definition add : float -> float -> float := SFadd prec emax.
Definition sub : float -> float -> float := SFsub prec emax.
Definition div : float -> float -> float := SFdiv prec emax.
Definition gtb (x y : float) : bool := SFltb y x.

(** What a Python float can hold: a number written with at most 53 bits and
    the exponent that goes with them, a zero, an infinity or a NaN. *)
Definition valid (x : float) : bool := valid_binary prec emax x.

(** The number a float stands for, when it stands for one. *)
Definition value (x : float) : option Q :=
  match x with
  | S754_zero _ => Some 0%Q
  | S754_finite s m e => Some (inject_Z (cond_Zopp s (Z.pos m)) * 2 ^ e)%Q
  | _ => None
  end.
End Binary64.

#[export] Instance Arith_binary64 : Arith Binary64.float := {
  of_int := Binary64.of_int;
  add := Binary64.add;
  sub := Binary64.sub;
  div := Binary64.div;
  gtb := Binary64.gtb
}.

(** ** The oracle and the state of the kernel *)

Section Estimator.
(** [exn] is what the remote call raises when it cannot complete. *)
Context {V : Type} {A : Arith V} {exn : Type}.

(** One invocation [(pdf > current_value).mean(eps)]. *)
Record Query : Type := { threshold : V; epsilon : V }.

Inductive Reply : Type :=
| Answer (result : V)
| Failure (e : exn).

(** The oracle sees the queries made before (its ledger, latest first) and
    the query; noise makes its answer depend on more than the threshold. *)
Definition Oracle : Type := list Query -> Query -> Reply.

(** The variables of the cell that the loop changes, and the ledger of
    invocations made so far (latest first). *)
Record Kernel : Type := {
  current_value : V;
  step_size : V;
  ledger : list Query
}.

Inductive Outcome : Type :=
| Completed
| Raised (e : exn).

(** [current_value = 0; step_size = (UPPER_BOUND - LOWER_BOUND) / 4.0] *)
Definition init (LOWER_BOUND UPPER_BOUND : Z) : Kernel :=
  {| current_value := of_int 0;
     step_size := div (of_int (UPPER_BOUND - LOWER_BOUND)) (of_int 4);
     ledger := [] |}.

(** The two assignments that follow the oracle's answer. *)
Definition update (t result : V) (s : Kernel) : Kernel :=
  {| current_value :=
       if gtb result t
       then add (current_value s) (step_size s)
       else sub (current_value s) (step_size s);
     step_size := div (step_size s) (of_int 2);
     ledger := ledger s |}.

(** One pass through the body of the loop.  The invocation is recorded
    whether or not it succeeds; an exception leaves the variables as they
    were and ends the pass. *)
Definition body (eps t : V) (oracle : Oracle) (s : Kernel)
  : Kernel * Outcome :=
  let q := {| threshold := current_value s; epsilon := eps |} in
  let s' := {| current_value := current_value s;
               step_size := step_size s;
               ledger := q :: ledger s |} in
  match oracle (ledger s) q with
  | Answer result => (update t result s', Completed)
  | Failure e => (s', Raised e)
  end.

(** [for i in range(n)]: the body never reads [i]. *)
Fixpoint for_range (n : nat) (b : Kernel -> Kernel * Outcome) (s : Kernel)
  : Kernel * Outcome :=
  match n with
  | O => (s, Completed)
  | S m =>
      match b s with
      | (s', Completed) => for_range m b s'
      | (s', Raised e) => (s', Raised e)
      end
  end.

(** The loop started from given variables, and the whole cell.  [k] is a
    Python int: [range(k)] is empty when [k <= 0]. *)
Definition rounds (n : nat) (eps t : V) (oracle : Oracle) (s : Kernel)
  : Kernel * Outcome :=
  for_range n (body eps t oracle) s.

Definition EstimateMax (LOWER_BOUND UPPER_BOUND k : Z) (eps t : V)
    (oracle : Oracle) : Kernel * Outcome :=
  rounds (Z.to_nat k) eps t oracle (init LOWER_BOUND UPPER_BOUND).

(** What the next cell prints: [current_value]. *)
Definition estimate (r : Kernel * Outcome) : V := current_value (fst r).
Definition calls (r : Kernel * Outcome) : nat := length (ledger (fst r)).

(** An oracle that always answers. *)
Definition answering (f : list Query -> Query -> V) : Oracle :=
  fun h q => Answer (f h q).

(** An oracle that plays a fixed sequence of answers, one per invocation. *)
Definition script (a : nat -> V) : list Query -> Query -> V :=
  fun h _ => a (length h).

Definition scripted (a : nat -> V) : Oracle := answering (script a).

(** A noiseless oracle for a column whose maximum is [M]: exactly 1 when
    [M] exceeds the threshold, exactly 0 otherwise. *)
Definition noiseless_answer (M : V) : list Query -> Query -> V :=
  fun _ q => if gtb M (threshold q) then of_int 1 else of_int 0.

Definition noiseless (M : V) : Oracle := answering (noiseless_answer M).

(** An oracle that raises [e] on its [j]-th invocation (counted from 0) and
    on no other: asked again, it would answer. *)
Definition failing_at (j : nat) (e : exn) (f : list Query -> Query -> V)
  : Oracle :=
  fun h q => if Nat.eqb (length h) j then Failure e else Answer (f h q).

(** What an answering oracle says when invoked from the variables [s], and
    the variables after that round. *)
Definition answer_at (eps : V) (f : list Query -> Query -> V) (s : Kernel)
  : V :=
  f (ledger s) {| threshold := current_value s; epsilon := eps |}.

Definition answered (eps t : V) (f : list Query -> Query -> V) (s : Kernel)
  : Kernel :=
  update t (answer_at eps f s)
    {| current_value := current_value s;
       step_size := step_size s;
       ledger := {| threshold := current_value s; epsilon := eps |}
                   :: ledger s |}.

(** The variables after [n] rounds against an answering oracle. *)
Definition state_after (n : nat) (eps t : V)
    (f : list Query -> Query -> V) (s : Kernel) : Kernel :=
  fst (rounds n eps t (answering f) s).

(** The answers an answering oracle gives in [n] rounds started from [s]. *)
Fixpoint answers_of (n : nat) (eps t : V)
    (f : list Query -> Query -> V) (s : Kernel) : list V :=
  match n with
  | O => []
  | S m => answer_at eps f s :: answers_of m eps t f (answered eps t f s)
  end.

(** The assignments of the loop alone, for a given list of answers. *)
Definition replay (t : V) (answers : list V) (s : Kernel) : Kernel :=
  fold_left (fun s' a => update t a s') answers s.

(** The comparisons [result > t] that an answering oracle leads the loop to
    make, round by round; and answers that lead it to make given
    comparisons, whenever the threshold tells 1 and 0 apart. *)
Definition decisions (eps t : V) (f : list Query -> Query -> V) (s : Kernel)
  : nat -> bool :=
  fun i => gtb (answer_at eps f (state_after i eps t f s)) t.

Definition decided (d : nat -> bool) : nat -> V :=
  fun i => if d i then of_int 1 else of_int 0.
End Estimator.

Arguments Query : clear implicits.
Arguments Kernel : clear implicits.
Arguments Oracle : clear implicits.
Arguments Reply : clear implicits.
Arguments Outcome : clear implicits.

(** ** The notebook's configuration *)

Module Notebook.
Definition LOWER_BOUND : Z := - 2 ^ 32.
Definition UPPER_BOUND : Z := 2 ^ 32.
Definition k : Z := 64.

Section Config.
Context {V : Type} {A : Arith V}.
(** The literal [0.02], read in the arithmetic at hand: exactly 2/100
    in [Q], the nearest binary64 number in floats. *)
Definition eps : V := div (of_int 2) (of_int 100).
Definition t : V := div (of_int 2) (of_int 100).
Definition run (oracle : Oracle V unit) : Kernel V * Outcome unit :=
  EstimateMax LOWER_BOUND UPPER_BOUND k eps t oracle.
End Config.

(** The maximum of the column in the recorded session ([df.max()]). *)
Definition true_max : Z := -151861469.
End Notebook.

(** ** The cell as a whole

    Before the loop the cell computes [(UPPER_BOUND - LOWER_BOUND) / 4.0]: a
    Python int divided by a float, for which Python first turns the int into
    a float, and raises [OverflowError] when it is too large for one.
    Nothing else in the cell raises of itself: sums, differences and halves
    of floats do not raise in Python. *)

Inductive Started (exn : Type) : Type :=
| OverflowError
| Ran (r : Kernel Binary64.float * Outcome exn).

Arguments OverflowError {exn}.
Arguments Ran {exn} r.

Definition cell {exn : Type} (LOWER_BOUND UPPER_BOUND k : Z)
    (eps t : Binary64.float) (oracle : Oracle Binary64.float exn)
  : Started exn :=
  if Binary64.converts (UPPER_BOUND - LOWER_BOUND)
  then Ran (EstimateMax LOWER_BOUND UPPER_BOUND k eps t oracle)
  else OverflowError.

(** ** Rounding in binary64, spelled out

    [SFadd] and [SFsub] round the exact sum of their operands to 53
    significant bits.  To reason about every run at once, the rounding that
    [SpecFloat] performs step by step (align, shift right keeping a round
    bit and a sticky bit, round to nearest even, renormalise) is described
    here in closed form; the lemmas further down prove that this is what
    [SpecFloat] computes.  Values are counted in units of [2^-84], fine
    enough for every number the notebook's run can produce. *)

Section RoundingDefinitions.
Local Open Scope Z_scope.

(** Number of binary digits of a mantissa. *)
Definition dig (m : positive) : Z := Z.pos (digits2_pos m).

(** [m] shifted right by [n] places: what is left, the last bit shifted
    out, and whether any bit shifted out before it was set. *)
Definition shr_spec (m : Z) (n : positive) : shr_record :=
  {| shr_m := m / 2 ^ Zpos n;
     shr_r := Z.odd (m / 2 ^ (Zpos n - 1));
     shr_s := negb (m mod 2 ^ (Zpos n - 1) =? 0) |}.

(** The first half of [binary_round]: the mantissa brought to 53 digits. *)
Definition first_shr (m : positive) (e : Z) : shr_record * Z :=
  let '(mz, ez) := shl_align m e (fexp 53 1024 (dig m + e)) in
  shr_fexp 53 1024 (Z.pos mz) ez loc_Exact.

Definition first_spec (m : positive) (e : Z) : shr_record * Z :=
  let x := Z.pos m * 2 ^ 54 in
  let d := dig m in
  ({| shr_m := x / 2 ^ (d + 1);
      shr_r := Z.odd (x / 2 ^ d);
      shr_s := negb (x mod 2 ^ d =? 0) |}, d + e - 53).

(** The second half of [binary_round]: rounding and renormalising. *)
Definition finish (s : bool) (r : shr_record * Z) : spec_float :=
  let '(mrs', e') := r in
  let '(mrs'', e'') :=
    shr_fexp 53 1024
      (round_nearest_even (shr_m mrs') (loc_of_shr_record mrs')) e' loc_Exact in
  match shr_m mrs'' with
  | Z0 => S754_zero s
  | Zpos m => if e'' <=? 1024 - 53 then S754_finite s m e'' else S754_infinity s
  | _ => S754_nan
  end.

(** The mantissa after rounding to nearest, ties to even. *)
Definition rnd_mant (m : positive) : Z :=
  let x := Z.pos m * 2 ^ 54 in
  let d := dig m in
  let M := x / 2 ^ (d + 1) in
  if Z.odd (x / 2 ^ d)
  then if negb (x mod 2 ^ d =? 0) then M + 1
       else if Z.even M then M else M + 1
  else M.

(** The value of a float in units of [2^-84], and the float nearest to
    [z] such units. *)
Definition scaled (x : spec_float) : Z :=
  match x with
  | S754_finite s m e => cond_Zopp s (Z.pos m * 2 ^ (e + 84))
  | _ => 0
  end.

Definition canon (z : Z) : spec_float := binary_normalize 53 1024 z (-84) false.

(** [p] units rounded to 53 significant bits. *)
Definition rne_pos (p : positive) : Z := rnd_mant p * 2 ^ (dig p - 53).

(** The step of round [n] in the notebook's run, [2^(31-n)], and the same in
    units of [2^-84]. *)
Definition step64 (n : nat) : spec_float :=
  S754_finite false (2 ^ 52) (- 21 - Z.of_nat n).

Definition step_scaled (n : nat) : Z := 2 ^ (115 - Z.of_nat n).

(** What holds of the estimate after [n >= 1] rounds of the notebook's run:
    it is a finite float of magnitude between twice the coming step and
    [2^32]; through round 53 it is an exact multiple of twice the coming
    step and stays that far below [2^32]. *)
Definition within (n : nat) (c : spec_float) : Prop :=
  exists (sg : bool) (m : positive) (e : Z),
    c = S754_finite sg m e /\ -84 <= e <= 0 /\
    2 * step_scaled n <= Z.abs (scaled c) <= 2 ^ 116 /\
    ((n <= 53)%nat ->
     Z.abs (scaled c) <= 2 ^ 116 - 2 * step_scaled n /\
     scaled c mod (2 * step_scaled n) = 0).

(** The estimate of the notebook's run against a script of answers. *)
Definition run64 (a : nat -> Binary64.float) (n : nat) : Binary64.float :=
  current_value (state_after (exn:=unit) n Notebook.eps Notebook.t (script a)
                   (init Notebook.LOWER_BOUND Notebook.UPPER_BOUND)).

(** How many units of [2^-84] make one. *)
Definition units : Q := inject_Z (2 ^ 84).

(** What rounding can add to the distance the estimate keeps from where
    exact sums would leave it: nothing through round 53, at most [2^-22] in
    each round after it. *)
Definition rounding_error (n : nat) : Q :=
  inject_Z (Z.of_nat (n - 53)) / inject_Z (2 ^ 22).

(** The value of a float in units of [2^-1074], the smallest any float
    counts in: a whole number for every valid float, with the infinities
    standing beyond all of them.  Python compares floats as these numbers
    compare, NaN apart. *)
Definition ord (x : spec_float) : Z :=
  match x with
  | S754_finite s m e => cond_Zopp s (Z.pos m * 2 ^ (e + 1074))
  | S754_infinity s => cond_Zopp s (2 ^ 2200)
  | _ => 0
  end.

Definition is_nan (x : spec_float) : bool :=
  match x with S754_nan => true | _ => false end.

(** The float nearest to [z] units of [2^-1074], as the sums and
    differences of the cell are rounded; and, counted in the same units,
    what it comes to: a number of fewer than 53 bits is kept, a longer one
    is rounded to 53 bits, ties to even, and what would reach [2^1024]
    becomes an infinity. *)
Definition nearest (z : Z) : spec_float :=
  binary_normalize 53 1024 z (-1074) false.

Definition snap_pos (p : positive) : Z :=
  let r := if (dig p <? 53)%Z then Z.pos p else rne_pos p in
  if (r <? 2 ^ 2098)%Z then r else (2 ^ 2200)%Z.

Definition snap (z : Z) : Z :=
  match z with
  | Z0 => 0
  | Zpos p => snap_pos p
  | Zneg p => - snap_pos p
  end%Z.
End RoundingDefinitions.

(** ** Python strings *)

(** A Python [str] is a sequence of code points. *)
Definition char : Type := N.
Definition str : Type := list char.

(** String and character literals of the cells (all ASCII). *)
Definition chr (a : Ascii.ascii) : char := Ascii.N_of_ascii a.
Definition lit (s : String.string) : str :=
  map chr (String.list_ascii_of_string s).
Arguments chr a%_char.
Arguments lit s%_string.

(** What [str.isdigit] asks of one character: that Unicode gives it the
    numeric type Digit or Decimal.  The table depends on the Unicode version
    of the interpreter, so it is a parameter. *)
Class Unicode : Type := { isdigit_char : char -> bool }.

(** On ASCII every version agrees: the digits are ['0'] to ['9']. *)
Definition ascii_digit (c : char) : bool := ((48 <=? c) && (c <=? 57))%N.

Definition ascii_conforming (U : Unicode) : Prop :=
  forall c : char, (c < 128)%N -> isdigit_char c = ascii_digit c.

(** The smallest such table: no digit outside ASCII. *)
Definition ascii_table : Unicode := {| isdigit_char := ascii_digit |}.

Module Str.
(** [a == b] *)
Fixpoint eqb (a b : str) : bool :=
  match a, b with
  | [], [] => true
  | x :: a', y :: b' => N.eqb x y && eqb a' b'
  | _, _ => false
  end.

(** [s.startswith(p)] *)
Fixpoint startswith (s p : str) {struct p} : bool :=
  match p, s with
  | [], _ => true
  | _ :: _, [] => false
  | y :: p', x :: s' => N.eqb x y && startswith s' p'
  end.

(** [s.find(sub)]: the index of the first occurrence, [None] for [-1]. *)
Fixpoint find (s sub : str) : option nat :=
  if startswith s sub then Some O
  else match s with
       | [] => None
       | _ :: s' => option_map S (find s' sub)
       end.

(** [sub in s] *)
Definition contains (sub s : str) : bool :=
  match find s sub with Some _ => true | None => false end.

(** [s.split(sep)] for a separator that is not empty (the cells pass
    literals): cut at the first occurrence, go on after it.  Every cut
    consumes at least one character, so [length s] iterations are enough
    ([split_eq] below). *)
Fixpoint split_loop (fuel : nat) (s sep : str) : list str :=
  match find s sep with
  | None => [s]
  | Some j =>
      match fuel with
      | O => [s]
      | S n => firstn j s :: split_loop n (skipn (j + length sep) s) sep
      end
  end.

Definition split (s sep : str) : list str := split_loop (length s) s sep.

(** [sep.join(parts)] *)
Fixpoint join (sep : str) (parts : list str) : str :=
  match parts with
  | [] => []
  | [x] => x
  | x :: rest => x ++ sep ++ join sep rest
  end.

(** [s.isdigit()]: at least one character, and all of them digits. *)
Definition isdigit {U : Unicode} (s : str) : bool :=
  negb (Nat.eqb (length s) 0) && forallb isdigit_char s.
End Str.

(** ** Example 1: which date format is it? *)

Section DateFormats.
Context {U : Unicode}.

(** The test of the first cell. *)
Definition is_dd_mm_yyyy_format (s : str) : Z :=
  let parts := Str.split s (lit "-") in
  if negb (length parts =? 3)%nat then 0%Z
  else
    match parts with
    | [day; month; year] =>
        if (length day =? 2)%nat && (length month =? 2)%nat
           && (length year =? 4)%nat
           && Str.isdigit day && Str.isdigit month && Str.isdigit year
        then 1%Z else 0%Z
    | _ => 0%Z               (* not reached: [parts] has three elements *)
    end.

(** The three tests of the second cell. *)
Definition is_day_month_year_format (s : str) : Z :=
  let parts := Str.split s (lit "-") in
  if negb (length parts =? 3)%nat then 0%Z
  else
    match parts with
    | [day; month; year] =>
        if (length day =? 2)%nat && (length month =? 2)%nat
           && (length year =? 4)%nat
           && Str.isdigit day && Str.isdigit month && Str.isdigit year
        then 1%Z else 0%Z
    | _ => 0%Z
    end.

Definition is_ddmmyyyy_format (s : str) : Z :=
  if negb (length s =? 8)%nat then 0%Z
  else
    let day := firstn 2 s in                  (* s[:2] *)
    let month := firstn 2 (skipn 2 s) in      (* s[2:4] *)
    let year := skipn 4 s in                  (* s[4:] *)
    if Str.isdigit day && Str.isdigit month && Str.isdigit year
    then 1%Z else 0%Z.

Definition month_names : list str :=
  [lit "January"; lit "February"; lit "March"; lit "April"; lit "May";
   lit "June"; lit "July"; lit "August"; lit "September"; lit "October";
   lit "November"; lit "December"].

Definition is_month_str_day_year_format (s : str) : Z :=
  if negb (Str.contains (lit ", ") s) then 0%Z
  else
    let parts := Str.split s (lit ", ") in
    if negb (length parts =? 2)%nat then 0%Z
    else
      match parts with
      | [month_day; year] =>
          if negb (length year =? 4)%nat || negb (Str.isdigit year) then 0%Z
          else
            let month_parts := Str.split month_day (lit " ") in
            if negb (length month_parts =? 2)%nat then 0%Z
            else
              match month_parts with
              | [month; day] =>
                  if existsb (Str.eqb month) month_names
                     && Str.isdigit day && (length day <=? 2)%nat
                  then 1%Z else 0%Z
              | _ => 0%Z
              end
      | _ => 0%Z
      end.

Definition combine_known_dates (s : str) : Z :=
  (is_day_month_year_format s + is_ddmmyyyy_format s
   + is_month_str_day_year_format s)%Z.
End DateFormats.

(** ** The rows of Example 1

    [date.strftime(fmt)] for the directives the cell uses.  Only the
    calendar fields matter to them. *)

Module Datetime.
Record t : Type := { year : N; month : N; day : N }.

(** Every [datetime] with a year of four digits satisfies this (the cell's
    dates are the 5000 days before today). *)
Definition valid (d : t) : Prop :=
  (1000 <= year d <= 9999)%N /\ (1 <= month d <= 12)%N
  /\ (1 <= day d <= 31)%N.
End Datetime.

Fixpoint uint_str (u : Decimal.uint) : str :=
  match u with
  | Decimal.Nil => []
  | Decimal.D0 r => chr "0" :: uint_str r
  | Decimal.D1 r => chr "1" :: uint_str r
  | Decimal.D2 r => chr "2" :: uint_str r
  | Decimal.D3 r => chr "3" :: uint_str r
  | Decimal.D4 r => chr "4" :: uint_str r
  | Decimal.D5 r => chr "5" :: uint_str r
  | Decimal.D6 r => chr "6" :: uint_str r
  | Decimal.D7 r => chr "7" :: uint_str r
  | Decimal.D8 r => chr "8" :: uint_str r
  | Decimal.D9 r => chr "9" :: uint_str r
  end.

(** A number in decimal, and zero-padded to two places. *)
Definition decimal (n : N) : str := uint_str (N.to_uint n).

Definition zero_padded (n : N) : str :=
  if (n <? 10)%N then chr "0" :: decimal n else decimal n.

(** [%B] in the C locale: the English name. *)
Definition locale_month (m : N) : str :=
  nth (N.to_nat (m - 1))
    [lit "January"; lit "February"; lit "March"; lit "April"; lit "May";
     lit "June"; lit "July"; lit "August"; lit "September"; lit "October";
     lit "November"; lit "December"] [].

(** [%d], [%m], [%Y] and [%B]; [None] for a directive the cell never uses.
    Interpreters differ on how [%Y] pads a year below 1000: [Datetime.valid]
    leaves those years out. *)
Definition directive (c : char) (d : Datetime.t) : option str :=
  if N.eqb c (chr "d") then Some (zero_padded (Datetime.day d))
  else if N.eqb c (chr "m") then Some (zero_padded (Datetime.month d))
  else if N.eqb c (chr "Y") then Some (decimal (Datetime.year d))
  else if N.eqb c (chr "B") then Some (locale_month (Datetime.month d))
  else None.

Fixpoint strftime (d : Datetime.t) (fmt : str) : option str :=
  match fmt with
  | [] => Some []
  | c :: rest =>
      if N.eqb c (chr "%") then
        match rest with
        | [] => None
        | x :: rest' =>
            match directive x d, strftime d rest' with
            | Some a, Some b => Some (a ++ b)
            | _, _ => None
            end
        end
      else option_map (cons c) (strftime d rest)
  end.

(** The formats the rows are written in, one drawn at random per row. *)
Definition formats : list str :=
  [lit "%d-%m-%Y";     (* day-month-year *)
   lit "%d%m%Y";       (* ddmmyyyy *)
   lit "%B %d, %Y";    (* month_str day year *)
   lit "%m/%d/%Y"].    (* month/day/year *)

(** ** What the date tests accept *)

Section DateShapes.
Context {U : Unicode}.

(** Two digits, a dash, two digits, a dash, four digits. *)
Definition shape_dd_mm_yyyy (s : str) : Prop :=
  exists day month year : str,
    s = day ++ lit "-" ++ month ++ lit "-" ++ year /\
    length day = 2%nat /\ length month = 2%nat /\ length year = 4%nat /\
    forallb isdigit_char (day ++ month ++ year) = true.

(** A month name of the list, a space, one or two digits, a comma and a
    space, four digits. *)
Definition shape_month_day_year (s : str) : Prop :=
  exists month day year : str,
    s = month ++ lit " " ++ day ++ lit ", " ++ year /\
    In month month_names /\
    (1 <= length day <= 2)%nat /\ length year = 4%nat /\
    forallb isdigit_char (day ++ year) = true.
End DateShapes.

(** ** The loop, whatever the arithmetic *)

Section Loop.
Context {V : Type} {A : Arith V} {exn : Type}.
Implicit Types (s : Kernel V) (oracle : Oracle V exn) (eps t : V).

Lemma for_range_app (n m : nat) (b : Kernel V -> Kernel V * Outcome exn) s :
  for_range (n + m) b s =
  match for_range n b s with
  | (s', Completed) => for_range m b s'
  | (s', Raised e) => (s', Raised e)
  end.
Proof.
  revert s; induction n as [|n IH]; intros s; simpl.
  - reflexivity.
  - destruct (b s) as [s' [|e]]; [apply IH | reflexivity].
Qed.

Lemma body_answering eps t f s :
  body eps t (answering (exn:=exn) f) s = (answered eps t f s, Completed).
Proof. reflexivity. Qed.

Lemma rounds_answering_S n eps t f s :
  rounds (S n) eps t (answering (exn:=exn) f) s =
  (answered eps t f (fst (rounds n eps t (answering (exn:=exn) f) s)),
   Completed).
Proof.
  unfold rounds.
  replace (S n) with (n + 1)%nat by lia.
  rewrite for_range_app.
  revert s; induction n as [|n IH]; intros s.
  - reflexivity.
  - cbn [Nat.add for_range]. rewrite body_answering. apply IH.
Qed.

Lemma rounds_answering_completed n eps t f s :
  snd (rounds n eps t (answering (exn:=exn) f) s) = Completed.
Proof.
  destruct n as [|n]; [reflexivity | now rewrite rounds_answering_S].
Qed.

Lemma rounds_answering_calls n eps t f s :
  length (ledger (fst (rounds n eps t (answering (exn:=exn) f) s))) =
  (n + length (ledger s))%nat.
Proof.
  induction n as [|n IH]; [reflexivity|].
  rewrite rounds_answering_S. simpl. now rewrite IH.
Qed.

Lemma state_after_S n eps t f s :
  state_after (exn:=exn) (S n) eps t f s =
  answered eps t f (state_after (exn:=exn) n eps t f s).
Proof. unfold state_after. now rewrite rounds_answering_S. Qed.

Lemma state_after_calls n eps t f s :
  length (ledger (state_after (exn:=exn) n eps t f s)) =
  (n + length (ledger s))%nat.
Proof. apply rounds_answering_calls. Qed.

(** A round, in any arithmetic: the sum is assigned when the answer exceeds
    the threshold, the difference otherwise, and the step is halved. *)
Lemma state_after_round n eps t f s :
  let sn := state_after (exn:=exn) n eps t f s in
  let s' := state_after (exn:=exn) (S n) eps t f s in
  current_value s' =
    (if gtb (answer_at eps f sn) t
     then add (current_value sn) (step_size sn)
     else sub (current_value sn) (step_size sn)) /\
  step_size s' = div (step_size sn) (of_int 2) /\
  ledger s' = {| threshold := current_value sn; epsilon := eps |} :: ledger sn.
Proof. cbv zeta. rewrite state_after_S. repeat split. Qed.


(** The step never depends on the answers: it is halved once per round. *)
Lemma rounds_answering_step n eps t f s :
  step_size (fst (rounds n eps t (answering (exn:=exn) f) s)) =
  Nat.iter n (fun x => div x (of_int 2)) (step_size s).
Proof.
  induction n as [|n IH]; [reflexivity|].
  rewrite rounds_answering_S. simpl. now rewrite IH.
Qed.

Lemma state_after_front n eps t f s :
  state_after (exn:=exn) (S n) eps t f s =
  state_after (exn:=exn) n eps t f (answered eps t f s).
Proof. reflexivity. Qed.

Lemma length_answers_of n eps t f s : length (answers_of n eps t f s) = n.
Proof.
  revert s; induction n as [|n IH]; intros s; simpl; [|rewrite IH]; reflexivity.
Qed.

(** [replay] reads and writes the two variables only. *)
Lemma replay_variables t (answers : list V) s1 s2 :
  current_value s1 = current_value s2 ->
  step_size s1 = step_size s2 ->
  current_value (replay t answers s1) = current_value (replay t answers s2) /\
  step_size (replay t answers s1) = step_size (replay t answers s2).
Proof.
  revert s1 s2; induction answers as [|a l IH]; intros s1 s2 Hc Hs.
  - now split.
  - cbn [replay fold_left].
    apply (IH (update t a s1) (update t a s2));
      unfold update; cbn [current_value step_size]; now rewrite ?Hc, ?Hs.
Qed.

(** The run computes what the loop's assignments compute from the answers
    the oracle gave, one update per answer. *)
Lemma state_after_replay n eps t f s :
  let s' := state_after (exn:=exn) n eps t f s in
  let answers := answers_of n eps t f s in
  current_value s' = current_value (replay t answers s) /\
  step_size s' = step_size (replay t answers s).
Proof.
  revert s; induction n as [|n IH]; intros s; cbv zeta in *.
  - now split.
  - rewrite state_after_front. cbn [answers_of].
    destruct (IH (answered eps t f s)) as [Hc Hs]. rewrite Hc, Hs.
    change (replay t (answer_at eps f s
                        :: answers_of n eps t f (answered eps t f s)) s)
      with (replay t (answers_of n eps t f (answered eps t f s))
              (update t (answer_at eps f s) s)).
    apply replay_variables; reflexivity.
Qed.
End Loop.

(** ** Invocations of the oracle *)

Section Budget.
Context {V : Type} {A : Arith V} {exn : Type}.
Implicit Types (eps t : V) (f : list (Query V) -> Query V -> V) (e : exn).

Lemma rounds_failing_at_before n j e eps t f (s : Kernel V) :
  (length (ledger s) + n <= j)%nat ->
  rounds n eps t (failing_at j e f) s =
  rounds n eps t (answering (exn:=exn) f) s.
Proof.
  revert s; induction n as [|n IH]; intros s Hj; [reflexivity|].
  unfold rounds in *. cbn [for_range].
  assert (Hb : body eps t (failing_at j e f) s = body eps t (answering f) s).
  { unfold body, failing_at, answering.
    destruct (Nat.eqb_spec (length (ledger s)) j); [lia | reflexivity]. }
  rewrite Hb, body_answering. apply IH. simpl. lia.
Qed.

Lemma body_failing_at j e eps t f (s : Kernel V) :
  length (ledger s) = j ->
  body eps t (failing_at j e f) s =
  ({| current_value := current_value s;
      step_size := step_size s;
      ledger := {| threshold := current_value s; epsilon := eps |}
                  :: ledger s |}, Raised e).
Proof.
  intros Hj. unfold body, failing_at. now rewrite Hj, Nat.eqb_refl.
Qed.

(** Once the loop is reached, in any arithmetic: with [k >= 1], and whatever
    the oracle answers, the run invokes the oracle exactly [k] times,
    completes, and leaves [current_value] as the loop's assignments make it
    after the [k] answers the oracle gave. *)
Lemma EstimateMax_exact_budget (LOWER_BOUND UPPER_BOUND k : Z) eps t f :
  (LOWER_BOUND < UPPER_BOUND)%Z -> (1 <= k)%Z ->
  let r := EstimateMax LOWER_BOUND UPPER_BOUND k eps t
             (answering (exn:=exn) f) in
  let answers := answers_of (Z.to_nat k) eps t f
                   (init LOWER_BOUND UPPER_BOUND) in
  Z.of_nat (calls r) = k /\
  snd r = Completed /\
  Z.of_nat (length answers) = k /\
  estimate r = current_value (replay t answers (init LOWER_BOUND UPPER_BOUND)).
Proof.
  intros _ Hk r answers. subst r answers. unfold EstimateMax, calls, estimate.
  split; [|split; [|split]].
  - rewrite rounds_answering_calls. simpl. lia.
  - apply rounds_answering_completed.
  - rewrite length_answers_of. lia.
  - apply (state_after_replay (Z.to_nat k) eps t f
             (init LOWER_BOUND UPPER_BOUND)).
Qed.

(** With [k < 1] the body of the loop never runs, whatever the oracle. *)
Lemma EstimateMax_no_rounds (LOWER_BOUND UPPER_BOUND k : Z) eps t
    (oracle : Oracle V exn) :
  (k < 1)%Z ->
  EstimateMax LOWER_BOUND UPPER_BOUND k eps t oracle =
  (init LOWER_BOUND UPPER_BOUND, Completed).
Proof.
  intros Hk. unfold EstimateMax. now replace (Z.to_nat k) with O by lia.
Qed.

(** Once the loop is reached, in any arithmetic: a call with [k < 1] or with
    [lower >= upper] completes like any other, after [max(k,0)] invocations
    of an oracle that answers. *)
Lemma EstimateMax_no_validation (LOWER_BOUND UPPER_BOUND k : Z) eps t f :
  (k < 1 \/ UPPER_BOUND <= LOWER_BOUND)%Z ->
  let r := EstimateMax LOWER_BOUND UPPER_BOUND k eps t
             (answering (exn:=exn) f) in
  snd r = Completed /\
  Z.of_nat (calls r) = Z.max 0 k /\
  (Z.max 0 k = 0%Z -> fst r = init LOWER_BOUND UPPER_BOUND).
Proof.
  intros _ r. subst r. unfold EstimateMax, calls.
  split; [|split].
  - apply rounds_answering_completed.
  - rewrite rounds_answering_calls. simpl. lia.
  - intros Hk. now replace (Z.to_nat k) with O by lia.
Qed.

(** (C7, as the cell behaves) When the oracle raises on invocation [j] of a
    [k]-round run, the run ends there with the oracle's own exception: the
    failed invocation is the last one (no retry, although this oracle would
    answer a retry), and the variables are those left by the [j] rounds
    before. *)
Theorem EstimateMax_oracle_failure (LOWER_BOUND UPPER_BOUND k : Z) eps t
    (j : nat) (e : exn) f :
  (Z.of_nat j < k)%Z ->
  let r := EstimateMax LOWER_BOUND UPPER_BOUND k eps t (failing_at j e f) in
  let r' := EstimateMax LOWER_BOUND UPPER_BOUND (Z.of_nat j) eps t
              (answering (exn:=exn) f) in
  snd r = Raised e /\
  calls r = S j /\
  ledger (fst r) =
    {| threshold := estimate r'; epsilon := eps |} :: ledger (fst r') /\
  current_value (fst r) = current_value (fst r') /\
  step_size (fst r) = step_size (fst r').
Proof.
  intros Hj r r'. subst r r'. unfold EstimateMax, calls, estimate, rounds.
  rewrite Nat2Z.id.
  replace (Z.to_nat k) with (j + S (Z.to_nat k - S j))%nat by lia.
  rewrite for_range_app.
  fold (rounds j eps t (failing_at j e f) (init LOWER_BOUND UPPER_BOUND)).
  rewrite rounds_failing_at_before by (simpl; lia).
  pose proof (rounds_answering_completed (exn:=exn) j eps t f
                (init LOWER_BOUND UPPER_BOUND)) as Hc.
  pose proof (rounds_answering_calls (exn:=exn) j eps t f
                (init LOWER_BOUND UPPER_BOUND)) as Hl.
  unfold rounds in *.
  destruct (for_range j (body eps t (answering f))
              (init LOWER_BOUND UPPER_BOUND)) as [s o].
  simpl in Hc, Hl. subst o. cbn [for_range].
  rewrite body_failing_at by (rewrite Hl; simpl; lia).
  simpl. rewrite Hl. simpl. repeat split. f_equal. lia.
Qed.
End Budget.

(** ** Exact arithmetic

    The reference: what the loop computes when no sum, difference or half is
    ever rounded. *)

Section ExactArithmetic.
Context {exn : Type}.
Implicit Types (eps t : Q) (f : list (Query Q) -> Query Q -> Q) (s : Kernel Q).
Local Open Scope Q_scope.

Lemma gtb_Q_true (x y : Q) : gtb x y = true <-> y < x.
Proof.
  simpl. rewrite negb_true_iff, <- not_true_iff_false, Qle_bool_iff.
  split; [apply Qnot_le_lt | apply Qlt_not_le].
Qed.

Lemma gtb_Q_false (x y : Q) : gtb x y = false <-> x <= y.
Proof. simpl. now rewrite negb_false_iff, Qle_bool_iff. Qed.

Lemma answered_step_Q eps t f s :
  step_size (answered eps t f s) = step_size s / 2.
Proof. reflexivity. Qed.

Lemma answered_cases_Q eps t f s :
  (t < answer_at eps f s /\
   current_value (answered eps t f s) = current_value s + step_size s) \/
  (answer_at eps f s <= t /\
   current_value (answered eps t f s) = current_value s - step_size s).
Proof.
  unfold answered, update. cbn [current_value step_size].
  destruct (gtb (answer_at eps f s) t) eqn:E.
  - left. split; [now apply gtb_Q_true | reflexivity].
  - right. split; [now apply gtb_Q_false | reflexivity].
Qed.

Lemma pow2_succ (n : nat) : 2 ^ Z.of_nat (S n) == 2 ^ Z.of_nat n * 2.
Proof.
  rewrite Nat2Z.inj_succ. unfold Z.succ.
  rewrite Qpower_plus by discriminate. now rewrite Qpower_1_r.
Qed.

Lemma pow2_pos (z : Z) : 0 < 2 ^ z.
Proof. apply Qpower_0_lt. reflexivity. Qed.

Lemma pow2_neq0 (z : Z) : ~ 2 ^ z == 0.
Proof. apply Qpower_not_0. discriminate. Qed.

Lemma step_after_Q n eps t f s :
  step_size (state_after (exn:=exn) n eps t f s) ==
  step_size s / 2 ^ Z.of_nat n.
Proof.
  induction n as [|n IH].
  - change (step_size s == step_size s / 2 ^ 0). rewrite Qpower_0_r. field.
  - rewrite state_after_S, answered_step_Q, IH, pow2_succ.
    field. apply pow2_neq0.
Qed.

Lemma step_after_pos n eps t f s :
  0 < step_size s -> 0 < step_size (state_after (exn:=exn) n eps t f s).
Proof.
  intros Hs. rewrite step_after_Q.
  apply Qlt_shift_div_l; [apply pow2_pos | now rewrite Qmult_0_l].
Qed.

Lemma step_after_nonneg n eps t f s :
  0 <= step_size s -> 0 <= step_size (state_after (exn:=exn) n eps t f s).
Proof.
  intros Hs. rewrite step_after_Q.
  apply Qle_shift_div_l; [apply pow2_pos | now rewrite Qmult_0_l].
Qed.

(** After [n] rounds the estimate has moved by at most the steps spent:
    [step + step/2 + ... = 2*step - 2*(step left)]. *)
Lemma displacement_Q n eps t f s :
  0 <= step_size s ->
  let s' := state_after (exn:=exn) n eps t f s in
  current_value s - (2 * step_size s - 2 * step_size s') <= current_value s' /\
  current_value s' <= current_value s + (2 * step_size s - 2 * step_size s').
Proof.
  intros Hs. induction n as [|n IH]; cbv zeta in *.
  - change (state_after 0 eps t f s) with s. lra.
  - rewrite state_after_S.
    pose proof (step_after_nonneg n eps t f s Hs) as Hn.
    set (sn := state_after n eps t f s) in *.
    rewrite answered_step_Q.
    destruct (answered_cases_Q eps t f sn) as [[_ ->]|[_ ->]];
      assert (step_size sn / 2 == step_size sn * (1 # 2)) as -> by field;
      lra.
Qed.

Lemma init_step_Q (LOWER_BOUND UPPER_BOUND : Z) :
  step_size (init LOWER_BOUND UPPER_BOUND) ==
  inject_Z (UPPER_BOUND - LOWER_BOUND) / 4.
Proof. reflexivity. Qed.

Lemma init_step_pos (LOWER_BOUND UPPER_BOUND : Z) :
  (LOWER_BOUND < UPPER_BOUND)%Z ->
  0 < step_size (init (V:=Q) LOWER_BOUND UPPER_BOUND).
Proof.
  intros H. rewrite init_step_Q.
  assert (0 < inject_Z (UPPER_BOUND - LOWER_BOUND)).
  { change 0 with (inject_Z 0). rewrite <- Zlt_Qlt. lia. }
  apply Qlt_shift_div_l; lra.
Qed.


(** In exact arithmetic: every round moves the estimate by exactly one
    step, the step the round starts with: up when the oracle's result is
    strictly greater than the threshold and only then, down otherwise,
    equality included. *)
Lemma exact_round_moves_one_step (LOWER_BOUND UPPER_BOUND k : Z) eps t f
    (i : nat) :
  (LOWER_BOUND < UPPER_BOUND)%Z -> (Z.of_nat i < k)%Z ->
  let s := state_after (exn:=exn) i eps t f (init LOWER_BOUND UPPER_BOUND) in
  let s' := state_after (exn:=exn) (S i) eps t f
              (init LOWER_BOUND UPPER_BOUND) in
  let result := answer_at eps f s in
  (t < result -> current_value s' == current_value s + step_size s) /\
  (result <= t -> current_value s' == current_value s - step_size s) /\
  (current_value s' == current_value s + step_size s <-> t < result) /\
  (current_value s' == current_value s - step_size s <-> result <= t).
Proof.
  intros HLU _ s s' result.
  pose proof (step_after_pos i eps t f (init LOWER_BOUND UPPER_BOUND)
                (init_step_pos _ _ HLU)) as Hpos.
  fold s in Hpos. subst s' result. rewrite state_after_S. fold s.
  destruct (answered_cases_Q eps t f s) as [[Ha ->]|[Ha ->]];
    repeat split; intros; try reflexivity; try lra.
Qed.

Lemma pow2_Zplus1 (k : Z) : (0 <= k)%Z -> 2 ^ (k + 1) == 2 ^ k * 2.
Proof.
  intros _. rewrite Qpower_plus by discriminate. now rewrite Qpower_1_r.
Qed.



(** In exact arithmetic: started from the midpoint of a valid domain with
    step [(upper-lower)/4], the estimate lies strictly between [lower] and
    [upper] after every round, whatever the oracle answers, because the
    steps spent sum to less than [(upper-lower)/2]. *)
Lemma exact_estimate_inside (lower upper : Q) eps t f s (n : nat) :
  lower < upper ->
  current_value s == (lower + upper) / 2 ->
  step_size s == (upper - lower) / 4 ->
  lower < current_value (state_after (exn:=exn) n eps t f s) < upper.
Proof.
  intros HLU Hc Hs.
  assert (Hs' : step_size s == (upper - lower) * (1 # 4)) by (rewrite Hs; field).
  assert (Hc' : current_value s == (lower + upper) * (1 # 2))
    by (rewrite Hc; field).
  assert (Hpos : 0 < step_size s) by lra.
  pose proof (displacement_Q n eps t f s (Qlt_le_weak _ _ Hpos)) as [Hlo Hhi].
  pose proof (step_after_pos n eps t f s Hpos) as Hn.
  lra.
Qed.

(** Two runs that differ only in the answers played. *)
Lemma scripted_runs_ordered (a b : nat -> Q) eps t s (n : nat) :
  0 <= step_size s ->
  (forall i, (length (ledger s) <= i < length (ledger s) + n)%nat ->
             b i <= a i) ->
  let sa := state_after (exn:=exn) n eps t (script a) s in
  let sb := state_after (exn:=exn) n eps t (script b) s in
  step_size sb = step_size sa /\ current_value sb <= current_value sa.
Proof.
  intros Hs. induction n as [|n IH]; intros Hab; cbv zeta in *.
  - split; [reflexivity | apply Qle_refl].
  - destruct IH as [Hst Hcv]; [intros i Hi; apply Hab; lia|].
    rewrite !state_after_S.
    pose proof (step_after_nonneg n eps t (script a) s Hs) as Hn.
    set (sa := state_after n eps t (script a) s) in *.
    set (sb := state_after n eps t (script b) s) in *.
    assert (Hans : answer_at eps (script b) sb <= answer_at eps (script a) sa).
    { unfold answer_at, script. subst sa sb. rewrite !state_after_calls.
      apply Hab. lia. }
    split; [now rewrite !answered_step_Q, Hst|].
    destruct (answered_cases_Q eps t (script a) sa) as [[Ha ->]|[Ha ->]];
      destruct (answered_cases_Q eps t (script b) sb) as [[Hb ->]|[Hb ->]];
      rewrite Hst; lra.
Qed.

(** In exact arithmetic: as a function of the [k] answers played to it, the
    estimate over a valid domain is monotone: raising any of the answers
    never lowers the final estimate. *)
Lemma exact_estimate_monotone (LOWER_BOUND UPPER_BOUND k : Z) eps t
    (a b : nat -> Q) :
  (LOWER_BOUND < UPPER_BOUND)%Z ->
  (forall i : nat, (Z.of_nat i < k)%Z -> b i <= a i) ->
  estimate (EstimateMax LOWER_BOUND UPPER_BOUND k eps t
              (scripted (exn:=exn) b)) <=
  estimate (EstimateMax LOWER_BOUND UPPER_BOUND k eps t
              (scripted (exn:=exn) a)).
Proof.
  intros HLU Hab. unfold estimate, EstimateMax, scripted.
  apply (scripted_runs_ordered a b eps t (init LOWER_BOUND UPPER_BOUND)
           (Z.to_nat k)).
  - apply Qlt_le_weak, init_step_pos, HLU.
  - intros i Hi. apply Hab. simpl in Hi. lia.
Qed.

Lemma noiseless_answer_cases (M : Q) eps s :
  (current_value s < M /\ answer_at eps (noiseless_answer M) s = 1) \/
  (M <= current_value s /\ answer_at eps (noiseless_answer M) s = 0).
Proof.
  unfold answer_at, noiseless_answer. cbn [threshold].
  destruct (gtb M (current_value s)) eqn:E.
  - left. split; [now apply gtb_Q_true | reflexivity].
  - right. split; [now apply gtb_Q_false | reflexivity].
Qed.

(** Against a noiseless oracle the maximum stays within two steps of the
    estimate: each round halves the step and keeps the maximum in reach. *)
Lemma noiseless_tracking (M : Q) eps t s (n : nat) :
  0 <= t < 1 ->
  0 <= step_size s ->
  M - 2 * step_size s <= current_value s <= M + 2 * step_size s ->
  let s' := state_after (exn:=exn) n eps t (noiseless_answer M) s in
  M - 2 * step_size s' <= current_value s' <= M + 2 * step_size s'.
Proof.
  intros Ht Hs H0. induction n as [|n IH]; cbv zeta in *.
  - exact H0.
  - rewrite state_after_S.
    pose proof (step_after_nonneg n eps t (noiseless_answer M) s Hs) as Hn.
    set (sn := state_after n eps t (noiseless_answer M) s) in *.
    rewrite answered_step_Q.
    assert (step_size sn / 2 == step_size sn * (1 # 2)) as -> by field.
    destruct (noiseless_answer_cases M eps sn) as [[HM Ha]|[HM Ha]];
      destruct (answered_cases_Q eps t (noiseless_answer M) sn)
        as [[Hr ->]|[Hr ->]];
      rewrite Ha in Hr; lra.
Qed.

(** In exact arithmetic: against a noiseless oracle for a maximum [M] in
    the notebook's domain [[-2^32, 2^32]], with a threshold that tells its
    two answers apart, the estimate after [k >= 10] rounds is within
    [(upper-lower)/2^(k+1)] of [M]; with [k = 64] in particular it is within
    [2^34/2^65]. *)
Lemma exact_noiseless_convergence (M : Q) (k : Z) eps t :
  inject_Z Notebook.LOWER_BOUND <= M <= inject_Z Notebook.UPPER_BOUND ->
  (10 <= k)%Z ->
  0 <= t < 1 ->
  let r := EstimateMax Notebook.LOWER_BOUND Notebook.UPPER_BOUND k eps t
             (noiseless (exn:=exn) M) in
  Qabs (estimate r - M) <=
    inject_Z (Notebook.UPPER_BOUND - Notebook.LOWER_BOUND) / 2 ^ (k + 1) /\
  (k = 64%Z -> Qabs (estimate r - M) <= 2 ^ 34 / 2 ^ 65).
Proof.
  intros HM Hk Ht r.
  assert (H : Qabs (estimate r - M) <=
              inject_Z (Notebook.UPPER_BOUND - Notebook.LOWER_BOUND)
              / 2 ^ (k + 1)).
  { subst r. unfold estimate, EstimateMax, noiseless.
    set (s0 := init (V:=Q) Notebook.LOWER_BOUND Notebook.UPPER_BOUND).
    fold (state_after (exn:=exn) (Z.to_nat k) eps t (noiseless_answer M) s0).
    assert (Hs0 : step_size s0 == 2147483648) by reflexivity.
    assert (Hc0 : current_value s0 == 0) by reflexivity.
    assert (HL : inject_Z Notebook.LOWER_BOUND == - 4294967296) by reflexivity.
    assert (HU : inject_Z Notebook.UPPER_BOUND == 4294967296) by reflexivity.
    pose proof (noiseless_tracking M eps t s0 (Z.to_nat k) Ht) as Htr.
    cbv zeta in Htr. destruct Htr as [Hlo Hhi]; [lra | lra |].
    pose proof (step_after_Q (Z.to_nat k) eps t (noiseless_answer M) s0) as Hst.
    rewrite Hs0, Z2Nat.id in Hst by lia.
    set (sk := state_after (Z.to_nat k) eps t (noiseless_answer M) s0) in *.
    assert (Hb : inject_Z (Notebook.UPPER_BOUND - Notebook.LOWER_BOUND)
                 / 2 ^ (k + 1) == 2 * step_size sk).
    { rewrite Hst, pow2_Zplus1 by lia.
      change (inject_Z (Notebook.UPPER_BOUND - Notebook.LOWER_BOUND))
        with 8589934592.
      field. apply pow2_neq0. }
    rewrite Hb. apply Qabs_Qle_condition. lra. }
  split; [exact H|].
  intros ->. eapply Qle_trans; [exact H|]. vm_compute. discriminate.
Qed.

End ExactArithmetic.

(** ** What [SpecFloat] computes when it rounds

    The lemmas below follow [binary_round] through its steps.  They hold in
    the normal range of binary64 (no underflow, no overflow), which is where
    the notebook's numbers are. *)

(** Side conditions on powers of two. *)
Ltac pw := first [lia | apply Z.pow_nonzero; lia].

Section Rounding.
Local Open Scope Z_scope.

(** [SpecFloat] iterates with its own [iter_pos]; it is [Pos.iter]. *)
Lemma iter_pos_eq {A} (f : A -> A) (n : positive) (x : A) :
  iter_pos f n x = Pos.iter f x n.
Proof.
  revert x; induction n as [n IH|n IH|]; intros x; simpl.
  - rewrite !IH. now rewrite <- Pos.iter_swap, <- Pos.iter_swap.
  - now rewrite !IH.
  - reflexivity.
Qed.

(** One shift to the right: halve, remember the bit that fell off, and
    accumulate the earlier ones in the sticky bit. *)
Lemma shr_1_nonneg (q : Z) (r s : bool) :
  0 <= q ->
  shr_1 {| shr_m := q; shr_r := r; shr_s := s |} =
  {| shr_m := q / 2; shr_r := Z.odd q; shr_s := r || s |}.
Proof.
  intros Hq. destruct q as [|[p|p|]|p]; try lia; cbn [shr_1].
  - reflexivity.
  - f_equal. rewrite Pos2Z.inj_xI.
    rewrite Z.mul_comm, Z.div_add_l by lia. reflexivity.
  - f_equal. rewrite Pos2Z.inj_xO. rewrite Z.mul_comm, Z.div_mul by lia. reflexivity.
  - reflexivity.
Qed.

Lemma sticky_succ (m n : Z) :
  0 <= m -> 0 <= n ->
  Z.odd (m / 2 ^ n) || negb (m mod 2 ^ n =? 0) =
  negb (m mod 2 ^ (n + 1) =? 0).
Proof.
  intros Hm Hn.
  assert (Hp : 0 < 2 ^ n) by (apply Z.pow_pos_nonneg; lia).
  rewrite Z.pow_add_r, Z.pow_1_r by lia.
  rewrite Z.rem_mul_r by lia.
  pose proof (Z.mod_pos_bound m (2 ^ n) Hp) as Hb.
  pose proof (Z.mod_pos_bound (m / 2 ^ n) 2 ltac:(lia)) as Hb2.
  rewrite (Zmod_odd (m / 2 ^ n)) in *.
  destruct (Z.odd (m / 2 ^ n)); simpl.
  - symmetry. apply negb_true_iff, Z.eqb_neq. nia.
  - rewrite Z.mul_0_r, Z.add_0_r. reflexivity.
Qed.

(** [n] shifts to the right, in closed form. *)
Lemma shr_iter_spec (m : Z) (n : positive) :
  0 <= m ->
  iter_pos shr_1 n {| shr_m := m; shr_r := false; shr_s := false |} =
  shr_spec m n.
Proof.
  intros Hm. rewrite iter_pos_eq.
  apply (Pos.iter_ind _ shr_1 _ (fun p r => r = shr_spec m p)).
  - rewrite shr_1_nonneg by lia. unfold shr_spec. simpl (2 ^ (1 - 1)).
    rewrite Z.pow_1_r, Z.div_1_r, Z.mod_1_r. reflexivity.
  - intros p a' ->. unfold shr_spec.
    assert (H2 : 0 < 2 ^ Z.pos p) by (apply Z.pow_pos_nonneg; lia).
    rewrite shr_1_nonneg by (apply Z.div_pos; lia).
    rewrite Pos2Z.inj_succ. unfold Z.succ.
    replace (Z.pos p + 1 - 1) with (Z.pos p) by lia.
    f_equal.
    + rewrite Z.pow_add_r, Z.pow_1_r by lia. now rewrite Z.div_div by lia.
    + pose proof (sticky_succ m (Z.pos p - 1) Hm ltac:(lia)) as H.
      now replace (Z.pos p - 1 + 1) with (Z.pos p) in H by lia.
Qed.

(** [dig m] is the number of binary digits of [m]. *)
Lemma dig_bounds (m : positive) : 2 ^ (dig m - 1) <= Z.pos m < 2 ^ dig m.
Proof.
  unfold dig. induction m as [m IH|m IH|]; cbn [digits2_pos].
  - rewrite Pos2Z.inj_succ, (Pos2Z.inj_xI m). unfold Z.succ.
    replace (Z.pos (digits2_pos m) + 1 - 1) with (Z.pos (digits2_pos m) - 1 + 1) by lia.
    rewrite !Z.pow_add_r, !Z.pow_1_r by lia. lia.
  - rewrite Pos2Z.inj_succ, (Pos2Z.inj_xO m). unfold Z.succ.
    replace (Z.pos (digits2_pos m) + 1 - 1) with (Z.pos (digits2_pos m) - 1 + 1) by lia.
    rewrite !Z.pow_add_r, !Z.pow_1_r by lia. lia.
  - simpl. lia.
Qed.

Lemma dig_pos (m : positive) : 1 <= dig m.
Proof. unfold dig. lia. Qed.

Lemma dig_unique (m : positive) (d : Z) :
  2 ^ (d - 1) <= Z.pos m < 2 ^ d -> dig m = d.
Proof.
  intros [Hlo Hhi]. pose proof (dig_bounds m) as [Hl Hh]. pose proof (dig_pos m).
  assert (Hd : 1 <= d).
  { destruct (Z_lt_le_dec d 1) as [Hlt|]; [|assumption].
    assert (2 ^ d <= 2 ^ 0) by (destruct (Z_lt_le_dec d 0);
      [rewrite Z.pow_neg_r by lia; simpl; lia | apply Z.pow_le_mono_r; lia]).
    simpl in *. lia. }
  destruct (Z.lt_trichotomy (dig m) d) as [Hlt|[Heq|Hgt]]; [|assumption|].
  - assert (2 ^ dig m <= 2 ^ (d - 1)) by (apply Z.pow_le_mono_r; lia). lia.
  - assert (2 ^ d <= 2 ^ (dig m - 1)) by (apply Z.pow_le_mono_r; lia). lia.
Qed.

(** Shifting to the left multiplies by a power of two. *)
Lemma shl_iter (m d : positive) :
  Z.pos (Pos.iter xO m d) = Z.pos m * 2 ^ Z.pos d.
Proof.
  apply (Pos.iter_ind _ xO m (fun p r => Z.pos r = Z.pos m * 2 ^ Z.pos p)).
  - rewrite (Pos2Z.inj_xO m), Z.pow_1_r. lia.
  - intros p r Hr. rewrite (Pos2Z.inj_xO r), Hr, Pos2Z.inj_succ.
    unfold Z.succ. rewrite Z.pow_add_r, Z.pow_1_r by lia. lia.
Qed.

(** Whether [binary_round] has to shift left (fewer than 53 digits), right
    (more) or not at all, the mantissa it rounds, its round bit and its
    sticky bit are given by one formula. *)
Lemma first_shr_spec (m : positive) (e : Z) :
  -1074 <= dig m + e - 53 ->
  first_shr m e = first_spec m e.
Proof.
  intros Hn. unfold first_shr, first_spec, shl_align, fexp, emin.
  pose proof (dig_bounds m) as [Hlo Hhi]. pose proof (dig_pos m) as Hd.
  set (d := dig m) in *.
  replace (Z.max (d + e - 53) (3 - 1024 - 53)) with (d + e - 53) by lia.
  destruct (d + e - 53 - e) as [|p|p] eqn:Hp.
  - (* d = 53: nothing moves *)
    assert (d = 53) by lia.
    unfold shr_fexp, shr, fexp, emin. cbn [Zdigits2]. fold (dig m). fold d.
    replace (Z.max (d + e - 53) (3 - 1024 - 53) - e) with 0 by lia.
    cbn [shr_record_of_loc]. f_equal; [|lia]. 
    replace d with 53 by lia. f_equal.
    + change (2 ^ (53 + 1)) with (2 ^ 54). now rewrite Z.div_mul by lia.
    + change (2 ^ 54) with (2 * 2 ^ 53). 
      rewrite Z.mul_assoc, Z.div_mul by lia. now rewrite Z.odd_mul, andb_false_r.
    + change (2 ^ 54) with (2 * 2 ^ 53). 
      rewrite Z.mul_assoc, Z.mod_mul by lia. reflexivity.
  - (* d > 53: shift right *)
    unfold shr_fexp, shr, fexp, emin. cbn [Zdigits2]. fold (dig m). fold d.
    replace (Z.max (d + e - 53) (3 - 1024 - 53) - e) with (Z.pos p) by lia.
    cbn [shr_record_of_loc]. rewrite shr_iter_spec by lia. unfold shr_spec.
    assert (Hdp : d = Z.pos p + 53) by lia.
    f_equal; [|lia]. f_equal.
    + replace (d + 1) with (Z.pos p + 54) by lia.
      rewrite Z.pow_add_r by lia. now rewrite Z.div_mul_cancel_r by lia.
    + replace d with ((Z.pos p - 1) + 54) at 1 by lia.
      rewrite Z.pow_add_r by lia. 
      now rewrite Z.div_mul_cancel_r by pw.
    + replace d with ((Z.pos p - 1) + 54) at 1 by lia.
      rewrite Z.pow_add_r by lia.
      rewrite Z.mul_mod_distr_r by pw.
      f_equal. destruct (Z.eqb_spec (Z.pos m mod 2 ^ (Z.pos p - 1)) 0) as [->|Hne].
      * reflexivity.
      * symmetry. apply Z.eqb_neq. lia.
  - (* d < 53: shift left *)
    rewrite shl_iter.
    unfold shr_fexp, shr, fexp, emin.
    assert (Hdp : d = 53 - Z.pos p) by lia.
    assert (Hdig : Zdigits2 (Z.pos m * 2 ^ Z.pos p) = 53).
    { assert (H2p : 0 < 2 ^ Z.pos p) by (apply Z.pow_pos_nonneg; lia).
      destruct (Z.pos m * 2 ^ Z.pos p) as [|q|q] eqn:Hq; try nia.
      cbn [Zdigits2]. fold (dig q). apply dig_unique. rewrite <- Hq.
      assert (E1 : 2 ^ (53 - 1) = 2 ^ (d - 1) * 2 ^ Z.pos p)
        by (rewrite <- Z.pow_add_r by lia; f_equal; lia).
      assert (E2 : 2 ^ 53 = 2 ^ d * 2 ^ Z.pos p)
        by (rewrite <- Z.pow_add_r by lia; f_equal; lia).
      rewrite E1, E2. split; nia. }
    rewrite Hdig.
    replace (Z.max (53 + (d + e - 53) - 53) (3 - 1024 - 53) - (d + e - 53)) with 0 by lia.
    cbn [shr_record_of_loc]. f_equal. f_equal.
    + replace 54 with (Z.pos p + (d + 1)) by lia.
      rewrite Z.pow_add_r, Z.mul_assoc by lia. now rewrite Z.div_mul by pw.
    + replace 54 with ((Z.pos p + 1) + d) by lia.
      rewrite Z.pow_add_r, Z.mul_assoc by lia. rewrite Z.div_mul by pw.
      rewrite Z.pow_add_r, Z.pow_1_r by lia.
      rewrite Z.mul_assoc, Z.odd_mul. now rewrite andb_false_r.
    + replace 54 with ((Z.pos p + 1) + d) by lia.
      rewrite Z.pow_add_r, Z.mul_assoc by lia. rewrite Z.mod_mul by pw.
      reflexivity.
Qed.

(** [binary_round] is [first_shr] followed by [finish]. *)
Lemma binary_round_finish (s : bool) (m : positive) (e : Z) :
  binary_round 53 1024 s m e = finish s (first_shr m e).
Proof.
  unfold binary_round, first_shr, dig.
  destruct (shl_align m e (fexp 53 1024 (Z.pos (digits2_pos m) + e))) as [mz ez].
  reflexivity.
Qed.

Lemma dig_scale (m m' : positive) (a : Z) :
  0 <= a -> Z.pos m' = Z.pos m * 2 ^ a -> dig m' = dig m + a.
Proof.
  intros Ha Hm'.
  pose proof (dig_bounds m) as [Hlo Hhi]. pose proof (dig_pos m) as Hd.
  assert (H2a : 0 < 2 ^ a) by (apply Z.pow_pos_nonneg; lia).
  apply dig_unique. rewrite Hm'.
  replace (dig m + a - 1) with (dig m - 1 + a) by lia.
  rewrite !Z.pow_add_r by lia. split; nia.
Qed.

(** Scaling a mantissa by a power of two and lowering the exponent to match
    changes nothing. *)
Lemma first_spec_scale (m m' : positive) (a e : Z) :
  0 <= a -> Z.pos m' = Z.pos m * 2 ^ a ->
  first_spec m' (e - a) = first_spec m e.
Proof.
  intros Ha Hm'. unfold first_spec.
  pose proof (dig_bounds m) as [Hlo Hhi]. pose proof (dig_pos m) as Hd.
  assert (H2a : 0 < 2 ^ a) by (apply Z.pow_pos_nonneg; lia).
  assert (Hd' : dig m' = dig m + a) by now apply dig_scale.
  rewrite Hd', Hm'. set (d := dig m) in *.
  replace (Z.pos m * 2 ^ a * 2 ^ 54) with (Z.pos m * 2 ^ 54 * 2 ^ a) by ring.
  f_equal; [|lia]. f_equal.
  - replace (d + a + 1) with (d + 1 + a) by lia.
    rewrite Z.pow_add_r by lia. now rewrite Z.div_mul_cancel_r by pw.
  - rewrite Z.pow_add_r by lia. now rewrite Z.div_mul_cancel_r by pw.
  - rewrite Z.pow_add_r by lia. rewrite Z.mul_mod_distr_r by pw.
    f_equal.
    destruct (Z.eqb_spec (Z.pos m * 2 ^ 54 mod 2 ^ d) 0) as [->|Hne].
    + reflexivity.
    + apply Z.eqb_neq. lia.
Qed.

(** So [binary_round] sees the number, not the way it is written. *)
Lemma binary_round_scale (s : bool) (m m' : positive) (a e : Z) :
  0 <= a -> Z.pos m' = Z.pos m * 2 ^ a ->
  -1074 <= dig m + e - 53 ->
  binary_round 53 1024 s m' (e - a) = binary_round 53 1024 s m e.
Proof.
  intros Ha Hm' Hn.
  assert (H2a : 0 < 2 ^ a) by (apply Z.pow_pos_nonneg; lia).
  pose proof (dig_bounds m) as [Hlo Hhi].
  assert (Hd' : dig m' = dig m + a) by now apply dig_scale.
  rewrite !binary_round_finish, !first_shr_spec by lia.
  now rewrite (first_spec_scale m m' a e).
Qed.

(** The truncated mantissa has exactly 53 digits; rounding may carry it to
    [2^53]. *)
Lemma trunc_mant_bounds (m : positive) :
  2 ^ 52 <= Z.pos m * 2 ^ 54 / 2 ^ (dig m + 1) < 2 ^ 53.
Proof.
  pose proof (dig_bounds m) as [Hlo Hhi]. pose proof (dig_pos m) as Hd.
  set (d := dig m) in *.
  assert (Hp : 0 < 2 ^ (d + 1)) by (apply Z.pow_pos_nonneg; lia).
  assert (E : 2 ^ (d + 1) = 2 ^ (d - 1) * 4).
  { replace (d + 1) with (d - 1 + 2) by lia. now rewrite Z.pow_add_r by lia. }
  assert (E' : 2 ^ d = 2 ^ (d - 1) * 2).
  { replace d with (d - 1 + 1) at 1 by lia. now rewrite Z.pow_add_r by lia. }
  split.
  - apply Z.div_le_lower_bound; [lia|]. change (2 ^ 54) with (2 ^ 52 * 4). nia.
  - apply Z.div_lt_upper_bound; [lia|]. change (2 ^ 54) with (2 * 2 ^ 53). nia.
Qed.

Lemma rnd_mant_bounds (m : positive) : 2 ^ 52 <= rnd_mant m <= 2 ^ 53.
Proof.
  pose proof (trunc_mant_bounds m). unfold rnd_mant.
  repeat match goal with |- context [if ?b then _ else _] => destruct b end; lia.
Qed.

(** What [binary_round] returns. *)
Lemma binary_round_spec (s : bool) (m : positive) (e : Z) :
  -1074 <= dig m + e - 53 <= 970 ->
  binary_round 53 1024 s m e =
  if rnd_mant m <? 2 ^ 53
  then S754_finite s (Z.to_pos (rnd_mant m)) (dig m + e - 53)
  else S754_finite s (Z.to_pos (2 ^ 52)) (dig m + e - 53 + 1).
Proof.
  intros Hn. rewrite binary_round_finish, first_shr_spec by lia.
  unfold first_spec, finish.
  pose proof (rnd_mant_bounds m) as Hb.
  assert (Hr : round_nearest_even
                 (shr_m {| shr_m := Z.pos m * 2 ^ 54 / 2 ^ (dig m + 1);
                           shr_r := Z.odd (Z.pos m * 2 ^ 54 / 2 ^ dig m);
                           shr_s := negb (Z.pos m * 2 ^ 54 mod 2 ^ dig m =? 0) |})
                 (loc_of_shr_record
                    {| shr_m := Z.pos m * 2 ^ 54 / 2 ^ (dig m + 1);
                       shr_r := Z.odd (Z.pos m * 2 ^ 54 / 2 ^ dig m);
                       shr_s := negb (Z.pos m * 2 ^ 54 mod 2 ^ dig m =? 0) |})
               = rnd_mant m).
  { unfold rnd_mant. cbn [shr_m loc_of_shr_record].
    destruct (Z.odd (Z.pos m * 2 ^ 54 / 2 ^ dig m));
      destruct (negb (Z.pos m * 2 ^ 54 mod 2 ^ dig m =? 0)); reflexivity. }
  rewrite Hr. set (e' := dig m + e - 53) in *.
  destruct (rnd_mant m) as [|q|q] eqn:Hq; try lia.
  unfold shr_fexp, shr, fexp, emin. cbn [Zdigits2 shr_record_of_loc]. fold (dig q).
  destruct (Z.ltb_spec (Z.pos q) (2 ^ 53)) as [Hlt|Hge].
  - assert (Hdq : dig q = 53) by (apply dig_unique; simpl (53 - 1); lia).
    rewrite Hdq.
    replace (Z.max (53 + e' - 53) (3 - 1024 - 53) - e') with 0 by lia.
    cbn [shr_m]. destruct (Z.leb_spec e' (1024 - 53)); [|lia].
    now rewrite Pos2Z.id.
  - assert (Hq53 : Z.pos q = 2 ^ 53) by lia.
    assert (Hdq : dig q = 54).
    { apply dig_unique. rewrite Hq53. simpl (54 - 1). split; [lia|].
      apply Z.pow_lt_mono_r; lia. }
    rewrite Hdq.
    replace (Z.max (54 + e' - 53) (3 - 1024 - 53) - e') with 1 by lia.
    cbn [iter_pos]. rewrite shr_1_nonneg by lia. cbn [shr_m].
    rewrite Hq53. change (2 ^ 53 / 2) with (Z.pos (Z.to_pos (2 ^ 52))).
    cbv iota beta.
    destruct (Z.leb_spec (e' + 1) (1024 - 53)); [|lia].
    reflexivity.
Qed.

(** Addition and subtraction align the operands on the smaller exponent,
    add or subtract the mantissas exactly, and round the result: in units of
    [2^-84] they are [canon] of the exact sum and difference. *)
Lemma shl_align_fst (m : positive) (e ez : Z) :
  ez <= e -> Z.pos (fst (shl_align m e ez)) = Z.pos m * 2 ^ (e - ez).
Proof.
  intros He. unfold shl_align.
  destruct (ez - e) as [|p|p] eqn:Hp; try lia; cbn [fst].
  - replace (e - ez) with 0 by lia. lia.
  - rewrite shl_iter. f_equal. f_equal. lia.
Qed.

Lemma binary_normalize_scale (z : Z) (e : Z) :
  -84 <= e ->
  binary_normalize 53 1024 z e false = canon (z * 2 ^ (e + 84)).
Proof.
  intros He. unfold canon.
  assert (H2 : 0 < 2 ^ (e + 84)) by (apply Z.pow_pos_nonneg; lia).
  destruct z as [|p|p].
  - reflexivity.
  - destruct (Z.pos p * 2 ^ (e + 84)) as [|p'|p'] eqn:Hp'; try lia.
    cbn [binary_normalize].
    replace (-84) with (e - (e + 84)) by lia.
    symmetry. apply (binary_round_scale false p p' (e + 84) e); try lia.
    pose proof (dig_pos p). lia.
  - destruct (Z.neg p * 2 ^ (e + 84)) as [|p'|p'] eqn:Hp'; try lia.
    cbn [binary_normalize].
    replace (-84) with (e - (e + 84)) by lia.
    symmetry. apply (binary_round_scale true p p' (e + 84) e); try lia.
    pose proof (dig_pos p). lia.
Qed.

Lemma aligned_scaled (s : bool) (m : positive) (e ez : Z) :
  -84 <= ez <= e ->
  cond_Zopp s (Z.pos (fst (shl_align m e ez))) * 2 ^ (ez + 84) =
  scaled (S754_finite s m e).
Proof.
  intros He. rewrite shl_align_fst by lia. cbn [scaled].
  replace (e + 84) with ((e - ez) + (ez + 84)) by lia.
  rewrite (Z.pow_add_r 2 (e - ez) (ez + 84)) by lia.
  destruct s; cbn [cond_Zopp]; ring.
Qed.

Lemma SFadd_canon (sx sy : bool) (mx my : positive) (ex ey : Z) :
  -84 <= ex -> -84 <= ey ->
  SFadd 53 1024 (S754_finite sx mx ex) (S754_finite sy my ey) =
  canon (scaled (S754_finite sx mx ex) + scaled (S754_finite sy my ey)).
Proof.
  intros Hx Hy. cbn [SFadd]. cbv zeta.
  rewrite binary_normalize_scale by lia.
  f_equal. rewrite Z.mul_add_distr_r.
  rewrite !aligned_scaled by lia. reflexivity.
Qed.

Lemma SFsub_canon (sx sy : bool) (mx my : positive) (ex ey : Z) :
  -84 <= ex -> -84 <= ey ->
  SFsub 53 1024 (S754_finite sx mx ex) (S754_finite sy my ey) =
  canon (scaled (S754_finite sx mx ex) - scaled (S754_finite sy my ey)).
Proof.
  intros Hx Hy. cbn [SFsub]. cbv zeta.
  rewrite binary_normalize_scale by lia.
  f_equal. rewrite Z.mul_sub_distr_r.
  rewrite !aligned_scaled by lia. reflexivity.
Qed.

(** The float nearest to [p] units, and its value. *)
Lemma canon_spec (s : bool) (p : positive) :
  53 <= dig p <= 1000 ->
  exists (m : positive) (e : Z),
    binary_round 53 1024 s p (-84) = S754_finite s m e /\
    -84 <= e <= dig p - 136 /\
    Z.pos m * 2 ^ (e + 84) = rne_pos p.
Proof.
  intros Hd. rewrite binary_round_spec by lia.
  pose proof (rnd_mant_bounds p) as Hb. unfold rne_pos.
  destruct (Z.ltb_spec (rnd_mant p) (2 ^ 53)) as [Hlt|Hge].
  - exists (Z.to_pos (rnd_mant p)), (dig p + -84 - 53).
    split; [reflexivity | split; [lia|]].
    rewrite Z2Pos.id by lia. f_equal. f_equal. lia.
  - exists (Z.to_pos (2 ^ 52)), (dig p + -84 - 53 + 1).
    split; [reflexivity | split; [lia|]].
    replace (rnd_mant p) with (2 ^ 53) by lia.
    replace (dig p + -84 - 53 + 1 + 84) with (1 + (dig p - 53)) by lia.
    rewrite Z.pow_add_r by lia.
    change (Z.pos (Z.to_pos (2 ^ 52)) * (2 ^ 1 * 2 ^ (dig p - 53)))
      with (2 ^ 52 * (2 * 2 ^ (dig p - 53))).
    change (2 ^ 53) with (2 ^ 52 * 2). ring.
Qed.

(** Rounding stays between the powers of two around the number. *)
Lemma rne_pos_bounds (p : positive) :
  53 <= dig p -> 2 ^ (dig p - 1) <= rne_pos p <= 2 ^ dig p.
Proof.
  intros Hd. unfold rne_pos. pose proof (rnd_mant_bounds p) as Hb.
  assert (H2 : 0 < 2 ^ (dig p - 53)) by (apply Z.pow_pos_nonneg; lia).
  assert (E1 : 2 ^ (dig p - 1) = 2 ^ 52 * 2 ^ (dig p - 53))
    by (rewrite <- Z.pow_add_r by lia; f_equal; lia).
  assert (E2 : 2 ^ dig p = 2 ^ 53 * 2 ^ (dig p - 53))
    by (rewrite <- Z.pow_add_r by lia; f_equal; lia).
  rewrite E1, E2. split; apply Z.mul_le_mono_nonneg_r; lia.
Qed.

(** A number that fits 53 bits is not changed. *)
Lemma rne_pos_exact (p : positive) :
  53 <= dig p -> Z.pos p mod 2 ^ (dig p - 53) = 0 -> rne_pos p = Z.pos p.
Proof.
  intros Hd Hmod. unfold rne_pos, rnd_mant.
  set (d := dig p) in *.
  assert (H2 : 0 < 2 ^ (d - 53)) by (apply Z.pow_pos_nonneg; lia).
  apply Z.div_exact in Hmod; [|lia].
  set (P := Z.pos p / 2 ^ (d - 53)) in *.
  assert (Ex1 : Z.pos p * 2 ^ 54 = P * 2 ^ (d + 1)).
  { rewrite Hmod. replace (d + 1) with (d - 53 + 54) by lia.
    rewrite Z.pow_add_r by lia. ring. }
  assert (Ex2 : Z.pos p * 2 ^ 54 = (2 * P) * 2 ^ d).
  { rewrite Ex1. replace (d + 1) with (1 + d) by lia.
    rewrite Z.pow_add_r by lia. ring. }
  rewrite Ex2 at 1. rewrite Z.div_mul by pw.
  rewrite Z.odd_mul. cbn [Z.odd andb].
  rewrite Ex1, Z.div_mul by pw. lia.
Qed.

(** Just above [2^116] units, that is [2^32], rounding goes down to it. *)
Lemma rne_pos_top (p : positive) :
  2 ^ 116 <= Z.pos p <= 2 ^ 116 + 2 ^ 62 -> rne_pos p = 2 ^ 116.
Proof.
  intros Hp. 
  assert (Hd : dig p = 117).
  { apply dig_unique. simpl (117 - 1). split; [lia|].
    change (2 ^ 117) with (2 ^ 116 * 2). lia. }
  unfold rne_pos, rnd_mant. rewrite Hd.
  assert (Hq : Z.pos p * 2 ^ 54 / 2 ^ 117 = 2 ^ 53).
  { change (2 ^ 117) with (2 ^ 63 * 2 ^ 54).
    rewrite Z.div_mul_cancel_r by lia.
    symmetry. apply (Z.div_unique _ _ _ (Z.pos p - 2 ^ 116)); [lia|].
    change (2 ^ 116) with (2 ^ 63 * 2 ^ 53). lia. }
  rewrite Hq. change (Z.odd (2 ^ 53)) with false. cbv iota.
  change (2 ^ (117 + 1)) with (2 ^ 64 * 2 ^ 54).
  rewrite Z.div_mul_cancel_r by lia.
  replace (Z.pos p / 2 ^ 64) with (2 ^ 52).
  - reflexivity.
  - apply (Z.div_unique _ _ _ (Z.pos p - 2 ^ 116)); [lia|].
    change (2 ^ 116) with (2 ^ 64 * 2 ^ 52). lia.
Qed.
(** Rounding is monotone. *)
Lemma dig_mono (p1 p2 : positive) : Z.pos p1 <= Z.pos p2 -> dig p1 <= dig p2.
Proof.
  intros Hp. pose proof (dig_bounds p1) as [Hl1 Hh1].
  pose proof (dig_bounds p2) as [Hl2 Hh2].
  destruct (Z_lt_le_dec (dig p2) (dig p1)) as [Hlt|]; [|assumption].
  assert (2 ^ dig p2 <= 2 ^ (dig p1 - 1)) by (apply Z.pow_le_mono_r; lia). lia.
Qed.

Lemma rnd_mant_mono (p1 p2 : positive) :
  dig p1 = dig p2 -> Z.pos p1 <= Z.pos p2 -> rnd_mant p1 <= rnd_mant p2.
Proof.
  intros Hd Hp. unfold rnd_mant. rewrite <- Hd.
  pose proof (dig_pos p1) as Hd1. set (d := dig p1) in *.
  assert (HD : 0 < 2 ^ d) by (apply Z.pow_pos_nonneg; lia).
  assert (E : 2 ^ (d + 1) = 2 ^ d * 2) by (rewrite Z.pow_add_r by lia; reflexivity).
  rewrite E, <- !Z.div_div by lia.
  set (x1 := Z.pos p1 * 2 ^ 54). set (x2 := Z.pos p2 * 2 ^ 54).
  assert (Hx : x1 <= x2) by (subst x1 x2; apply Z.mul_le_mono_nonneg_r; lia).
  pose proof (Z.div_le_mono x1 x2 (2 ^ d) HD Hx) as HA.
  pose proof (Z.div_mod x1 (2 ^ d) ltac:(lia)) as E1.
  pose proof (Z.div_mod x2 (2 ^ d) ltac:(lia)) as E2.
  pose proof (Z.mod_pos_bound x1 (2 ^ d) HD) as B1.
  pose proof (Z.mod_pos_bound x2 (2 ^ d) HD) as B2.
  set (A1 := x1 / 2 ^ d) in *. set (A2 := x2 / 2 ^ d) in *.
  set (r1 := x1 mod 2 ^ d) in *. set (r2 := x2 mod 2 ^ d) in *.
  pose proof (Z.div_le_mono A1 A2 2 ltac:(lia) HA) as HM.
  pose proof (Zdiv2_odd_eqn A1) as O1. pose proof (Zdiv2_odd_eqn A2) as O2.
  rewrite Z.div2_div in O1, O2.
  set (M1 := A1 / 2) in *. set (M2 := A2 / 2) in *.
  destruct (Z.eqb_spec r1 0) as [Hr1|Hr1]; destruct (Z.eqb_spec r2 0) as [Hr2|Hr2];
    cbn [negb];
    destruct (Z.odd A1) eqn:Ho1; destruct (Z.odd A2) eqn:Ho2;
    destruct (Z.even M1) eqn:He1; destruct (Z.even M2) eqn:He2;
    try lia;
    try (assert (M1 = M2) by nia; congruence);
    try nia;
    (destruct (Z.eq_dec M1 M2) as [Heq|Hne]; [|lia]);
    assert (Z.even M1 = Z.even M2) by (f_equal; exact Heq); congruence.
Qed.

Lemma rne_pos_mono (p1 p2 : positive) :
  53 <= dig p1 -> Z.pos p1 <= Z.pos p2 -> rne_pos p1 <= rne_pos p2.
Proof.
  intros Hd Hp. pose proof (dig_mono p1 p2 Hp) as Hdm.
  destruct (Z.eq_dec (dig p1) (dig p2)) as [Heq|Hne].
  - unfold rne_pos. rewrite <- Heq.
    apply Z.mul_le_mono_nonneg_r; [apply Z.pow_nonneg; lia|].
    now apply rnd_mant_mono.
  - pose proof (rne_pos_bounds p1 Hd) as [_ Hu].
    pose proof (rne_pos_bounds p2 ltac:(lia)) as [Hl _].
    assert (2 ^ dig p1 <= 2 ^ (dig p2 - 1)) by (apply Z.pow_le_mono_r; lia).
    lia.
Qed.

Lemma dig_le (p : positive) (j : Z) : Z.pos p < 2 ^ j -> dig p <= j.
Proof.
  intros Hp. pose proof (dig_bounds p) as [Hl _].
  destruct (Z_lt_le_dec j (dig p)) as [Hlt|]; [|assumption].
  assert (2 ^ j <= 2 ^ (dig p - 1)) by (apply Z.pow_le_mono_r; lia). lia.
Qed.

Lemma dig_ge (p : positive) (j : Z) : 2 ^ j <= Z.pos p -> j < dig p.
Proof.
  intros Hp. pose proof (dig_bounds p) as [_ Hh].
  destruct (Z_lt_le_dec j (dig p)) as [|Hle]; [assumption|].
  assert (2 ^ dig p <= 2 ^ j) by (apply Z.pow_le_mono_r; lia). lia.
Qed.

(** The scaled value of the float nearest to [w] units. *)
Lemma scaled_canon (w : Z) :
  2 ^ 52 <= Z.abs w < 2 ^ 200 ->
  scaled (canon w) = Z.sgn w * rne_pos (Z.to_pos (Z.abs w)).
Proof.
  intros Hw. destruct w as [|p|p]; [simpl in Hw; lia| |].
  - destruct (canon_spec false p) as (m & e & Hbr & He & Hval).
    { pose proof (dig_ge p 52 ltac:(simpl in Hw; lia)).
      pose proof (dig_le p 200 ltac:(simpl in Hw; lia)). lia. }
    unfold canon. cbn [binary_normalize]. rewrite Hbr. cbn [scaled cond_Zopp].
    rewrite Hval. simpl (Z.sgn _). simpl (Z.abs _). rewrite Pos2Z.id. lia.
  - destruct (canon_spec true p) as (m & e & Hbr & He & Hval).
    { pose proof (dig_ge p 52 ltac:(simpl in Hw; lia)).
      pose proof (dig_le p 200 ltac:(simpl in Hw; lia)). lia. }
    unfold canon. cbn [binary_normalize]. rewrite Hbr. cbn [scaled cond_Zopp].
    rewrite Hval. simpl (Z.sgn _). simpl (Z.abs _). rewrite Pos2Z.id. lia.
Qed.

Lemma canon_mono (w1 w2 : Z) :
  2 ^ 52 <= Z.abs w1 < 2 ^ 200 ->
  2 ^ 52 <= Z.abs w2 < 2 ^ 200 ->
  w1 <= w2 -> scaled (canon w1) <= scaled (canon w2).
Proof.
  intros H1 H2 Hle. rewrite !scaled_canon by assumption.
  assert (Hpos : forall w, 2 ^ 52 <= Z.abs w ->
            0 < rne_pos (Z.to_pos (Z.abs w)) /\ 53 <= dig (Z.to_pos (Z.abs w))).
  { intros w Hw.
    assert (Hd : 53 <= dig (Z.to_pos (Z.abs w))).
    { pose proof (dig_ge (Z.to_pos (Z.abs w)) 52) as H.
      rewrite Z2Pos.id in H by lia. lia. }
    split; [|exact Hd].
    pose proof (rne_pos_bounds _ Hd) as [Hl _].
    assert (0 < 2 ^ (dig (Z.to_pos (Z.abs w)) - 1)) by (apply Z.pow_pos_nonneg; lia).
    lia. }
  destruct (Hpos w1 ltac:(lia)) as [Hp1 Hd1].
  destruct (Hpos w2 ltac:(lia)) as [Hp2 Hd2].
  destruct (Z.sgn_spec w1) as [[Hs1 ->]|[[Hs1 ->]|[Hs1 ->]]];
    destruct (Z.sgn_spec w2) as [[Hs2 ->]|[[Hs2 ->]|[Hs2 ->]]]; try lia.
  - assert (rne_pos (Z.to_pos (Z.abs w1)) <= rne_pos (Z.to_pos (Z.abs w2))).
    { apply rne_pos_mono; [assumption|]. rewrite !Z2Pos.id by lia. lia. }
    lia.
  - assert (rne_pos (Z.to_pos (Z.abs w2)) <= rne_pos (Z.to_pos (Z.abs w1))).
    { apply rne_pos_mono; [assumption|]. rewrite !Z2Pos.id by lia. lia. }
    lia.
Qed.
End Rounding.

(** ** The notebook's run in binary64 *)

Section Binary64Run.
Implicit Types (f : list (Query Binary64.float) -> Query Binary64.float
                    -> Binary64.float).

(** In the notebook's run every step is a power of two that binary64
    holds exactly: round [n] is made with the step [2^(31-n)], whatever the
    oracle answers. *)
Lemma binary64_steps (n : nat) f :
  (n <= 64)%nat ->
  step_size (state_after (exn:=unit) n Notebook.eps Notebook.t f
               (init Notebook.LOWER_BOUND Notebook.UPPER_BOUND)) =
  S754_finite false (2 ^ 52) (- 21 - Z.of_nat n).
Proof.
  intros Hn. unfold state_after. rewrite rounds_answering_step.
  do 65 (destruct n as [|n]; [vm_compute; reflexivity|]). lia.
Qed.

(** (X14) In the notebook's binary64 run the step of every round, through
    the 64th, is exactly the step [(upper-lower)/4 / 2^n] of the exact run:
    halving never rounds. *)
Lemma binary64_steps_value (n : nat) f :
  (n <= 64)%nat ->
  exists q : Q,
    Binary64.value
      (step_size (state_after (exn:=unit) n Notebook.eps Notebook.t f
                    (init Notebook.LOWER_BOUND Notebook.UPPER_BOUND)))
    = Some q /\
    (q == inject_Z (Notebook.UPPER_BOUND - Notebook.LOWER_BOUND) / 4
          / 2 ^ Z.of_nat n)%Q.
Proof.
  intros Hn. rewrite binary64_steps by assumption.
  exists (inject_Z (2 ^ 52) * 2 ^ (- 21 - Z.of_nat n))%Q.
  split; [reflexivity|].
  rewrite Qpower_minus by discriminate.
  assert (H : (inject_Z (2 ^ 52) * 2 ^ (- 21) ==
               inject_Z (Notebook.UPPER_BOUND - Notebook.LOWER_BOUND) / 4)%Q)
    by reflexivity.
  rewrite <- H. unfold Qdiv. apply Qmult_assoc.
Qed.

(** When every answer is above the threshold the estimate climbs by
    [2^31 + 2^30 + ...]: after 53 rounds it is [2^32 - 2^-21], which fills the
    53 bits of a binary64 significand; the 54th sum [2^32 - 2^-22] lies
    halfway between that number and [2^32] and is rounded to the even one,
    [2^32]; the later steps are too small to move it. *)
Lemma binary64_all_above :
  let r := Notebook.run (scripted (fun _ => Binary64.of_int 1)) in
  estimate (EstimateMax Notebook.LOWER_BOUND Notebook.UPPER_BOUND 53
              Notebook.eps Notebook.t
              (scripted (exn:=unit) (fun _ => Binary64.of_int 1))) =
    S754_finite false (2 ^ 53 - 1) (- 21) /\
  estimate r = Binary64.of_int Notebook.UPPER_BOUND /\
  snd r = Completed /\ calls r = 64%nat.
Proof. vm_compute. repeat split. Qed.

Lemma binary64_all_below :
  let r := Notebook.run (scripted (fun _ => Binary64.of_int 0)) in
  estimate r = Binary64.of_int Notebook.LOWER_BOUND /\
  snd r = Completed /\ calls r = 64%nat.
Proof. vm_compute. repeat split. Qed.

(** The recorded session, without noise: the estimate ends on the maximum
    itself. *)
Lemma binary64_noiseless_scenario :
  let r := Notebook.run (noiseless (Binary64.of_int Notebook.true_max)) in
  estimate r = Binary64.of_int Notebook.true_max /\
  snd r = Completed /\ calls r = 64%nat.
Proof. vm_compute. repeat split. Qed.
End Binary64Run.

(** ** Every run of the notebook in binary64

    The steps of the notebook's run are powers of two, so through round 53
    every sum and difference fits 53 bits and nothing is rounded.  From round
    54 on sums are rounded, and the estimate can only be shown to stay within
    [2^32] in magnitude: [within] is the invariant that carries both facts
    through the 64 rounds. *)

Section Binary64Invariant.
Local Open Scope Z_scope.

(** The steps, in units of [2^-84]. *)
Lemma scaled_step64 (n : nat) :
  (n <= 63)%nat -> scaled (step64 n) = step_scaled n.
Proof.
  intros Hn. unfold step64, step_scaled. cbn [scaled cond_Zopp].
  change (Z.pos (2 ^ 52)) with (2 ^ 52).
  rewrite <- Z.pow_add_r by lia. f_equal. lia.
Qed.

Lemma step_scaled_succ (n : nat) :
  (n <= 64)%nat -> step_scaled n = 2 * step_scaled (S n).
Proof.
  intros Hn. unfold step_scaled. rewrite Nat2Z.inj_succ. unfold Z.succ.
  replace (115 - Z.of_nat n) with (1 + (115 - (Z.of_nat n + 1))) by lia.
  now rewrite Z.pow_add_r by lia.
Qed.

Lemma step_scaled_bounds (n : nat) :
  (n <= 63)%nat -> 2 ^ 52 <= step_scaled n <= 2 ^ 115.
Proof.
  intros Hn. unfold step_scaled. split; apply Z.pow_le_mono_r; lia.
Qed.

Lemma step_scaled_small (n : nat) :
  (54 <= n <= 64)%nat -> step_scaled n <= 2 ^ 61.
Proof. intros Hn. unfold step_scaled. apply Z.pow_le_mono_r; lia. Qed.

(** Rounding the sum or difference [w] of the estimate and the step. *)
Lemma canon_within (n : nat) (w : Z) :
  (1 <= n <= 63)%nat ->
  step_scaled n <= Z.abs w <= 2 ^ 116 + 2 ^ 62 ->
  ((n <= 52)%nat ->
   Z.abs w <= 2 ^ 116 - step_scaled n /\ w mod step_scaled n = 0) ->
  within (S n) (canon w).
Proof.
  intros Hn Hw Hex. pose proof (step_scaled_bounds n ltac:(lia)) as HS.
  pose proof (step_scaled_succ n ltac:(lia)) as HSS.
  assert (Hmain : forall (s : bool) (p : positive),
             Z.abs w = Z.pos p -> w = cond_Zopp s (Z.pos p) ->
             canon w = binary_round 53 1024 s p (-84) ->
             within (S n) (canon w)).
  { intros s p Hp Hsgn Hc.
    pose proof (dig_bounds p) as [Hlo Hhi].
    assert (Hd53 : 53 <= dig p).
    { destruct (Z_lt_le_dec (dig p) 53) as [Hlt|]; [|assumption].
      assert (2 ^ dig p <= 2 ^ 52) by (apply Z.pow_le_mono_r; lia). lia. }
    assert (Hd117 : dig p <= 117).
    { destruct (Z_lt_le_dec 117 (dig p)) as [Hlt|]; [|assumption].
      assert (2 ^ 117 <= 2 ^ (dig p - 1)) by (apply Z.pow_le_mono_r; lia).
      change (2 ^ 117) with (2 ^ 116 * 2) in *. lia. }
    destruct (canon_spec s p ltac:(lia)) as (m & e & Hbr & He & Hval).
    assert (Hsc : scaled (canon w) = cond_Zopp s (rne_pos p)).
    { rewrite Hc, Hbr. cbn [scaled]. now rewrite Hval. }
    assert (Habs : Z.abs (scaled (canon w)) = rne_pos p).
    { rewrite Hsc. pose proof (rne_pos_bounds p Hd53).
      assert (0 < 2 ^ (dig p - 1)) by (apply Z.pow_pos_nonneg; lia).
      destruct s; cbn [cond_Zopp]; lia. }
    assert (Hge : step_scaled n <= rne_pos p).
    { pose proof (rne_pos_bounds p Hd53) as [Hl _].
      assert (115 - Z.of_nat n < dig p).
      { destruct (Z_lt_le_dec (115 - Z.of_nat n) (dig p)) as [|Hle];
          [assumption|].
        assert (2 ^ dig p <= 2 ^ (115 - Z.of_nat n))
          by (apply Z.pow_le_mono_r; lia).
        unfold step_scaled in *. lia. }
      assert (2 ^ (115 - Z.of_nat n) <= 2 ^ (dig p - 1))
        by (apply Z.pow_le_mono_r; lia).
      unfold step_scaled in *. lia. }
    assert (Hle : rne_pos p <= 2 ^ 116).
    { destruct (Z_lt_le_dec (Z.pos p) (2 ^ 116)) as [Hlt|Hge'].
      - pose proof (rne_pos_bounds p Hd53) as [_ Hu].
        assert (dig p <= 116).
        { destruct (Z_lt_le_dec 116 (dig p)) as [Hgt|]; [|assumption].
          assert (2 ^ 116 <= 2 ^ (dig p - 1)) by (apply Z.pow_le_mono_r; lia).
          lia. }
        assert (2 ^ dig p <= 2 ^ 116) by (apply Z.pow_le_mono_r; lia). lia.
      - rewrite rne_pos_top by lia. lia. }
    exists s, m, e. split; [now rewrite Hc|]. split; [lia|].
    rewrite Habs. split; [lia|].
    intros Hn53. destruct Hex as [Hub Hmod]; [lia|].
    assert (Hrep : rne_pos p = Z.pos p).
    { apply rne_pos_exact; [assumption|].
      assert (Hdp : dig p <= 116).
      { destruct (Z_lt_le_dec 116 (dig p)) as [Hgt|]; [|assumption].
        assert (2 ^ 116 <= 2 ^ (dig p - 1)) by (apply Z.pow_le_mono_r; lia).
        assert (0 < step_scaled n) by lia. lia. }
      assert (Hpm : Z.pos p mod step_scaled n = 0).
      { rewrite <- Hp. destruct (Z.abs_eq_or_opp w) as [->| ->]; [assumption|].
        apply Z.mod_opp_l_z; [lia | assumption]. }
      apply Z.mod_divide in Hpm; [|lia]. destruct Hpm as [q Hq].
      apply Z.mod_divide; [pw|].
      exists (q * 2 ^ (115 - Z.of_nat n - (dig p - 53))).
      rewrite Hq. unfold step_scaled.
      rewrite <- Z.mul_assoc, <- Z.pow_add_r by lia.
      f_equal. f_equal. lia. }
    split.
    + rewrite Hrep, <- Hp. lia.
    + rewrite Hsc, Hrep, <- Hsgn, <- HSS. assumption. }
  destruct w as [|p|p].
  - simpl in Hw. lia.
  - apply (Hmain false p); reflexivity.
  - apply (Hmain true p); reflexivity.
Qed.

(** A round keeps the invariant, whichever way it goes. *)
Lemma within_step (n : nat) (c : spec_float) :
  (1 <= n <= 63)%nat -> within n c ->
  within (S n) (Binary64.add c (step64 n)) /\
  within (S n) (Binary64.sub c (step64 n)).
Proof.
  intros Hn (sg & m & e & -> & He & Hv & Hex).
  pose proof (scaled_step64 n ltac:(lia)) as Hs.
  pose proof (step_scaled_bounds n ltac:(lia)) as HS.
  set (v := scaled (S754_finite sg m e)) in *.
  assert (Hsmall : (54 <= n)%nat -> step_scaled n <= 2 ^ 61)
    by (intros; apply step_scaled_small; lia).
  unfold Binary64.add, Binary64.sub, Binary64.prec, Binary64.emax, step64.
  rewrite SFadd_canon, SFsub_canon by lia.
  fold (step64 n). fold v. rewrite Hs.
  assert (Hb : forall w : Z, Z.abs (w - v) = step_scaled n ->
            step_scaled n <= Z.abs w <= 2 ^ 116 + 2 ^ 62).
  { intros w Hw. destruct (le_lt_dec n 53) as [H53|H53].
    - destruct Hex as [Hub Hmod]; [lia|]. lia.
    - specialize (Hsmall ltac:(lia)). lia. }
  assert (Hx : forall (w : Z) (j : Z),
            w = v + j * step_scaled n -> Z.abs j = 1 -> (n <= 52)%nat ->
            Z.abs w <= 2 ^ 116 - step_scaled n /\ w mod step_scaled n = 0).
  { intros w j Hw Hj Hn52. destruct Hex as [Hub Hmod]; [lia|]. split; [nia|].
    apply Z.mod_divide in Hmod; [|lia]. destruct Hmod as [q Hq].
    apply Z.mod_divide; [lia|]. exists (2 * q + j). lia. }
  split; (apply canon_within; [lia | apply Hb; lia |]).
  - apply (Hx _ 1); lia.
  - apply (Hx _ (-1)); lia.
Qed.

(** The invariant holds after every round of every run. *)
Lemma binary64_run_within
    (f : list (Query Binary64.float) -> Query Binary64.float -> Binary64.float)
    (n : nat) :
  (n <= 63)%nat ->
  within (S n)
    (current_value (state_after (exn:=unit) (S n) Notebook.eps Notebook.t f
                      (init Notebook.LOWER_BOUND Notebook.UPPER_BOUND))).
Proof.
  induction n as [|n IH]; intros Hn.
  - rewrite state_after_S.
    change (state_after 0 Notebook.eps Notebook.t f
              (init Notebook.LOWER_BOUND Notebook.UPPER_BOUND))
      with (init (V:=Binary64.float) Notebook.LOWER_BOUND Notebook.UPPER_BOUND).
    unfold answered, update. cbn [current_value step_size].
    destruct (gtb _ _).
    + exists false, (2 ^ 52)%positive, (-21).
      vm_compute. repeat split; congruence.
    + exists true, (2 ^ 52)%positive, (-21).
      vm_compute. repeat split; congruence.
  - rewrite state_after_S.
    specialize (IH ltac:(lia)).
    pose proof (binary64_steps (S n) f ltac:(lia)) as Hstep.
    set (sn := state_after (S n) Notebook.eps Notebook.t f
                 (init Notebook.LOWER_BOUND Notebook.UPPER_BOUND)) in *.
    unfold answered, update. cbn [current_value step_size].
    rewrite Hstep. fold (step64 (S n)).
    destruct (within_step (S n) (current_value sn) ltac:(lia) IH)
      as [Hadd Hsub].
    destruct (gtb _ _); assumption.
Qed.

(** A finite float with an exponent in range stands for its scaled value over
    [2^84]. *)
Lemma value_scaled (sg : bool) (m : positive) (e : Z) :
  -84 <= e ->
  exists q : Q,
    Binary64.value (S754_finite sg m e) = Some q /\
    (q * inject_Z (2 ^ 84) == inject_Z (scaled (S754_finite sg m e)))%Q.
Proof.
  intros He.
  exists (inject_Z (cond_Zopp sg (Z.pos m)) * 2 ^ e)%Q.
  split; [reflexivity|].
  assert (Hsc : scaled (S754_finite sg m e)
                = cond_Zopp sg (Z.pos m) * 2 ^ (e + 84)).
  { cbn [scaled]. destruct sg; cbn [cond_Zopp]; lia. }
  rewrite Hsc.
  rewrite inject_Z_mult, (Zpower_Qpower 2 (e + 84)) by lia.
  rewrite Qpower_plus by discriminate.
  rewrite (Zpower_Qpower 2 84) by lia. change (inject_Z 2) with 2%Q.
  generalize (2 ^ e)%Q (2 ^ 84)%Q (inject_Z (cond_Zopp sg (Z.pos m))).
  intros x y z. symmetry. apply Qmult_assoc.
Qed.

(** What the invariant says of the number the estimate stands for. *)
Lemma within_value (n : nat) (c : spec_float) :
  (1 <= n <= 64)%nat -> within n c ->
  exists q : Q,
    Binary64.value c = Some q /\
    (- inject_Z (2 ^ 32) <= q <= inject_Z (2 ^ 32))%Q /\
    ((n <= 53)%nat -> - inject_Z (2 ^ 32) < q < inject_Z (2 ^ 32))%Q.
Proof.
  intros Hn (sg & m & e & -> & He & Hv & Hex).
  destruct (value_scaled sg m e ltac:(lia)) as (q & Hq & HQ).
  exists q. split; [exact Hq|].
  set (v := scaled (S754_finite sg m e)) in *.
  assert (HK : (0 < inject_Z (2 ^ 84))%Q) by reflexivity.
  assert (H116 : (inject_Z (2 ^ 116)
                  == inject_Z (2 ^ 32) * inject_Z (2 ^ 84))%Q) by reflexivity.
  set (K := inject_Z (2 ^ 84)) in *.
  assert (Hle : (- inject_Z (2 ^ 116) <= inject_Z v <= inject_Z (2 ^ 116))%Q).
  { rewrite <- inject_Z_opp, <- !Zle_Qle. lia. }
  split.
  - rewrite <- HQ, H116 in Hle. split.
    + apply (Qmult_le_r _ _ K HK). lra.
    + apply (Qmult_le_r _ _ K HK). lra.
  - intros Hn53. destruct Hex as [Hub _]; [assumption|].
    assert (0 < step_scaled n)
      by (unfold step_scaled; apply Z.pow_pos_nonneg; lia).
    assert (Hlt : (- inject_Z (2 ^ 116) < inject_Z v < inject_Z (2 ^ 116))%Q).
    { rewrite <- inject_Z_opp, <- !Zlt_Qlt. lia. }
    rewrite <- HQ, H116 in Hlt. split.
    + apply (Qmult_lt_r _ _ K HK). lra.
    + apply (Qmult_lt_r _ _ K HK). lra.
Qed.

(** A round of the notebook's run, as arithmetic on scaled values. *)
Lemma step64_round (n : nat) (c : spec_float) :
  (1 <= n <= 63)%nat -> within n c ->
  Binary64.add c (step64 n) = canon (scaled c + step_scaled n) /\
  Binary64.sub c (step64 n) = canon (scaled c - step_scaled n) /\
  2 ^ 52 <= Z.abs (scaled c + step_scaled n) < 2 ^ 200 /\
  2 ^ 52 <= Z.abs (scaled c - step_scaled n) < 2 ^ 200.
Proof.
  intros Hn (sg & m & e & -> & He & Hv & _).
  pose proof (scaled_step64 n ltac:(lia)) as Hs.
  pose proof (step_scaled_bounds n ltac:(lia)) as HS.
  set (v := scaled (S754_finite sg m e)) in *.
  unfold Binary64.add, Binary64.sub, Binary64.prec, Binary64.emax, step64.
  rewrite SFadd_canon, SFsub_canon by lia.
  fold (step64 n). fold v. rewrite Hs.
  assert (2 ^ 117 < 2 ^ 200) by reflexivity.
  change (2 ^ 117) with (2 ^ 116 * 2) in *.
  change (2 ^ 115) with (2 ^ 116 / 2) in *.
  repeat split; lia.
Qed.

(** Two scripted runs, [a] answering above the threshold wherever [b] does. *)
Lemma run64_S (a : nat -> Binary64.float) (n : nat) :
  (n <= 63)%nat ->
  run64 a (S n) =
  if Binary64.gtb (a n) Notebook.t
  then Binary64.add (run64 a n) (step64 n)
  else Binary64.sub (run64 a n) (step64 n).
Proof.
  intros Hn. unfold run64.
  destruct (state_after_round (exn:=unit) n Notebook.eps Notebook.t (script a)
              (init Notebook.LOWER_BOUND Notebook.UPPER_BOUND)) as (Hc & _ & _).
  rewrite Hc. rewrite binary64_steps by lia.
  unfold answer_at, script. rewrite state_after_calls. simpl (length _).
  rewrite Nat.add_0_r. reflexivity.
Qed.

Lemma run64_ordered (a b : nat -> Binary64.float) (n : nat) :
  (n <= 63)%nat ->
  (forall i : nat, (i <= n)%nat ->
     Binary64.gtb (b i) Notebook.t = true ->
     Binary64.gtb (a i) Notebook.t = true) ->
  scaled (run64 b (S n)) <= scaled (run64 a (S n)).
Proof.
  induction n as [|n IH]; intros Hn Hab.
  - rewrite !run64_S by lia. specialize (Hab O ltac:(lia)).
    change (run64 a 0) with (S754_zero false).
    change (run64 b 0) with (S754_zero false).
    destruct (Binary64.gtb (b 0%nat) Notebook.t).
    + rewrite Hab by reflexivity. apply Z.le_refl.
    + destruct (Binary64.gtb (a 0%nat) Notebook.t); vm_compute; discriminate.
  - specialize (IH ltac:(lia) ltac:(intros i Hi; apply Hab; lia)).
    rewrite (run64_S a (S n)), (run64_S b (S n)) by lia.
    pose proof (binary64_run_within (script a) n ltac:(lia)) as Wa.
    pose proof (binary64_run_within (script b) n ltac:(lia)) as Wb.
    fold (run64 a (S n)) in Wa. fold (run64 b (S n)) in Wb.
    destruct (step64_round (S n) _ ltac:(lia) Wa) as (-> & -> & Ba1 & Ba2).
    destruct (step64_round (S n) _ ltac:(lia) Wb) as (-> & -> & Bb1 & Bb2).
    pose proof (step_scaled_bounds (S n) ltac:(lia)) as HS.
    specialize (Hab (S n) ltac:(lia)).
    destruct (Binary64.gtb (b (S n)) Notebook.t).
    + rewrite Hab by reflexivity. apply canon_mono; try assumption. lia.
    + destruct (Binary64.gtb (a (S n)) Notebook.t);
        apply canon_mono; try assumption; lia.
Qed.

Lemma estimate_run64 (c : nat -> Binary64.float) :
  estimate (Notebook.run (scripted c)) = run64 c 64.
Proof.
  unfold estimate, Notebook.run, EstimateMax, run64, state_after, scripted.
  change (Z.to_nat Notebook.k) with 64%nat. reflexivity.
Qed.

Lemma run64_within (a : nat -> Binary64.float) (n : nat) :
  (n <= 63)%nat -> within (S n) (run64 a (S n)).
Proof. intros Hn. apply (binary64_run_within (script a) n Hn). Qed.

(** (X15) In the notebook's binary64 run, raising answers never lowers the
    final estimate: if every answer of [a] is above the threshold where that
    of [b] is, the estimate from [a] is at least the estimate from [b]. *)
Lemma binary64_estimate_monotone (a b : nat -> Binary64.float) :
  (forall i : nat, (i < 64)%nat ->
     Binary64.gtb (b i) Notebook.t = true ->
     Binary64.gtb (a i) Notebook.t = true) ->
  exists qa qb : Q,
    Binary64.value (estimate (Notebook.run (scripted a))) = Some qa /\
    Binary64.value (estimate (Notebook.run (scripted b))) = Some qb /\
    (qb <= qa)%Q.
Proof.
  intros Hab. rewrite (estimate_run64 a), (estimate_run64 b).
  pose proof (run64_ordered a b 63 ltac:(lia)
                ltac:(intros i Hi; apply Hab; lia)) as Hle.
  destruct (run64_within a 63 ltac:(lia)) as (sa & ma & ea & Ha & Hea & _).
  destruct (run64_within b 63 ltac:(lia)) as (sb & mb & eb & Hb & Heb & _).
  rewrite Ha, Hb in Hle. rewrite Ha, Hb.
  destruct (value_scaled sa ma ea ltac:(lia)) as (qa & Hqa & Eqa).
  destruct (value_scaled sb mb eb ltac:(lia)) as (qb & Hqb & Eqb).
  exists qa, qb. split; [exact Hqa | split; [exact Hqb|]].
  assert (HK : (0 < inject_Z (2 ^ 84))%Q) by reflexivity.
  apply (Qmult_le_r _ _ _ HK). rewrite Eqa, Eqb. now rewrite <- Zle_Qle.
Qed.
End Binary64Invariant.

(** In the notebook's binary64 run the estimate after every round is a
    number of the closed interval [[-2^32, 2^32]], whatever the oracle
    answers, and through round 53, while no sum is rounded, of the open
    one. *)
Lemma binary64_estimate_inside
    (f : list (Query Binary64.float) -> Query Binary64.float -> Binary64.float)
    (n : nat) :
  (n <= 64)%nat ->
  exists q : Q,
    Binary64.value
      (current_value (state_after (exn:=unit) n Notebook.eps Notebook.t f
                        (init Notebook.LOWER_BOUND Notebook.UPPER_BOUND)))
    = Some q /\
    (inject_Z Notebook.LOWER_BOUND <= q <= inject_Z Notebook.UPPER_BOUND)%Q /\
    ((n <= 53)%nat ->
     (inject_Z Notebook.LOWER_BOUND < q < inject_Z Notebook.UPPER_BOUND)%Q).
Proof.
  intros Hn. destruct n as [|n].
  - exists 0%Q. split; [reflexivity|]. split; [split; discriminate|].
    intros _. split; reflexivity.
  - apply (within_value (S n)); [lia|].
    apply binary64_run_within. lia.
Qed.

(** (C9, as the cell behaves) Nothing is clamped, and the estimate stays in
    the domain all the same, whatever the oracle answers.  In exact
    arithmetic, from the midpoint of any valid domain with step
    [(upper-lower)/4], it lies strictly between [lower] and [upper] after
    every round.  In the notebook's binary64 run (seed 0 in [[-2^32, 2^32]],
    first step [2^31], 64 rounds) it lies in the closed interval after every
    round, and strictly inside through round 53. *)
Theorem estimate_stays_inside :
  (forall (exn : Type) (lower upper eps t : Q)
          (f : list (Query Q) -> Query Q -> Q) (s : Kernel Q) (n : nat),
     lower < upper ->
     current_value s == (lower + upper) / 2 ->
     step_size s == (upper - lower) / 4 ->
     lower < current_value (state_after (exn:=exn) n eps t f s) < upper)%Q /\
  (forall (f : list (Query Binary64.float) -> Query Binary64.float
               -> Binary64.float) (n : nat),
     (n <= 64)%nat ->
     exists q : Q,
       Binary64.value
         (current_value (state_after (exn:=unit) n Notebook.eps Notebook.t f
                           (init Notebook.LOWER_BOUND Notebook.UPPER_BOUND)))
       = Some q /\
       (inject_Z Notebook.LOWER_BOUND <= q <= inject_Z Notebook.UPPER_BOUND)%Q /\
       ((n <= 53)%nat ->
        (inject_Z Notebook.LOWER_BOUND < q
         < inject_Z Notebook.UPPER_BOUND)%Q)).
Proof.
  split.
  - intros exn. apply (exact_estimate_inside (exn:=exn)).
  - apply binary64_estimate_inside.
Qed.

(** * More about the loop *)

(** ** Any oracle *)

Section AnyOracle.
Context {V : Type} {A : Arith V} {exn : Type}.
Implicit Types (eps t : V) (oracle : Oracle V exn) (s : Kernel V).

Lemma rounds_any_oracle (n : nat) eps t oracle s :
  let r := rounds n eps t oracle s in
  (exists asked : list (Query V),
     ledger (fst r) = asked ++ ledger s /\
     (length asked <= n)%nat /\
     Forall (fun q => epsilon q = eps) asked /\
     (snd r = Completed -> length asked = n)) /\
  (forall e : exn, snd r = Raised e ->
     exists (q : Query V) (h : list (Query V)),
       ledger (fst r) = q :: h /\ oracle h q = Failure e).
Proof.
  revert s; induction n as [|n IH]; intros s; cbv zeta.
  - split; [exists []; repeat split; auto | discriminate].
  - unfold rounds in IH |- *; cbn [for_range].
    set (q := {| threshold := current_value s; epsilon := eps |}).
    set (s' := {| current_value := current_value s;
                  step_size := step_size s;
                  ledger := q :: ledger s |}).
    assert (Hb : body eps t oracle s =
                 match oracle (ledger s) q with
                 | Answer result => (update t result s', Completed)
                 | Failure e => (s', Raised e)
                 end) by reflexivity.
    rewrite Hb; clear Hb.
    destruct (oracle (ledger s) q) as [result|e] eqn:E.
    + destruct (IH (update t result s'))
        as [(asked & Hl & Hn & Hall & Hc) Hr].
      split; [|exact Hr].
      exists (asked ++ [q]). cbn [update ledger] in Hl.
      rewrite Hl, <- app_assoc, length_app. cbn [length app].
      repeat split; [lia | | intros H; rewrite Hc by exact H; lia].
      apply Forall_app; split; [exact Hall | repeat constructor].
    + cbn [fst snd ledger]. split.
      * exists [q]. repeat split; [simpl; lia | repeat constructor |].
        discriminate.
      * intros e' He'. injection He' as <-. now exists q, (ledger s).
Qed.

(** (X8) Whatever the oracle does, answer or raise, and at whichever
    invocation: a run invokes it at most [k] times, each time with the
    cell's [eps]; it invokes it exactly [k] times when it completes; and when
    it ends with an exception, that exception is what the oracle raised at
    the last invocation recorded. *)
Theorem EstimateMax_any_oracle (LOWER_BOUND UPPER_BOUND k : Z) eps t oracle :
  let r := EstimateMax LOWER_BOUND UPPER_BOUND k eps t oracle in
  (calls r <= Z.to_nat k)%nat /\
  Forall (fun q => epsilon q = eps) (ledger (fst r)) /\
  (snd r = Completed -> calls r = Z.to_nat k) /\
  (forall e : exn, snd r = Raised e ->
     exists (q : Query V) (h : list (Query V)),
       ledger (fst r) = q :: h /\ oracle h q = Failure e).
Proof.
  cbv zeta. unfold EstimateMax, calls.
  destruct (rounds_any_oracle (Z.to_nat k) eps t oracle
              (init LOWER_BOUND UPPER_BOUND))
    as [(asked & Hl & Hn & Hall & Hc) Hr].
  cbn [init ledger] in Hl. rewrite app_nil_r in Hl. rewrite Hl in Hr |- *.
  split; [exact Hn | split; [exact Hall | split; [exact Hc | exact Hr]]].
Qed.

(** (X9) Against an oracle that answers, the ledger of a run lists, latest
    first, one query per round, made at the estimate that round started
    with: the oracle is asked about the current estimate and nothing else. *)
Theorem ledger_lists_estimates (n : nat) eps t
    (f : list (Query V) -> Query V -> V) s :
  ledger (state_after (exn:=exn) n eps t f s) =
  map (fun i : nat =>
         {| threshold := current_value (state_after (exn:=exn) i eps t f s);
            epsilon := eps |})
      (rev (seq 0 n))
  ++ ledger s.
Proof.
  induction n as [|n IH]; [reflexivity|].
  destruct (state_after_round (exn:=exn) n eps t f s) as (_ & _ & Hl).
  rewrite Hl, IH, seq_S, rev_app_distr. reflexivity.
Qed.
End AnyOracle.

(** ** Binary64 and exact arithmetic agree through round 53 *)

Section Binary64Exact.
Local Open Scope Z_scope.

(** A multiple of the step that fits below [2^32] is a binary64 number. *)
Lemma canon_exact (n : nat) (w : Z) :
  (n <= 52)%nat ->
  step_scaled n <= Z.abs w < 2 ^ 116 ->
  w mod step_scaled n = 0 ->
  scaled (canon w) = w.
Proof.
  intros Hn Hw Hmod.
  assert (HS : 2 ^ 63 <= step_scaled n)
    by (unfold step_scaled; apply Z.pow_le_mono_r; lia).
  assert (H63 : 2 ^ 52 < 2 ^ 63) by reflexivity.
  assert (H200 : 2 ^ 116 < 2 ^ 200) by reflexivity.
  rewrite scaled_canon by lia.
  set (p := Z.to_pos (Z.abs w)).
  assert (Hp : Z.pos p = Z.abs w) by (subst p; rewrite Z2Pos.id; lia).
  assert (Hd1 : dig p <= 116) by (apply dig_le; lia).
  assert (Hd2 : 63 < dig p) by (apply dig_ge; lia).
  rewrite rne_pos_exact; [rewrite Hp; lia | lia |].
  assert (Hpm : Z.pos p mod step_scaled n = 0).
  { rewrite Hp. destruct (Z.abs_eq_or_opp w) as [->| ->]; [assumption|].
    apply Z.mod_opp_l_z; [lia | assumption]. }
  apply Z.mod_divide in Hpm; [|lia]. destruct Hpm as [q Hq].
  apply Z.mod_divide; [pw|].
  exists (q * 2 ^ (115 - Z.of_nat n - (dig p - 53))).
  rewrite Hq. unfold step_scaled.
  rewrite <- Z.mul_assoc, <- Z.pow_add_r by lia.
  f_equal. f_equal. lia.
Qed.

(** One round on the scaled value, while nothing is rounded. *)
Lemma run64_scaled_S (a : nat -> Binary64.float) (n : nat) :
  (n <= 52)%nat ->
  scaled (run64 a (S n)) =
  if Binary64.gtb (a n) Notebook.t
  then scaled (run64 a n) + step_scaled n
  else scaled (run64 a n) - step_scaled n.
Proof.
  intros Hn. rewrite run64_S by lia.
  destruct n as [|n].
  - change (run64 a 0) with (S754_zero false).
    destruct (Binary64.gtb (a 0%nat) Notebook.t); vm_compute; reflexivity.
  - pose proof (run64_within a n ltac:(lia)) as W.
    destruct (step64_round (S n) _ ltac:(lia) W) as (-> & -> & _ & _).
    destruct W as (sg & m & e & Hc & He & Hv & Hex).
    destruct Hex as [Hub Hmod]; [lia|].
    pose proof (step_scaled_bounds (S n) ltac:(lia)) as HS.
    set (v := scaled (run64 a (S n))) in *.
    set (st := step_scaled (S n)) in *.
    apply Z.mod_divide in Hmod; [|lia]. destruct Hmod as [q Hq].
    assert (Hm : forall j : Z, Z.abs j = 1 ->
              st <= Z.abs (v + j * st) < 2 ^ 116 /\ (v + j * st) mod st = 0).
    { intros j Hj. split; [nia|].
      apply Z.mod_divide; [lia|]. exists (2 * q + j). lia. }
    destruct (Binary64.gtb (a (S n)) Notebook.t).
    + destruct (Hm 1 ltac:(lia)) as [B M].
      replace (v + 1 * st) with (v + st) in * by lia.
      now apply (canon_exact (S n)).
    + destruct (Hm (-1) ltac:(lia)) as [B M].
      replace (v + -1 * st) with (v - st) in * by lia.
      now apply (canon_exact (S n)).
Qed.

Lemma step_scaled_Q (n : nat) (x : Q) :
  (n <= 115)%nat ->
  (x == inject_Z (Notebook.UPPER_BOUND - Notebook.LOWER_BOUND) / 4
        / 2 ^ Z.of_nat n ->
   x * inject_Z (2 ^ 84) == inject_Z (step_scaled n))%Q.
Proof.
  intros Hn Hx.
  assert (Hpow : (inject_Z (step_scaled n) * 2 ^ Z.of_nat n
                  == inject_Z (2 ^ 115))%Q).
  { unfold step_scaled.
    rewrite <- (Zpower_Qpower 2 (Z.of_nat n)) by lia.
    rewrite <- inject_Z_mult, <- Z.pow_add_r by lia.
    now replace (115 - Z.of_nat n + Z.of_nat n) with 115 by lia. }
  assert (H0 : (inject_Z (Notebook.UPPER_BOUND - Notebook.LOWER_BOUND) / 4
                * inject_Z (2 ^ 84) == inject_Z (2 ^ 115))%Q) by reflexivity.
  rewrite Hx. rewrite <- H0 in Hpow.
  pose proof (pow2_pos (Z.of_nat n)) as Hp.
  revert Hpow Hp.
  generalize (2 ^ Z.of_nat n)%Q (inject_Z (step_scaled n))
    (inject_Z (Notebook.UPPER_BOUND - Notebook.LOWER_BOUND) / 4)%Q
    (inject_Z (2 ^ 84)).
  intros P S0 B K Hpow Hp.
  assert (HP : ~ (P == 0)%Q)
    by (intros H; rewrite H in Hp; now apply Qlt_irrefl in Hp).
  apply (Qmult_inj_r _ _ P HP). rewrite Hpow. now field.
Qed.

Lemma run64_exact (a : nat -> Binary64.float) (b : nat -> Q) (n : nat) :
  (n <= 53)%nat ->
  (forall i : nat, (i < n)%nat ->
     Binary64.gtb (a i) Notebook.t = gtb (b i) Notebook.t) ->
  (current_value (state_after (exn:=unit) n Notebook.eps Notebook.t (script b)
                    (init Notebook.LOWER_BOUND Notebook.UPPER_BOUND))
   * inject_Z (2 ^ 84) == inject_Z (scaled (run64 a n)))%Q.
Proof.
  induction n as [|n IH]; intros Hn Hab.
  - reflexivity.
  - specialize (IH ltac:(lia) ltac:(intros i Hi; apply Hab; lia)).
    rewrite run64_scaled_S by lia.
    destruct (state_after_round (exn:=unit) n Notebook.eps Notebook.t
                (script b) (init Notebook.LOWER_BOUND Notebook.UPPER_BOUND))
      as (Hc & _ & _).
    rewrite Hc; clear Hc.
    pose proof (step_after_Q (exn:=unit) n Notebook.eps Notebook.t (script b)
                  (init Notebook.LOWER_BOUND Notebook.UPPER_BOUND)) as Hst.
    rewrite init_step_Q in Hst.
    apply (step_scaled_Q n _ ltac:(lia)) in Hst.
    unfold answer_at at 1, script at 1. rewrite state_after_calls.
    cbn [init ledger length]. rewrite Nat.add_0_r.
    rewrite (Hab n ltac:(lia)).
    set (sn := state_after n Notebook.eps Notebook.t (script b)
                 (init Notebook.LOWER_BOUND Notebook.UPPER_BOUND)) in *.
    destruct (gtb (b n) Notebook.t).
    + rewrite inject_Z_plus, <- IH, <- Hst.
      change (add (current_value sn) (step_size sn))
        with (current_value sn + step_size sn)%Q. ring.
    + unfold Z.sub. rewrite inject_Z_plus, inject_Z_opp, <- IH, <- Hst.
      change (sub (current_value sn) (step_size sn))
        with (current_value sn - step_size sn)%Q. ring.
Qed.

(** (X16) Through round 53 the notebook's binary64 run rounds nothing: after
    [n <= 53] rounds its estimate is exactly the estimate of the run in
    exact arithmetic that makes the same comparisons. *)
Theorem binary64_exact_through_round_53
    (a : nat -> Binary64.float) (b : nat -> Q) (n : nat) :
  (n <= 53)%nat ->
  (forall i : nat, (i < n)%nat ->
     Binary64.gtb (a i) Notebook.t = gtb (b i) Notebook.t) ->
  exists q : Q,
    Binary64.value
      (current_value (state_after (exn:=unit) n Notebook.eps Notebook.t
                        (script a)
                        (init Notebook.LOWER_BOUND Notebook.UPPER_BOUND)))
    = Some q /\
    (q == current_value (state_after (exn:=unit) n Notebook.eps Notebook.t
                           (script b)
                           (init Notebook.LOWER_BOUND Notebook.UPPER_BOUND)))%Q.
Proof.
  intros Hn Hab. pose proof (run64_exact a b n Hn Hab) as E.
  fold (run64 a n).
  destruct n as [|n].
  - exists 0%Q. split; reflexivity.
  - destruct (run64_within a n ltac:(lia)) as (sg & m & e & Hc & He & _).
    rewrite Hc in *.
    destruct (value_scaled sg m e ltac:(lia)) as (q & Hq & HQ).
    exists q. split; [exact Hq|].
    assert (HK : (0 < inject_Z (2 ^ 84))%Q) by reflexivity.
    apply (Qmult_inj_r _ _ (inject_Z (2 ^ 84))).
    + intros H. rewrite H in HK. now apply Qlt_irrefl in HK.
    + now rewrite HQ, E.
Qed.
End Binary64Exact.

(** ** Rounds 54 to 64: how far rounding can take the estimate *)

Section Binary64Error.
Local Open Scope Z_scope.

(** Rounding to 53 bits moves a number by at most half a unit in the last
    place kept. *)
Lemma rne_pos_error (p : positive) :
  53 <= dig p -> 2 * Z.abs (rne_pos p - Z.pos p) <= 2 ^ (dig p - 53).
Proof.
  intros Hd. unfold rne_pos, rnd_mant.
  set (d := dig p) in *. set (u := 2 ^ (d - 53)).
  assert (Hu : 0 < u) by (apply Z.pow_pos_nonneg; lia).
  assert (Ed : 2 ^ d = u * 2 ^ 53)
    by (subst u; rewrite <- Z.pow_add_r by lia; f_equal; lia).
  assert (Ed1 : 2 ^ (d + 1) = 2 ^ d * 2)
    by (rewrite Z.pow_add_r by lia; reflexivity).
  assert (Ex : Z.pos p * 2 ^ 54 = (2 * Z.pos p) * 2 ^ 53)
    by (change (2 ^ 54) with (2 * 2 ^ 53); ring).
  rewrite Ed1, <- Z.div_div by lia.
  rewrite Ex, Ed, Z.div_mul_cancel_r, Z.mul_mod_distr_r by lia.
  pose proof (Z.div_mod (2 * Z.pos p) u ltac:(lia)) as E1.
  pose proof (Z.mod_pos_bound (2 * Z.pos p) u Hu) as B1.
  set (A := 2 * Z.pos p / u) in *. set (r := (2 * Z.pos p) mod u) in *.
  pose proof (Zdiv2_odd_eqn A) as O1. rewrite Z.div2_div in O1.
  set (M := A / 2) in *.
  destruct (Z.eqb_spec (r * 2 ^ 53) 0) as [Hr|Hr]; cbn [negb];
    destruct (Z.odd A); destruct (Z.even M); nia.
Qed.

(** Rounding a sum of the notebook's run moves it by at most [2^-22]. *)
Lemma canon_error (w : Z) :
  2 ^ 52 <= Z.abs w <= 2 ^ 116 + 2 ^ 62 ->
  Z.abs (scaled (canon w) - w) <= 2 ^ 62.
Proof.
  intros Hw.
  assert (H200 : 2 ^ 116 + 2 ^ 62 < 2 ^ 200) by reflexivity.
  rewrite scaled_canon by lia.
  set (p := Z.to_pos (Z.abs w)).
  assert (Hp : Z.pos p = Z.abs w) by (subst p; rewrite Z2Pos.id; lia).
  assert (Hd : 52 < dig p) by (apply dig_ge; lia).
  assert (He : Z.abs (rne_pos p - Z.pos p) <= 2 ^ 62).
  { destruct (Z_lt_le_dec (Z.pos p) (2 ^ 116)) as [Hlt|Hge].
    - pose proof (rne_pos_error p ltac:(lia)) as H.
      assert (Hd2 : dig p <= 116) by (apply dig_le; lia).
      assert (2 ^ (dig p - 53) <= 2 ^ 63) by (apply Z.pow_le_mono_r; lia).
      change (2 ^ 63) with (2 * 2 ^ 62) in *. lia.
    - rewrite rne_pos_top by lia. lia. }
  destruct w as [|q|q]; cbn [Z.sgn] in *; lia.
Qed.

(** The exact run, in units of [2^-84], is a whole number at most
    [(n - 53) * 2^62] away from the binary64 run. *)
Lemma run64_error (a : nat -> Binary64.float) (b : nat -> Q) (n : nat) :
  (n <= 64)%nat ->
  (forall i : nat, (i < n)%nat ->
     Binary64.gtb (a i) Notebook.t = gtb (b i) Notebook.t) ->
  exists e : Z,
    Z.abs e <= Z.of_nat (n - 53) * 2 ^ 62 /\
    (current_value (state_after (exn:=unit) n Notebook.eps Notebook.t
                      (script b)
                      (init Notebook.LOWER_BOUND Notebook.UPPER_BOUND))
     * inject_Z (2 ^ 84) == inject_Z (scaled (run64 a n) - e))%Q.
Proof.
  induction n as [|n IH]; intros Hn Hab.
  - exists 0. split; [simpl; lia | reflexivity].
  - destruct (le_lt_dec (S n) 53) as [H53|H53].
    + exists 0. replace (S n - 53)%nat with O by lia.
      split; [simpl; lia|]. rewrite Z.sub_0_r.
      now apply run64_exact.
    + destruct (IH ltac:(lia) ltac:(intros i Hi; apply Hab; lia))
        as (e & He & HE).
      rewrite run64_S by lia.
      destruct n as [|n]; [lia|].
      pose proof (run64_within a n ltac:(lia)) as W.
      destruct (step64_round (S n) _ ltac:(lia) W) as (-> & -> & B1 & B2).
      destruct W as (sg & m & e0 & Hc & He0 & Hv & _).
      pose proof (step_scaled_bounds (S n) ltac:(lia)) as HS.
      assert (Hsmall : step_scaled (S n) <= 2 ^ 62)
        by (unfold step_scaled; apply Z.pow_le_mono_r; lia).
      destruct (state_after_round (exn:=unit) (S n) Notebook.eps Notebook.t
                  (script b) (init Notebook.LOWER_BOUND Notebook.UPPER_BOUND))
        as (Hcv & _ & _).
      rewrite Hcv; clear Hcv.
      pose proof (step_after_Q (exn:=unit) (S n) Notebook.eps Notebook.t
                    (script b)
                    (init Notebook.LOWER_BOUND Notebook.UPPER_BOUND)) as Hst.
      rewrite init_step_Q in Hst.
      apply (step_scaled_Q (S n) _ ltac:(lia)) in Hst.
      unfold answer_at at 1, script at 1. rewrite state_after_calls.
      cbn [init ledger length]. rewrite Nat.add_0_r.
      rewrite (Hab (S n) ltac:(lia)).
      set (sn := state_after (S n) Notebook.eps Notebook.t (script b)
                   (init Notebook.LOWER_BOUND Notebook.UPPER_BOUND)) in *.
      set (v := scaled (run64 a (S n))) in *.
      set (st := step_scaled (S n)) in *.
      replace (Z.of_nat (S (S n) - 53)) with (Z.of_nat (S n - 53) + 1) by lia.
      destruct (gtb (b (S n)) Notebook.t).
      * pose proof (canon_error (v + st) ltac:(lia)) as R.
        exists (e + (scaled (canon (v + st)) - (v + st))).
        split; [lia|].
        replace (scaled (canon (v + st))
                 - (e + (scaled (canon (v + st)) - (v + st))))
          with ((v - e) + st) by lia.
        rewrite inject_Z_plus, <- HE, <- Hst.
        change (add (current_value sn) (step_size sn))
          with (current_value sn + step_size sn)%Q. ring.
      * pose proof (canon_error (v - st) ltac:(lia)) as R.
        exists (e + (scaled (canon (v - st)) - (v - st))).
        split; [lia|].
        replace (scaled (canon (v - st))
                 - (e + (scaled (canon (v - st)) - (v - st))))
          with ((v - e) + - st) by lia.
        rewrite inject_Z_plus, inject_Z_opp, <- HE, <- Hst.
        change (sub (current_value sn) (step_size sn))
          with (current_value sn - step_size sn)%Q. ring.
Qed.

(** (X17) Over its 64 rounds the notebook's binary64 run stays close to the
    run in exact arithmetic that makes the same comparisons: after [n]
    rounds the two estimates differ by at most [(n - 53) * 2^-22], that is
    by nothing through round 53 and by at most [11 * 2^-22] at the end. *)
Theorem binary64_close_to_exact
    (a : nat -> Binary64.float) (b : nat -> Q) (n : nat) :
  (n <= 64)%nat ->
  (forall i : nat, (i < n)%nat ->
     Binary64.gtb (a i) Notebook.t = gtb (b i) Notebook.t) ->
  exists q : Q,
    Binary64.value
      (current_value (state_after (exn:=unit) n Notebook.eps Notebook.t
                        (script a)
                        (init Notebook.LOWER_BOUND Notebook.UPPER_BOUND)))
    = Some q /\
    (Qabs (q - current_value
                 (state_after (exn:=unit) n Notebook.eps Notebook.t (script b)
                    (init Notebook.LOWER_BOUND Notebook.UPPER_BOUND)))
     <= inject_Z (Z.of_nat (n - 53)) / inject_Z (2 ^ 22))%Q.
Proof.
  intros Hn Hab.
  destruct (run64_error a b n Hn Hab) as (e & He & HE).
  fold (run64 a n).
  set (x := current_value
              (state_after (exn:=unit) n Notebook.eps Notebook.t (script b)
                 (init Notebook.LOWER_BOUND Notebook.UPPER_BOUND))) in *.
  assert (HK : (0 < inject_Z (2 ^ 84))%Q) by reflexivity.
  assert (H22 : (0 < inject_Z (2 ^ 22))%Q) by reflexivity.
  assert (Hq : exists q : Q,
             Binary64.value (run64 a n) = Some q /\
             (q * inject_Z (2 ^ 84) == inject_Z (scaled (run64 a n)))%Q).
  { destruct n as [|n].
    - exists 0%Q. split; reflexivity.
    - destruct (run64_within a n ltac:(lia)) as (sg & m & e0 & Hc & He0 & _).
      rewrite Hc. apply value_scaled. lia. }
  destruct Hq as (q & Hq & HQ).
  exists q. split; [exact Hq|].
  assert (Hd : ((q - x) * inject_Z (2 ^ 84) == inject_Z e)%Q).
  { unfold Z.sub in HE. rewrite inject_Z_plus, inject_Z_opp in HE.
    rewrite <- HQ in HE.
    assert (Hr : ((q - x) * inject_Z (2 ^ 84)
                  == q * inject_Z (2 ^ 84) - x * inject_Z (2 ^ 84))%Q) by ring.
    rewrite Hr, HE. ring. }
  assert (Hb : (- (inject_Z (Z.of_nat (n - 53)) * inject_Z (2 ^ 62))
                <= inject_Z e
                <= inject_Z (Z.of_nat (n - 53)) * inject_Z (2 ^ 62))%Q).
  { rewrite <- inject_Z_mult, <- inject_Z_opp, <- !Zle_Qle. lia. }
  assert (H84 : (inject_Z (2 ^ 84) == inject_Z (2 ^ 62) * inject_Z (2 ^ 22))%Q)
    by reflexivity.
  assert (H62 : (0 < inject_Z (2 ^ 62))%Q) by reflexivity.
  rewrite <- Hd in Hb.
  apply Qabs_Qle_condition.
  set (N := inject_Z (Z.of_nat (n - 53))) in *.
  assert (HN : (N / inject_Z (2 ^ 22) * inject_Z (2 ^ 84)
                == N * inject_Z (2 ^ 62))%Q).
  { rewrite H84. field. intros H; rewrite H in H22.
    now apply Qlt_irrefl in H22. }
  split.
  - apply (Qmult_le_r _ _ _ HK).
    assert (Hl : (- (N / inject_Z (2 ^ 22)) * inject_Z (2 ^ 84)
                  == - (N / inject_Z (2 ^ 22) * inject_Z (2 ^ 84)))%Q) by ring.
    rewrite Hl, HN. apply Hb.
  - apply (Qmult_le_r _ _ _ HK). rewrite HN. apply Hb.
Qed.
End Binary64Error.

(** * The cell in binary64

    What follows is proved of the cell's own arithmetic.  Where the steps
    are concerned, or the order of two estimates, it holds for every domain:
    halving a float is exact, and rounding keeps the order.  Where the value
    of the estimate is concerned it holds for the notebook's domain and its
    64 rounds, the sums of which are rounded from round 54 on. *)

(** ** Turning an int into a float *)

Section Conversion.
Local Open Scope Z_scope.

(** [binary_round] where the exponent may be too large for a float. *)
Lemma binary_round_cases (s : bool) (m : positive) (e : Z) :
  -1074 <= dig m + e - 53 ->
  binary_round 53 1024 s m e =
  if rnd_mant m <? 2 ^ 53
  then if dig m + e - 53 <=? 971
       then S754_finite s (Z.to_pos (rnd_mant m)) (dig m + e - 53)
       else S754_infinity s
  else if dig m + e - 53 + 1 <=? 971
       then S754_finite s (Z.to_pos (2 ^ 52)) (dig m + e - 53 + 1)
       else S754_infinity s.
Proof.
  intros Hn. rewrite binary_round_finish, first_shr_spec by lia.
  unfold first_spec, finish.
  pose proof (rnd_mant_bounds m) as Hb.
  assert (Hr : round_nearest_even
                 (shr_m {| shr_m := Z.pos m * 2 ^ 54 / 2 ^ (dig m + 1);
                           shr_r := Z.odd (Z.pos m * 2 ^ 54 / 2 ^ dig m);
                           shr_s := negb (Z.pos m * 2 ^ 54 mod 2 ^ dig m =? 0) |})
                 (loc_of_shr_record
                    {| shr_m := Z.pos m * 2 ^ 54 / 2 ^ (dig m + 1);
                       shr_r := Z.odd (Z.pos m * 2 ^ 54 / 2 ^ dig m);
                       shr_s := negb (Z.pos m * 2 ^ 54 mod 2 ^ dig m =? 0) |})
               = rnd_mant m).
  { unfold rnd_mant. cbn [shr_m loc_of_shr_record].
    destruct (Z.odd (Z.pos m * 2 ^ 54 / 2 ^ dig m));
      destruct (negb (Z.pos m * 2 ^ 54 mod 2 ^ dig m =? 0)); reflexivity. }
  rewrite Hr. set (e' := dig m + e - 53) in *.
  destruct (rnd_mant m) as [|q|q] eqn:Hq; try lia.
  unfold shr_fexp, shr, fexp, emin. cbn [Zdigits2 shr_record_of_loc]. fold (dig q).
  destruct (Z.ltb_spec (Z.pos q) (2 ^ 53)) as [Hlt|Hge].
  - assert (Hdq : dig q = 53) by (apply dig_unique; simpl (53 - 1); lia).
    rewrite Hdq.
    replace (Z.max (53 + e' - 53) (3 - 1024 - 53) - e') with 0 by lia.
    cbn [shr_m]. change (1024 - 53) with 971. now rewrite Pos2Z.id.
  - assert (Hq53 : Z.pos q = 2 ^ 53) by lia.
    assert (Hdq : dig q = 54).
    { apply dig_unique. rewrite Hq53. simpl (54 - 1). split; [lia|].
      apply Z.pow_lt_mono_r; lia. }
    rewrite Hdq.
    replace (Z.max (54 + e' - 53) (3 - 1024 - 53) - e') with 1 by lia.
    cbn [iter_pos]. rewrite shr_1_nonneg by lia. cbn [shr_m].
    rewrite Hq53. change (2 ^ 53 / 2) with (Z.pos (Z.to_pos (2 ^ 52))).
    cbv iota beta. reflexivity.
Qed.

Lemma of_int_pos (p : positive) :
  Binary64.of_int (Z.pos p) = binary_round 53 1024 false p 0.
Proof. reflexivity. Qed.

Lemma of_int_neg (p : positive) :
  Binary64.of_int (Z.neg p) = binary_round 53 1024 true p 0.
Proof. reflexivity. Qed.

Lemma converts_small (z : Z) : Z.abs z < 2 ^ 1023 -> Binary64.converts z = true.
Proof.
  intros Hz. unfold Binary64.converts.
  destruct z as [|p|p]; [reflexivity| |];
    [rewrite of_int_pos | rewrite of_int_neg];
    (pose proof (dig_pos p); pose proof (dig_le p 1023 ltac:(simpl in Hz; lia));
     rewrite binary_round_spec by lia;
     destruct (rnd_mant p <? 2 ^ 53); reflexivity).
Qed.

Lemma converts_large (z : Z) : 2 ^ 1024 <= Z.abs z -> Binary64.converts z = false.
Proof.
  intros Hz. unfold Binary64.converts.
  destruct z as [|p|p]; [simpl in Hz; lia| |];
    [rewrite of_int_pos | rewrite of_int_neg];
    (pose proof (dig_ge p 1024 ltac:(simpl in Hz; lia));
     rewrite binary_round_cases by lia;
     destruct (rnd_mant p <? 2 ^ 53);
     [destruct (Z.leb_spec (dig p + 0 - 53) 971)
     |destruct (Z.leb_spec (dig p + 0 - 53 + 1) 971)]; try lia; reflexivity).
Qed.

(** An int is turned into a float as long as it rounds to one: the largest
    float is [2^1024 - 2^971], and the ints from [2^1024 - 2^970] on round to
    [2^1024]. *)
Lemma converts_iff (z : Z) :
  Binary64.converts z = true <-> Z.abs z < 2 ^ 1024 - 2 ^ 970.
Proof.
  assert (H1023 : 2 ^ 1023 < 2 ^ 1024 - 2 ^ 970) by (vm_compute; reflexivity).
  assert (H1024 : 2 ^ 1024 - 2 ^ 970 < 2 ^ 1024) by (vm_compute; reflexivity).
  destruct (Z_lt_le_dec (Z.abs z) (2 ^ 1023)) as [Hs|Hs].
  { split; [lia | intros _; now apply converts_small]. }
  destruct (Z_lt_le_dec (Z.abs z) (2 ^ 1024)) as [Hl|Hl].
  2:{ split; [|lia]. rewrite converts_large by assumption. discriminate. }
  assert (Hmain : forall (s : bool) (p : positive),
             Z.pos p = Z.abs z ->
             (match binary_round 53 1024 s p 0 with
              | S754_infinity _ => false | _ => true end = true
              <-> Z.pos p < 2 ^ 1024 - 2 ^ 970)).
  { intros s p Hp.
    assert (Hd : dig p = 1024).
    { apply dig_unique. simpl (1024 - 1). lia. }
    rewrite binary_round_cases by lia. rewrite Hd.
    change (1024 + 0 - 53 <=? 971) with true.
    change (1024 + 0 - 53 + 1 <=? 971) with false. cbv iota.
    set (top := Z.to_pos (2 ^ 1024 - 2 ^ 970)).
    set (below := Z.to_pos (2 ^ 1024 - 2 ^ 970 - 1)).
    assert (Ht : rnd_mant top = 2 ^ 53) by (vm_compute; reflexivity).
    assert (Hb : rnd_mant below = 2 ^ 53 - 1) by (vm_compute; reflexivity).
    assert (Hdt : dig top = 1024) by (vm_compute; reflexivity).
    assert (Hdb : dig below = 1024) by (vm_compute; reflexivity).
    assert (Et : Z.pos top = 2 ^ 1024 - 2 ^ 970) by (vm_compute; reflexivity).
    assert (Eb : Z.pos below = 2 ^ 1024 - 2 ^ 970 - 1)
      by (vm_compute; reflexivity).
    destruct (Z_lt_le_dec (Z.pos p) (2 ^ 1024 - 2 ^ 970)) as [Hlt|Hge].
    - pose proof (rnd_mant_mono p below ltac:(congruence) ltac:(lia)) as Hm.
      destruct (Z.ltb_spec (rnd_mant p) (2 ^ 53)); [|lia].
      split; [intros _; exact Hlt | reflexivity].
    - pose proof (rnd_mant_mono top p ltac:(congruence) ltac:(lia)) as Hm.
      destruct (Z.ltb_spec (rnd_mant p) (2 ^ 53)); [lia|].
      split; [discriminate | lia]. }
  unfold Binary64.converts. destruct z as [|p|p]; [simpl in Hs; lia| |].
  - rewrite of_int_pos. apply (Hmain false p). reflexivity.
  - rewrite of_int_neg. apply (Hmain true p). reflexivity.
Qed.

Lemma converts_false (z : Z) :
  2 ^ 1024 - 2 ^ 970 <= Z.abs z -> Binary64.converts z = false.
Proof.
  intros Hz. apply not_true_iff_false. rewrite converts_iff. lia.
Qed.

(** A mantissa of at most 53 digits is only shifted. *)
Lemma rnd_mant_exact (p : positive) :
  dig p <= 53 -> rnd_mant p = Z.pos p * 2 ^ (53 - dig p).
Proof.
  intros Hd. pose proof (dig_pos p) as H1. unfold rnd_mant.
  set (d := dig p) in *.
  assert (E1 : Z.pos p * 2 ^ 54 = (Z.pos p * 2 ^ (53 - d)) * 2 ^ (d + 1)).
  { rewrite <- Z.mul_assoc, <- Z.pow_add_r by lia. do 2 f_equal. lia. }
  assert (E2 : Z.pos p * 2 ^ 54 = (2 * (Z.pos p * 2 ^ (53 - d))) * 2 ^ d).
  { rewrite E1. replace (d + 1) with (1 + d) by lia.
    rewrite Z.pow_add_r by lia. ring. }
  rewrite E2 at 1. rewrite Z.div_mul by pw.
  rewrite Z.odd_mul. cbn [Z.odd andb].
  rewrite E1, Z.div_mul by pw. reflexivity.
Qed.

(** The float of a positive int that is turned into one: 53 bits and an
    exponent; the int itself when it has at most 53 bits. *)
Lemma of_int_finite (p : positive) :
  Binary64.converts (Z.pos p) = true ->
  exists (m : positive) (e : Z),
    Binary64.of_int (Z.pos p) = S754_finite false m e /\
    dig m = 53 /\ -52 <= e <= 971 /\
    (dig p <= 53 -> Z.pos m = Z.pos p * 2 ^ (53 - dig p) /\ e = dig p - 53).
Proof.
  unfold Binary64.converts. intros Hc.
  pose proof (dig_pos p) as H1. pose proof (rnd_mant_bounds p) as Hb.
  rewrite of_int_pos, binary_round_cases in * by lia.
  destruct (Z.ltb_spec (rnd_mant p) (2 ^ 53)) as [Hlt|Hge].
  - destruct (Z.leb_spec (dig p + 0 - 53) 971) as [He|He]; [|discriminate].
    exists (Z.to_pos (rnd_mant p)), (dig p + 0 - 53).
    split; [reflexivity|]. split.
    + apply dig_unique. rewrite Z2Pos.id by lia. simpl (53 - 1). lia.
    + split; [lia|]. intros H53. rewrite Z2Pos.id by lia.
      split; [now apply rnd_mant_exact | lia].
  - destruct (Z.leb_spec (dig p + 0 - 53 + 1) 971) as [He|He]; [|discriminate].
    exists (Z.to_pos (2 ^ 52)), (dig p + 0 - 53 + 1).
    split; [reflexivity|]. split; [reflexivity|]. split; [lia|].
    intros H53. rewrite rnd_mant_exact in Hge by assumption.
    pose proof (dig_bounds p) as [_ Hh].
    assert (Z.pos p * 2 ^ (53 - dig p) < 2 ^ dig p * 2 ^ (53 - dig p)).
    { apply Z.mul_lt_mono_pos_r; [apply Z.pow_pos_nonneg; lia | assumption]. }
    rewrite <- Z.pow_add_r in H by lia.
    replace (dig p + (53 - dig p)) with 53 in H by lia. lia.
Qed.

(** Dividing a normal float by [2] or by [4] lowers its exponent. *)
Lemma div_pow2 (s : bool) (m : positive) (e j : Z) :
  dig m = 53 -> -1073 <= e - j -> e - j <= 971 ->
  Binary64.div (S754_finite s m e) (S754_finite false (2 ^ 52) (j - 52)) =
  S754_finite s m (e - j).
Proof.
  intros Hd Hlo Hhi.
  unfold Binary64.div, SFdiv, SFdiv_core_binary, Binary64.prec, Binary64.emax.
  cbn [Zdigits2]. fold (dig m). rewrite Hd.
  change (Z.pos (digits2_pos (2 ^ 52))) with 53.
  unfold fexp, emin.
  replace (Z.min (Z.max (53 + e - (53 + (j - 52)) - 53) (3 - 1024 - 53))
                 (e - (j - 52))) with (e - j - 1) by lia.
  replace (e - (j - 52) - (e - j - 1)) with 53 by lia.
  assert (Hq : Z.div_eucl (Z.shiftl (Z.pos m) 53) (Z.pos (2 ^ 52))
               = (2 * Z.pos m, 0)).
  { rewrite Z.shiftl_mul_pow2 by lia.
    pose proof (Z.div_eucl_eq (Z.pos m * 2 ^ 53) (Z.pos (2 ^ 52)) ltac:(lia)) as E.
    pose proof (Z.mod_pos_bound (Z.pos m * 2 ^ 53) (Z.pos (2 ^ 52)) ltac:(lia)) as B.
    unfold Z.modulo in B.
    destruct (Z.div_eucl (Z.pos m * 2 ^ 53) (Z.pos (2 ^ 52))) as [q r].
    change (2 ^ 53) with (2 * Z.pos (2 ^ 52)) in E.
    assert (q = 2 * Z.pos m) by nia. assert (r = 0) by nia. now subst. }
  rewrite Hq.
  change (new_location (Z.pos (2 ^ 52)) 0) with loc_Exact.
  unfold binary_round_aux, shr_fexp, fexp, emin.
  assert (Hd2 : Zdigits2 (2 * Z.pos m) = 54).
  { change (2 * Z.pos m) with (Z.pos (m~0)). cbn [Zdigits2 digits2_pos].
    fold (dig m). rewrite Pos2Z.inj_succ. fold (dig m). lia. }
  rewrite Hd2.
  replace (Z.max (54 + (e - j - 1) - 53) (3 - 1024 - 53) - (e - j - 1)) with 1
    by lia.
  cbn [shr shr_record_of_loc iter_pos].
  rewrite shr_1_nonneg by lia.
  replace (2 * Z.pos m / 2) with (Z.pos m)
    by (rewrite Z.mul_comm, Z.div_mul; lia).
  rewrite Z.odd_mul. cbn [Z.odd andb orb loc_of_shr_record shr_m shr_r shr_s
                          round_nearest_even].
  cbn [Zdigits2]. fold (dig m). rewrite Hd.
  replace (Z.max (53 + (e - j - 1 + 1) - 53) (3 - 1024 - 53) - (e - j - 1 + 1))
    with 0 by lia.
  cbn [shr shr_m].
  destruct (Z.leb_spec (e - j - 1 + 1) (1024 - 53)); [|lia].
  rewrite xorb_false_r. f_equal. lia.
Qed.

End Conversion.

(** ** The first step and its halves *)

Section AnyDomain.
Context {exn : Type}.
Implicit Types (eps t : Binary64.float)
  (f : list (Query Binary64.float) -> Query Binary64.float -> Binary64.float).

(** The first step over a domain whose width is turned into a float: the
    width is rounded to 53 bits, and dividing by [4.0] only lowers the
    exponent. *)
Lemma binary64_init_step (LOWER_BOUND UPPER_BOUND : Z) :
  (0 < UPPER_BOUND - LOWER_BOUND < 2 ^ 1024 - 2 ^ 970)%Z ->
  exists (m : positive) (e : Z),
    Binary64.of_int (UPPER_BOUND - LOWER_BOUND) = S754_finite false m e /\
    dig m = 53%Z /\ (-52 <= e <= 971)%Z /\
    step_size (init (V:=Binary64.float) LOWER_BOUND UPPER_BOUND)
      = S754_finite false m (e - 2) /\
    ((UPPER_BOUND - LOWER_BOUND < 2 ^ 53)%Z ->
     (inject_Z (Z.pos m) * 2 ^ e == inject_Z (UPPER_BOUND - LOWER_BOUND))%Q).
Proof.
  intros Hw. cbn [init step_size].
  destruct (UPPER_BOUND - LOWER_BOUND)%Z as [|p|p] eqn:Ew; try lia.
  assert (Hd : Binary64.converts (Z.pos p) = true) by (apply converts_iff; lia).
  destruct (of_int_finite p Hd) as (m & e & Hof & Hm & He & Hex).
  exists m, e. split; [exact Hof|]. split; [exact Hm|]. split; [exact He|].
  split.
  - change (div (of_int (Z.pos p)) (of_int 4))
      with (Binary64.div (Binary64.of_int (Z.pos p))
              (S754_finite false (2 ^ 52) (2 - 52))).
    rewrite Hof. apply div_pow2; [exact Hm | lia | lia].
  - intros H53. pose proof (dig_le p 53 H53) as Hd53.
    destruct (Hex Hd53) as [Em Ee]. pose proof (dig_pos p) as Hp.
    rewrite Em, Ee, inject_Z_mult.
    rewrite (Zpower_Qpower 2 (53 - dig p)) by lia.
    change (inject_Z 2) with 2%Q.
    rewrite <- Qmult_assoc, <- Qpower_plus by discriminate.
    replace (53 - dig p + (dig p - 53))%Z with 0%Z by lia.
    change (2 ^ 0)%Q with 1%Q. apply Qmult_1_r.
Qed.



(** The first query of a run is made at the seed. *)
Lemma ledger_seed_query {V : Type} {A : Arith V} (n : nat) (eps' t' : V)
    (g : list (Query V) -> Query V -> V) (s : Kernel V) :
  exists later : list (Query V),
    ledger (state_after (exn:=exn) (S n) eps' t' g s) =
    later ++ {| threshold := current_value s; epsilon := eps' |} :: ledger s.
Proof.
  induction n as [|n [later IH]].
  - exists []. reflexivity.
  - rewrite state_after_S.
    set (sn := state_after (S n) eps' t' g s) in *.
    exists ({| threshold := current_value sn; epsilon := eps' |} :: later).
    simpl. now rewrite IH.
Qed.

End AnyDomain.

(** Steps and bounds as powers of two. *)
Lemma step_Q_succ (w : Q) (n : nat) :
  w / 4 / 2 ^ Z.of_nat (S n) == w / 4 / 2 ^ Z.of_nat n / 2.
Proof. rewrite pow2_succ. field. apply pow2_neq0. Qed.

Lemma two_steps_Q (w : Q) (n : nat) :
  2 * (w / 4 / 2 ^ Z.of_nat n) == w / 2 ^ (Z.of_nat n + 1).
Proof.
  rewrite pow2_Zplus1 by lia. field. apply pow2_neq0.
Qed.


(** ** The cell: [OverflowError] or the loop *)

Section CellBudget.
Context {exn : Type}.
Implicit Types (eps t : Binary64.float)
  (f : list (Query Binary64.float) -> Query Binary64.float -> Binary64.float).

(** The cell runs the loop when the bounds are less than [2^1024 - 2^970]
    apart, and raises before it otherwise. *)
Lemma cell_ran (LOWER_BOUND UPPER_BOUND k : Z) eps t
    (oracle : Oracle Binary64.float exn) :
  (Z.abs (UPPER_BOUND - LOWER_BOUND) < 2 ^ 1024 - 2 ^ 970)%Z ->
  cell LOWER_BOUND UPPER_BOUND k eps t oracle =
  Ran (EstimateMax LOWER_BOUND UPPER_BOUND k eps t oracle).
Proof.
  intros H. unfold cell. apply converts_iff in H. now rewrite H.
Qed.

Lemma cell_raises (LOWER_BOUND UPPER_BOUND k : Z) eps t
    (oracle : Oracle Binary64.float exn) :
  (2 ^ 1024 - 2 ^ 970 <= Z.abs (UPPER_BOUND - LOWER_BOUND))%Z ->
  cell LOWER_BOUND UPPER_BOUND k eps t oracle = OverflowError.
Proof.
  intros H. unfold cell. now rewrite converts_false.
Qed.

(** (C1, as the cell behaves) Over a valid domain and with [k >= 1], the
    cell either raises [OverflowError] before the loop, or makes exactly [k]
    invocations.  When the width [upper - lower] is below [2^1024 - 2^970],
    so that Python turns it into a float, and the oracle answers, the oracle
    is invoked exactly [k] times, the run completes and [current_value] is
    what the loop's assignments leave after the [k] answers given: no round
    is skipped and none is added.  When the width is [2^1024 - 2^970] or
    more, the assignment of [step_size] raises [OverflowError] and the
    oracle is never invoked, whatever it is. *)
Theorem cell_exact_budget (LOWER_BOUND UPPER_BOUND k : Z) eps t f :
  (LOWER_BOUND < UPPER_BOUND)%Z -> (1 <= k)%Z ->
  ((UPPER_BOUND - LOWER_BOUND < 2 ^ 1024 - 2 ^ 970)%Z ->
   exists r : Kernel Binary64.float * Outcome exn,
     cell LOWER_BOUND UPPER_BOUND k eps t (answering f) = Ran r /\
     Z.of_nat (calls r) = k /\
     snd r = Completed /\
     let answers := answers_of (Z.to_nat k) eps t f
                      (init LOWER_BOUND UPPER_BOUND) in
     Z.of_nat (length answers) = k /\
     estimate r =
       current_value (replay t answers (init LOWER_BOUND UPPER_BOUND))) /\
  ((2 ^ 1024 - 2 ^ 970 <= UPPER_BOUND - LOWER_BOUND)%Z ->
   forall oracle : Oracle Binary64.float exn,
     cell LOWER_BOUND UPPER_BOUND k eps t oracle = OverflowError).
Proof.
  intros HLU Hk. split.
  - intros Hw.
    exists (EstimateMax LOWER_BOUND UPPER_BOUND k eps t (answering f)).
    split; [apply cell_ran; lia|].
    destruct (EstimateMax_exact_budget (exn:=exn) LOWER_BOUND UPPER_BOUND k
                eps t f HLU Hk) as (H1 & H2 & H3 & H4).
    repeat split; assumption.
  - intros Hw oracle. apply cell_raises. lia.
Qed.

(** (C6, as the cell behaves) Nothing is validated.  A call with [k < 1] or
    with [lower >= upper] whose bounds are less than [2^1024 - 2^970] apart
    completes like any other, after [max(k,0)] invocations of an oracle that
    answers: none with [k < 1], the variables staying as initialised, and
    [k] with [lower >= upper] and [k >= 1].  The one failure before the loop
    is Python's [OverflowError], for bounds [2^1024 - 2^970] or more apart,
    whether or not the configuration is valid. *)
Theorem cell_no_validation (LOWER_BOUND UPPER_BOUND k : Z) eps t f :
  (k < 1 \/ UPPER_BOUND <= LOWER_BOUND)%Z ->
  ((Z.abs (UPPER_BOUND - LOWER_BOUND) < 2 ^ 1024 - 2 ^ 970)%Z ->
   exists r : Kernel Binary64.float * Outcome exn,
     cell LOWER_BOUND UPPER_BOUND k eps t (answering f) = Ran r /\
     snd r = Completed /\
     Z.of_nat (calls r) = Z.max 0 k /\
     (Z.max 0 k = 0%Z -> fst r = init LOWER_BOUND UPPER_BOUND)) /\
  ((2 ^ 1024 - 2 ^ 970 <= Z.abs (UPPER_BOUND - LOWER_BOUND))%Z ->
   forall oracle : Oracle Binary64.float exn,
     cell LOWER_BOUND UPPER_BOUND k eps t oracle = OverflowError).
Proof.
  intros H. split.
  - intros Hw.
    exists (EstimateMax LOWER_BOUND UPPER_BOUND k eps t (answering f)).
    split; [now apply cell_ran|].
    exact (EstimateMax_no_validation (exn:=exn) LOWER_BOUND UPPER_BOUND k
             eps t f H).
  - intros Hw oracle. now apply cell_raises.
Qed.

(** (C8, as the cell behaves) A run over a valid domain whose width is
    turned into a float starts from the seed written in the cell, the
    literal 0, whatever the bounds: it is the midpoint [(lower+upper)/2]
    exactly when [lower = -upper], as in the notebook.  The step is
    [float(upper - lower) / 4.0]: the width rounded to 53 bits, then divided
    by 4 without rounding; it is [(upper-lower)/4] itself when the width is
    below [2^53].  The ledger is empty, and the first invocation of the
    oracle is made at the seed. *)
Theorem cell_initial_state (LOWER_BOUND UPPER_BOUND k : Z) eps t f :
  (1 <= k)%Z -> (0 < UPPER_BOUND - LOWER_BOUND < 2 ^ 1024 - 2 ^ 970)%Z ->
  let s0 := init (V:=Binary64.float) LOWER_BOUND UPPER_BOUND in
  exists (r : Kernel Binary64.float * Outcome exn) (w st : Q),
    cell LOWER_BOUND UPPER_BOUND k eps t (answering f) = Ran r /\
    current_value s0 = S754_zero false /\
    ((inject_Z LOWER_BOUND + inject_Z UPPER_BOUND) / 2 == 0
     <-> LOWER_BOUND = (- UPPER_BOUND)%Z)%Q /\
    step_size s0 =
      Binary64.div (Binary64.of_int (UPPER_BOUND - LOWER_BOUND))
                   (Binary64.of_int 4) /\
    Binary64.value (Binary64.of_int (UPPER_BOUND - LOWER_BOUND)) = Some w /\
    ((UPPER_BOUND - LOWER_BOUND < 2 ^ 53)%Z ->
     (w == inject_Z (UPPER_BOUND - LOWER_BOUND))%Q) /\
    Binary64.value (step_size s0) = Some st /\
    (st == w / 4)%Q /\
    ledger s0 = [] /\
    exists later : list (Query Binary64.float),
      ledger (fst r) =
      later ++ [{| threshold := S754_zero false; epsilon := eps |}].
Proof.
  intros Hk Hw s0.
  destruct (binary64_init_step LOWER_BOUND UPPER_BOUND Hw)
    as (m & e & Hof & Hm & He & Hst & Hex).
  exists (EstimateMax LOWER_BOUND UPPER_BOUND k eps t (answering f)),
         (inject_Z (Z.pos m) * 2 ^ e)%Q,
         (inject_Z (Z.pos m) * 2 ^ (e - 2))%Q.
  split; [apply cell_ran; lia|].
  split; [reflexivity|]. split.
  { rewrite <- inject_Z_plus. split.
    - intros H.
      assert (H' : (inject_Z (LOWER_BOUND + UPPER_BOUND) == 0)%Q).
      { assert (E : (inject_Z (LOWER_BOUND + UPPER_BOUND)
                     == inject_Z (LOWER_BOUND + UPPER_BOUND) / 2 * 2)%Q)
          by field.
        rewrite E, H. reflexivity. }
      unfold Qeq in H'. cbn [inject_Z Qnum Qden] in H'. lia.
    - intros ->. replace (- UPPER_BOUND + UPPER_BOUND)%Z with 0%Z by lia.
      reflexivity. }
  split; [reflexivity|].
  split; [rewrite Hof; reflexivity|].
  split; [exact Hex|].
  split; [subst s0; rewrite Hst; reflexivity|].
  split.
  { rewrite Qpower_minus by discriminate. change (2 ^ 2)%Q with 4%Q.
    field. }
  split; [reflexivity|].
  unfold EstimateMax.
  replace (Z.to_nat k) with (S (Z.to_nat k - 1)) by lia.
  exact (ledger_seed_query (exn:=exn) (Z.to_nat k - 1) eps t f
           (init LOWER_BOUND UPPER_BOUND)).
Qed.

End CellBudget.


(** ** Comparing floats *)

Section Comparison.
Local Open Scope Z_scope.

Lemma valid_finite (s : bool) (m : positive) (e : Z) :
  Binary64.valid (S754_finite s m e) = true ->
  -1074 <= e <= 971 /\ dig m <= 53 /\ (-1074 < e -> dig m = 53).
Proof.
  unfold Binary64.valid, Binary64.prec, Binary64.emax, valid_binary, bounded,
    canonical_mantissa, fexp, emin.
  fold (dig m). intros H. apply andb_prop in H. destruct H as [H1 H2].
  apply Z.eqb_eq in H1. apply Z.leb_le in H2. lia.
Qed.

Lemma finite_valid (s : bool) (m : positive) (e : Z) :
  dig m = 53 -> -1074 <= e <= 971 -> Binary64.valid (S754_finite s m e) = true.
Proof.
  intros Hd He.
  unfold Binary64.valid, Binary64.prec, Binary64.emax, valid_binary, bounded,
    canonical_mantissa, fexp, emin.
  fold (dig m). apply andb_true_intro. split.
  - apply Z.eqb_eq. lia.
  - apply Z.leb_le. lia.
Qed.

Lemma valid_sign (s s' : bool) (m : positive) (e : Z) :
  Binary64.valid (S754_finite s m e) = Binary64.valid (S754_finite s' m e).
Proof. reflexivity. Qed.

(** The size of a valid finite float, in units of [2^-1074]. *)
Lemma valid_size (s : bool) (m : positive) (e : Z) :
  Binary64.valid (S754_finite s m e) = true ->
  0 < Z.pos m * 2 ^ (e + 1074) < 2 ^ 2200 /\
  2 ^ (dig m + e + 1073) <= Z.pos m * 2 ^ (e + 1074) < 2 ^ (dig m + e + 1074).
Proof.
  intros H. apply valid_finite in H. destruct H as (He & Hd & _).
  pose proof (dig_bounds m) as [Hl Hh]. pose proof (dig_pos m) as Hp.
  assert (P : 0 < 2 ^ (e + 1074)) by (apply Z.pow_pos_nonneg; lia).
  assert (E1 : 2 ^ (dig m + e + 1073) = 2 ^ (dig m - 1) * 2 ^ (e + 1074))
    by (rewrite <- Z.pow_add_r by lia; f_equal; lia).
  assert (E2 : 2 ^ (dig m + e + 1074) = 2 ^ dig m * 2 ^ (e + 1074))
    by (rewrite <- Z.pow_add_r by lia; f_equal; lia).
  assert (B : 2 ^ (dig m + e + 1074) <= 2 ^ 2200)
    by (apply Z.pow_le_mono_r; lia).
  rewrite E1, E2 in *. split; [split|split]; nia.
Qed.

Lemma ord_finite_lt (m1 m2 : positive) (e1 e2 : Z) :
  Binary64.valid (S754_finite false m1 e1) = true ->
  Binary64.valid (S754_finite false m2 e2) = true ->
  e1 < e2 ->
  Z.pos m1 * 2 ^ (e1 + 1074) < Z.pos m2 * 2 ^ (e2 + 1074).
Proof.
  intros V1 V2 He.
  pose proof (valid_size _ _ _ V1) as [_ [_ H1]].
  pose proof (valid_size _ _ _ V2) as [_ [H2 _]].
  apply valid_finite in V1, V2.
  destruct V1 as (B1 & D1 & _). destruct V2 as (B2 & D2 & N2).
  specialize (N2 ltac:(lia)).
  assert (2 ^ (dig m1 + e1 + 1074) <= 2 ^ (dig m2 + e2 + 1073))
    by (apply Z.pow_le_mono_r; lia).
  lia.
Qed.

(** Python's comparisons of floats compare the numbers. *)
Lemma SFcompare_ord (x y : spec_float) :
  Binary64.valid x = true -> Binary64.valid y = true ->
  is_nan x = false -> is_nan y = false ->
  SFcompare x y = Some (ord x ?= ord y).
Proof.
  intros Vx Vy Nx Ny.
  destruct x as [sx|sx| |sx mx ex]; try discriminate;
    destruct y as [sy|sy| |sy my ey]; try discriminate; cbn [SFcompare ord].
  - reflexivity.
  - destruct sx, sy; reflexivity.
  - f_equal. pose proof (valid_size _ _ _ Vy) as [[H1 H2] _].
    destruct sy; cbn [cond_Zopp]; symmetry;
      [apply Z.compare_gt_iff | apply Z.compare_lt_iff]; lia.
  - destruct sx, sy; reflexivity.
  - destruct sx, sy; reflexivity.
  - f_equal. pose proof (valid_size _ _ _ Vy) as [[H1 H2] _].
    destruct sx, sy; cbn [cond_Zopp]; symmetry;
      first [apply Z.compare_gt_iff; lia | apply Z.compare_lt_iff; lia].
  - f_equal. pose proof (valid_size _ _ _ Vx) as [[H1 H2] _].
    destruct sx; cbn [cond_Zopp]; symmetry;
      [apply Z.compare_lt_iff | apply Z.compare_gt_iff]; lia.
  - f_equal. pose proof (valid_size _ _ _ Vx) as [[H1 H2] _].
    destruct sx, sy; cbn [cond_Zopp]; symmetry;
      first [apply Z.compare_gt_iff; lia | apply Z.compare_lt_iff; lia].
  - f_equal.
    pose proof (valid_size _ _ _ Vx) as [[H1 H2] _].
    pose proof (valid_size _ _ _ Vy) as [[H3 H4] _].
    assert (Heq : ex = ey ->
              (Z.pos mx * 2 ^ (ex + 1074) ?= Z.pos my * 2 ^ (ey + 1074))
              = Pos.compare_cont Eq mx my).
    { intros ->. rewrite <- Zmult_compare_compat_r
        by (apply Z.lt_gt, Z.pow_pos_nonneg; apply valid_finite in Vy; lia).
      reflexivity. }
    destruct sx, sy; cbn [cond_Zopp].
    + rewrite Z.compare_opp.
      destruct (Z.compare_spec ex ey) as [E|E|E].
      * rewrite Z.compare_antisym, (Heq E). reflexivity.
      * symmetry. apply Z.compare_gt_iff.
        apply (ord_finite_lt mx my ex ey); assumption.
      * symmetry. apply Z.compare_lt_iff.
        apply (ord_finite_lt my mx ey ex); assumption.
    + symmetry. apply Z.compare_lt_iff. lia.
    + symmetry. apply Z.compare_gt_iff. lia.
    + destruct (Z.compare_spec ex ey) as [E|E|E].
      * rewrite (Heq E). reflexivity.
      * symmetry. apply Z.compare_lt_iff.
        apply (ord_finite_lt mx my ex ey); assumption.
      * symmetry. apply Z.compare_gt_iff.
        apply (ord_finite_lt my mx ey ex); assumption.
Qed.

Lemma SFltb_ord (x y : spec_float) :
  Binary64.valid x = true -> Binary64.valid y = true ->
  is_nan x = false -> is_nan y = false ->
  SFltb x y = (ord x <? ord y).
Proof.
  intros Vx Vy Nx Ny. unfold SFltb. rewrite SFcompare_ord by assumption.
  unfold Z.ltb. destruct (ord x ?= ord y); reflexivity.
Qed.

Lemma SFleb_ord (x y : spec_float) :
  Binary64.valid x = true -> Binary64.valid y = true ->
  is_nan x = false -> is_nan y = false ->
  SFleb x y = (ord x <=? ord y).
Proof.
  intros Vx Vy Nx Ny. unfold SFleb. rewrite SFcompare_ord by assumption.
  unfold Z.leb. destruct (ord x ?= ord y); reflexivity.
Qed.

Lemma SFleb_not_nan (x y : spec_float) :
  SFleb x y = true -> is_nan x = false /\ is_nan y = false.
Proof.
  destruct x as [sx|sx| |sx mx ex]; destruct y as [sy|sy| |sy my ey];
    cbn; intros H; try discriminate; split; reflexivity.
Qed.

(** Raising an answer never turns a result above the threshold into one
    that is not. *)
Lemma gtb_raise (t b a : spec_float) :
  Binary64.valid t = true -> Binary64.valid a = true -> Binary64.valid b = true ->
  SFleb b a = true ->
  Binary64.gtb b t = true -> Binary64.gtb a t = true.
Proof.
  intros Vt Va Vb Hle Hb. unfold Binary64.gtb in *.
  destruct (SFleb_not_nan _ _ Hle) as [Nb Na].
  assert (Nt : is_nan t = false).
  { destruct t; try reflexivity. destruct b; discriminate. }
  rewrite SFleb_ord in Hle by assumption.
  rewrite SFltb_ord in Hb |- * by assumption.
  apply Z.leb_le in Hle. apply Z.ltb_lt in Hb. apply Z.ltb_lt. lia.
Qed.

(** [ord] and [scaled] count the same number in different units. *)
Lemma ord_scaled (x : spec_float) :
  (forall s m e, x = S754_finite s m e -> -84 <= e) ->
  is_nan x = false ->
  (forall s, x <> S754_infinity s) ->
  ord x = scaled x * 2 ^ 990.
Proof.
  intros He Hn Hi. destruct x as [s|s| |s m e]; try reflexivity.
  - now destruct (Hi s).
  - specialize (He s m e eq_refl). cbn [ord scaled].
    replace (e + 1074) with ((e + 84) + 990) by lia.
    rewrite Z.pow_add_r by lia. destruct s; cbn [cond_Zopp]; ring.
Qed.

End Comparison.

Section ValueOrder.
Local Open Scope Q_scope.

(** The number a valid float stands for, in units of [2^-1074]. *)
Lemma value_ord (x : spec_float) (q : Q) :
  Binary64.valid x = true -> Binary64.value x = Some q ->
  q * inject_Z (2 ^ 1074) == inject_Z (ord x).
Proof.
  intros Vx Hq. destruct x as [s|s| |s m e]; try discriminate.
  - injection Hq as <-. reflexivity.
  - injection Hq as <-. apply valid_finite in Vx. destruct Vx as (He & _).
    assert (Ho : ord (S754_finite s m e)
                 = (cond_Zopp s (Z.pos m) * 2 ^ (e + 1074))%Z).
    { cbn [ord]. destruct s; cbn [cond_Zopp]; lia. }
    rewrite Ho, inject_Z_mult, (Zpower_Qpower 2 (e + 1074)) by lia.
    rewrite Qpower_plus by discriminate.
    rewrite (Zpower_Qpower 2 1074) by lia. change (inject_Z 2) with 2.
    generalize (2 ^ e) (2 ^ 1074) (inject_Z (cond_Zopp s (Z.pos m))).
    intros a b c. symmetry. apply Qmult_assoc.
Qed.

Lemma value_not_nan (x : spec_float) (q : Q) :
  Binary64.value x = Some q -> is_nan x = false.
Proof. destruct x; [reflexivity | reflexivity | discriminate | reflexivity]. Qed.

(** [x > y] on valid floats is [>] on the numbers they stand for. *)
Lemma gtb_value (x y : spec_float) (qx qy : Q) :
  Binary64.valid x = true -> Binary64.valid y = true ->
  Binary64.value x = Some qx -> Binary64.value y = Some qy ->
  Binary64.gtb x y = negb (Qle_bool qx qy).
Proof.
  intros Vx Vy Hx Hy. unfold Binary64.gtb.
  rewrite SFltb_ord
    by (try assumption; eapply value_not_nan; eassumption).
  pose proof (value_ord x qx Vx Hx) as Ex.
  pose proof (value_ord y qy Vy Hy) as Ey.
  assert (HK : 0 < inject_Z (2 ^ 1074)).
  { change 0 with (inject_Z 0). rewrite <- Zlt_Qlt.
    apply Z.pow_pos_nonneg; lia. }
  destruct (Z.ltb_spec (ord y) (ord x)) as [H|H].
  - symmetry. apply negb_true_iff, not_true_iff_false.
    rewrite Qle_bool_iff. apply Qlt_not_le.
    apply (Qmult_lt_r _ _ _ HK). rewrite Ex, Ey. now rewrite <- Zlt_Qlt.
  - symmetry. apply negb_false_iff, Qle_bool_iff.
    apply (Qmult_le_r _ _ _ HK). rewrite Ex, Ey. now rewrite <- Zle_Qle.
Qed.

End ValueOrder.

(** ** Runs over the notebook's domain *)

Section Transfer.
Context {V : Type} {A : Arith V} {exn exn' : Type}.
Implicit Types (eps t : V) (f : list (Query V) -> Query V -> V) (s : Kernel V).

(** The two variables depend on the oracle only through the comparisons
    [result > t]: a run and the run that plays [decided] of its comparisons,
    with any threshold that tells 1 and 0 apart, assign the same values. *)
Lemma state_after_decisions (n : nat) eps t eps' t' f s :
  (forall b : bool, gtb (decided (V:=V) (fun _ => b) O) t' = b) ->
  ledger s = [] ->
  let d := decisions (exn:=exn) eps t f s in
  let s1 := state_after (exn:=exn) n eps t f s in
  let s2 := state_after (exn:=exn') n eps' t' (script (decided d)) s in
  current_value s1 = current_value s2 /\ step_size s1 = step_size s2.
Proof.
  intros Ht Hl d. induction n as [|n [IHc IHs]]; cbv zeta in *.
  - split; reflexivity.
  - destruct (state_after_round (exn:=exn) n eps t f s) as (Hc1 & Hs1 & _).
    destruct (state_after_round (exn:=exn') n eps' t' (script (decided d)) s)
      as (Hc2 & Hs2 & _).
    rewrite Hc1, Hc2, Hs1, Hs2, <- IHc, <- IHs. split; [|reflexivity].
    assert (Hd : gtb (answer_at eps' (script (decided d))
                        (state_after (exn:=exn') n eps' t' (script (decided d)) s)) t'
                 = d n).
    { unfold answer_at, script. rewrite state_after_calls, Hl. simpl length.
      rewrite Nat.add_0_r. unfold decided.
      destruct (d n); [apply (Ht true) | apply (Ht false)]. }
    rewrite Hd. reflexivity.
Qed.

(** A script is compared answer by answer. *)
Lemma decisions_script (a : nat -> V) eps t s (i : nat) :
  ledger s = [] ->
  decisions (exn:=exn) eps t (script a) s i = gtb (a i) t.
Proof.
  intros Hl. unfold decisions, answer_at, script.
  rewrite state_after_calls, Hl. simpl length. now rewrite Nat.add_0_r.
Qed.

End Transfer.

Section NotebookRun.
Context {exn : Type}.
Implicit Types (eps t : Binary64.float)
  (f : list (Query Binary64.float) -> Query Binary64.float -> Binary64.float).

(** With the notebook's threshold, [decided] leads to the comparisons it
    is given. *)
Lemma decided_notebook (b : bool) :
  gtb (decided (V:=Binary64.float) (fun _ => b) O) Notebook.t = b.
Proof. destruct b; reflexivity. Qed.

Lemma decided_gtb (d : nat -> bool) (i : nat) :
  Binary64.gtb (decided (V:=Binary64.float) d i) Notebook.t = d i.
Proof. unfold decided. destruct (d i); reflexivity. Qed.

(** Whatever [eps], [t] and the oracle, a run over the notebook's domain is
    the run [run64] of the comparisons it made. *)
Lemma notebook_run64 (n : nat) eps t f :
  let s0 := init Notebook.LOWER_BOUND Notebook.UPPER_BOUND in
  let s := state_after (exn:=exn) n eps t f s0 in
  current_value s = run64 (decided (decisions (exn:=exn) eps t f s0)) n /\
  ((n <= 64)%nat -> step_size s = step64 n).
Proof.
  cbv zeta.
  destruct (state_after_decisions (exn:=exn) (exn':=unit) n eps t
              Notebook.eps Notebook.t f
              (init Notebook.LOWER_BOUND Notebook.UPPER_BOUND)
              decided_notebook eq_refl) as [Hc Hs].
  split; [exact Hc|]. intros Hn. rewrite Hs. now apply binary64_steps.
Qed.

End NotebookRun.

Section RunShape.
Local Open Scope Z_scope.

(** The float nearest to [w] units is a normal binary64 number. *)
Lemma canon_finite (w : Z) :
  2 ^ 52 <= Z.abs w < 2 ^ 200 ->
  exists (s : bool) (m : positive) (e : Z),
    canon w = S754_finite s m e /\ dig m = 53 /\ -84 <= e <= 64.
Proof.
  intros Hw.
  assert (Hmain : forall (s : bool) (p : positive),
             Z.abs w = Z.pos p ->
             exists (m : positive) (e : Z),
               binary_round 53 1024 s p (-84) = S754_finite s m e /\
               dig m = 53 /\ -84 <= e <= 64).
  { intros s p Hp.
    pose proof (dig_ge p 52 ltac:(lia)) as D1.
    pose proof (dig_le p 200 ltac:(lia)) as D2.
    pose proof (rnd_mant_bounds p) as Hb.
    rewrite binary_round_spec by lia.
    destruct (Z.ltb_spec (rnd_mant p) (2 ^ 53)) as [Hlt|Hge].
    - exists (Z.to_pos (rnd_mant p)), (dig p + -84 - 53).
      split; [reflexivity|]. split; [|lia].
      apply dig_unique. rewrite Z2Pos.id by lia. simpl (53 - 1). lia.
    - exists (Z.to_pos (2 ^ 52)), (dig p + -84 - 53 + 1).
      split; [reflexivity|]. split; [reflexivity | lia]. }
  destruct w as [|p|p]; [simpl in Hw; lia| |].
  - destruct (Hmain false p eq_refl) as (m & e & H). now exists false, m, e.
  - destruct (Hmain true p eq_refl) as (m & e & H). now exists true, m, e.
Qed.

(** A binary64 number is its own nearest float. *)
Lemma canon_float (s : bool) (m : positive) (e : Z) :
  dig m = 53 -> -84 <= e <= 60 ->
  scaled (canon (scaled (S754_finite s m e))) = scaled (S754_finite s m e).
Proof.
  intros Hd He. cbn [scaled].
  assert (P : 0 < 2 ^ (e + 84)) by (apply Z.pow_pos_nonneg; lia).
  pose proof (dig_bounds m) as [Hl Hh]. rewrite Hd in Hl, Hh.
  simpl (53 - 1) in Hl.
  set (v := Z.pos m * 2 ^ (e + 84)) in *.
  assert (Hv : 2 ^ 52 <= v < 2 ^ 200).
  { subst v. split; [nia|].
    assert (2 ^ 53 * 2 ^ (e + 84) <= 2 ^ 53 * 2 ^ 144).
    { apply Z.mul_le_mono_nonneg_l; [lia | apply Z.pow_le_mono_r; lia]. }
    change (2 ^ 200) with (2 ^ 53 * 2 ^ 147).
    assert (2 ^ 144 < 2 ^ 147) by reflexivity. nia. }
  assert (Habs : Z.abs (cond_Zopp s v) = v) by (destruct s; cbn [cond_Zopp]; lia).
  rewrite scaled_canon by (rewrite Habs; lia).
  rewrite Habs.
  set (p := Z.to_pos v). assert (Hp : Z.pos p = v) by (subst p; rewrite Z2Pos.id; lia).
  assert (Hdp : dig p = 53 + (e + 84)).
  { rewrite <- Hd. apply (dig_scale m p (e + 84)); [lia | exact Hp]. }
  rewrite rne_pos_exact.
  - rewrite Hp. destruct s; cbn [cond_Zopp Z.sgn]; destruct v; cbn; lia.
  - lia.
  - rewrite Hdp, Hp. replace (53 + (e + 84) - 53) with (e + 84) by lia.
    subst v. apply Z.mod_mul. lia.
Qed.

(** The estimate of the notebook's run is a normal binary64 number after
    every round. *)
Lemma run64_finite (a : nat -> Binary64.float) (n : nat) :
  (n <= 63)%nat ->
  exists (s : bool) (m : positive) (e : Z),
    run64 a (S n) = S754_finite s m e /\ dig m = 53 /\ -84 <= e <= 0.
Proof.
  intros Hn.
  destruct (run64_within a n Hn) as (sg & m & e & Hc & He & _).
  exists sg, m, e. split; [exact Hc|]. split; [|exact He].
  destruct n as [|n].
  - rewrite run64_S in Hc by lia.
    change (run64 a 0) with (S754_zero false) in Hc.
    destruct (Binary64.gtb (a 0%nat) Notebook.t); vm_compute in Hc;
      injection Hc as <- <- <-; reflexivity.
  - rewrite run64_S in Hc by lia.
    pose proof (run64_within a n ltac:(lia)) as W.
    destruct (step64_round (S n) _ ltac:(lia) W) as (Ea & Es & Ba & Bs).
    rewrite Ea, Es in Hc.
    destruct (Binary64.gtb (a (S n)) Notebook.t).
    + destruct (canon_finite _ Ba) as (s' & m' & e' & Hc' & Hd' & _).
      rewrite Hc' in Hc. injection Hc as <- <- <-. exact Hd'.
    + destruct (canon_finite _ Bs) as (s' & m' & e' & Hc' & Hd' & _).
      rewrite Hc' in Hc. injection Hc as <- <- <-. exact Hd'.
Qed.

Lemma run64_valid (a : nat -> Binary64.float) (n : nat) :
  (n <= 64)%nat ->
  Binary64.valid (run64 a n) = true /\ is_nan (run64 a n) = false /\
  ord (run64 a n) = scaled (run64 a n) * 2 ^ 990.
Proof.
  intros Hn. destruct n as [|n].
  - repeat split.
  - destruct (run64_finite a n ltac:(lia)) as (s & m & e & -> & Hd & He).
    split; [apply finite_valid; lia|]. split; [reflexivity|].
    apply ord_scaled; try discriminate; [|reflexivity].
    intros s' m' e' H. injection H as <- <- <-. lia.
Qed.

(** One round of the notebook's run, in units of [2^-84]: the estimate moves
    by the step, exactly through round 53 and to within [2^-22] afterwards,
    and never against the direction of the round. *)
Lemma run64_round (a : nat -> Binary64.float) (n : nat) :
  (n <= 63)%nat ->
  let v := scaled (run64 a n) in
  let v' := scaled (run64 a (S n)) in
  let up := Binary64.gtb (a n) Notebook.t in
  exists ez : Z,
    v' = (if up then v + step_scaled n else v - step_scaled n) + ez /\
    ((n <= 52)%nat -> ez = 0) /\ Z.abs ez <= 2 ^ 62 /\
    (if up then v <= v' else v' <= v).
Proof.
  intros Hn v v' up. subst v v' up.
  destruct (le_lt_dec n 52) as [H52|H52].
  - exists 0. rewrite run64_scaled_S by lia.
    pose proof (step_scaled_bounds n ltac:(lia)) as HS.
    destruct (Binary64.gtb (a n) Notebook.t); repeat split; try lia.
  - destruct n as [|n]; [lia|].
    rewrite (run64_S a (S n)) by lia.
    pose proof (run64_within a n ltac:(lia)) as W.
    destruct (run64_finite a n ltac:(lia)) as (s & m & e & Hc & Hd & He).
    destruct (step64_round (S n) _ ltac:(lia) W) as (-> & -> & B1 & B2).
    pose proof (canon_float s m e Hd ltac:(lia)) as Hid.
    rewrite <- Hc in Hid.
    destruct W as (sg & m0 & e0 & Hc0 & He0 & Hv & _).
    pose proof (step_scaled_bounds (S n) ltac:(lia)) as HS.
    assert (Hsmall : step_scaled (S n) <= 2 ^ 62)
      by (unfold step_scaled; apply Z.pow_le_mono_r; lia).
    set (v := scaled (run64 a (S n))) in *.
    set (st := step_scaled (S n)) in *.
    assert (Bv : 2 ^ 52 <= Z.abs v < 2 ^ 200).
    { assert (2 ^ 116 < 2 ^ 200) by reflexivity. lia. }
    destruct (Binary64.gtb (a (S n)) Notebook.t).
    + exists (scaled (canon (v + st)) - (v + st)).
      split; [lia|]. split; [lia|].
      split; [apply canon_error; lia|].
      pose proof (canon_mono v (v + st) Bv B1 ltac:(lia)) as Hm.
      now rewrite Hid in Hm.
    + exists (scaled (canon (v - st)) - (v - st)).
      split; [lia|]. split; [lia|].
      split; [apply canon_error; lia|].
      pose proof (canon_mono (v - st) v B2 Bv ltac:(lia)) as Hm.
      now rewrite Hid in Hm.
Qed.

End RunShape.

Section Values.
Local Open Scope Q_scope.

Lemma units_pos : 0 < units.
Proof. reflexivity. Qed.

Lemma units_neq0 : ~ units == 0.
Proof. discriminate. Qed.

(** The number the estimate stands for, and its count in units of
    [2^-84]. *)
Lemma run64_value (a : nat -> Binary64.float) (n : nat) :
  (n <= 64)%nat ->
  exists q : Q,
    Binary64.value (run64 a n) = Some q /\
    q * units == inject_Z (scaled (run64 a n)).
Proof.
  intros Hn. destruct n as [|n].
  - exists 0. split; reflexivity.
  - destruct (run64_within a n ltac:(lia)) as (sg & m & e & Hc & He & _).
    rewrite Hc. apply value_scaled. lia.
Qed.

Lemma step64_value (n : nat) :
  (n <= 64)%nat ->
  exists st : Q,
    Binary64.value (step64 n) = Some st /\
    st == inject_Z (Notebook.UPPER_BOUND - Notebook.LOWER_BOUND) / 4
          / 2 ^ Z.of_nat n /\
    st * units == inject_Z (step_scaled n) /\ 0 < st.
Proof.
  intros Hn.
  exists (inject_Z (2 ^ 52) * 2 ^ (- 21 - Z.of_nat n)).
  split; [reflexivity|].
  assert (E : inject_Z (2 ^ 52) * 2 ^ (- 21 - Z.of_nat n) ==
              inject_Z (Notebook.UPPER_BOUND - Notebook.LOWER_BOUND) / 4
              / 2 ^ Z.of_nat n).
  { rewrite Qpower_minus by discriminate.
    assert (H : inject_Z (2 ^ 52) * 2 ^ (- 21) ==
                inject_Z (Notebook.UPPER_BOUND - Notebook.LOWER_BOUND) / 4)
      by reflexivity.
    rewrite <- H. unfold Qdiv. apply Qmult_assoc. }
  split; [exact E|]. split.
  - apply step_scaled_Q; [lia | exact E].
  - apply Qmult_lt_0_compat; [reflexivity | apply pow2_pos].
Qed.

Lemma Qabs_scaled (x : Q) (z b : Z) :
  x * units == inject_Z z -> (Z.abs z <= b * 2 ^ 62)%Z ->
  Qabs x <= inject_Z b / inject_Z (2 ^ 22).
Proof.
  intros Hx Hz.
  assert (H22 : 0 < inject_Z (2 ^ 22)) by reflexivity.
  assert (H84 : units == inject_Z (2 ^ 62) * inject_Z (2 ^ 22)) by reflexivity.
  assert (Hb : - (inject_Z b * inject_Z (2 ^ 62)) <= inject_Z z
               <= inject_Z b * inject_Z (2 ^ 62)).
  { rewrite <- inject_Z_mult, <- inject_Z_opp, <- !Zle_Qle. lia. }
  rewrite <- Hx in Hb.
  assert (HN : inject_Z b / inject_Z (2 ^ 22) * units
               == inject_Z b * inject_Z (2 ^ 62)).
  { rewrite H84. field. intros H; rewrite H in H22.
    now apply Qlt_irrefl in H22. }
  apply Qabs_Qle_condition. split.
  - apply (Qmult_le_r _ _ _ units_pos).
    assert (Hl : - (inject_Z b / inject_Z (2 ^ 22)) * units
                 == - (inject_Z b / inject_Z (2 ^ 22) * units)) by ring.
    rewrite Hl, HN. apply Hb.
  - apply (Qmult_le_r _ _ _ units_pos). rewrite HN. apply Hb.
Qed.

Lemma scaled_le (x y : Q) (u v : Z) :
  x * units == inject_Z u -> y * units == inject_Z v -> (u <= v)%Z -> x <= y.
Proof.
  intros Hx Hy H. apply (Qmult_le_r _ _ _ units_pos). rewrite Hx, Hy.
  now rewrite <- Zle_Qle.
Qed.

Lemma scaled_lt (x y : Q) (u v : Z) :
  x * units == inject_Z u -> y * units == inject_Z v -> (u < v)%Z -> x < y.
Proof.
  intros Hx Hy H. apply (Qmult_lt_r _ _ _ units_pos). rewrite Hx, Hy.
  now rewrite <- Zlt_Qlt.
Qed.

End Values.

Section Round.
Context {exn : Type}.
Implicit Types (eps t : Binary64.float)
  (f : list (Query Binary64.float) -> Query Binary64.float -> Binary64.float).
Local Open Scope Q_scope.

(** One round of a binary64 run over the notebook's domain, in numbers. *)
Lemma binary64_round (n : nat) eps t f :
  (n <= 63)%nat ->
  let s0 := init Notebook.LOWER_BOUND Notebook.UPPER_BOUND in
  let s := state_after (exn:=exn) n eps t f s0 in
  let s' := state_after (exn:=exn) (S n) eps t f s0 in
  let up := Binary64.gtb (answer_at eps f s) t in
  exists q q' st : Q,
    Binary64.value (current_value s) = Some q /\
    Binary64.value (current_value s') = Some q' /\
    Binary64.value (step_size s) = Some st /\
    st == inject_Z (Notebook.UPPER_BOUND - Notebook.LOWER_BOUND) / 4
          / 2 ^ Z.of_nat n /\
    0 < st /\
    ((n <= 52)%nat -> q' == if up then q + st else q - st) /\
    Qabs (q' - (if up then q + st else q - st)) <= 1 / inject_Z (2 ^ 22) /\
    (if up then q <= q' else q' <= q).
Proof.
  intros Hn s0 s s' up.
  destruct (notebook_run64 (exn:=exn) n eps t f) as [Hc Hs].
  destruct (notebook_run64 (exn:=exn) (S n) eps t f) as [Hc' _].
  fold s0 in Hc, Hs, Hc'. fold s in Hc, Hs. fold s' in Hc'.
  specialize (Hs ltac:(lia)).
  set (a := decided (decisions (exn:=exn) eps t f s0)) in *.
  destruct (run64_value a n ltac:(lia)) as (q & Vq & Eq).
  destruct (run64_value a (S n) ltac:(lia)) as (q' & Vq' & Eq').
  destruct (step64_value n ltac:(lia)) as (st & Vst & Est & Sst & Pst).
  exists q, q', st.
  rewrite Hc, Hc', Hs.
  split; [exact Vq|]. split; [exact Vq'|]. split; [exact Vst|].
  split; [exact Est|]. split; [exact Pst|].
  destruct (run64_round a n Hn) as (ez & Hv & Hex & Hez & Hdir).
  cbv zeta in Hv, Hdir.
  assert (Hup : Binary64.gtb (a n) Notebook.t = up).
  { subst a. rewrite decided_gtb. reflexivity. }
  rewrite Hup in Hv, Hdir.
  set (v := scaled (run64 a n)) in *. set (v' := scaled (run64 a (S n))) in *.
  set (S := step_scaled n) in *.
  assert (Hd : (q' - (if up then q + st else q - st)) * units == inject_Z ez).
  { destruct up.
    - assert (E : ez = (v' - (v + S))%Z) by lia.
      rewrite E. unfold Z.sub. rewrite !inject_Z_plus, inject_Z_opp, inject_Z_plus.
      rewrite <- Eq, <- Eq', <- Sst. ring.
    - assert (E : ez = (v' - (v - S))%Z) by lia.
      rewrite E. unfold Z.sub.
      rewrite !inject_Z_plus, !inject_Z_opp, inject_Z_plus, inject_Z_opp.
      rewrite <- Eq, <- Eq', <- Sst. ring. }
  split; [|split].
  - intros H52. rewrite (Hex H52) in Hd.
    assert (Hz : q' - (if up then q + st else q - st) == 0).
    { apply (Qmult_inj_r _ _ units units_neq0). rewrite Hd. ring. }
    lra.
  - apply (Qabs_scaled _ ez 1 Hd). lia.
  - destruct up.
    + apply (scaled_le _ _ _ _ Eq Eq' Hdir).
    + apply (scaled_le _ _ _ _ Eq' Eq Hdir).
Qed.

End Round.

(** (C5, as the cell behaves) A round assigns the sum of the estimate and
    the step when the oracle's result is strictly above the threshold, and
    their difference otherwise, equality included; in binary64 the sum or
    difference is rounded to the nearest float.  Over the notebook's domain,
    whatever [eps], [t] and the oracle: in the first 53 rounds nothing is
    rounded and the estimate moves by exactly one step, up if and only if
    the result is above the threshold; in rounds 54 to 64 it moves to within
    [2^-22] of one step away, and never against the direction of the round.
    In exact arithmetic every round of every run over a valid domain moves
    the estimate by exactly one step. *)
Theorem binary64_round_moves :
  (forall (exn : Type) (LOWER_BOUND UPPER_BOUND : Z) (eps t : Binary64.float)
          (f : list (Query Binary64.float) -> Query Binary64.float
               -> Binary64.float) (n : nat),
     let s := state_after (exn:=exn) n eps t f
                (init LOWER_BOUND UPPER_BOUND) in
     let s' := state_after (exn:=exn) (S n) eps t f
                 (init LOWER_BOUND UPPER_BOUND) in
     current_value s' =
       if Binary64.gtb (answer_at eps f s) t
       then Binary64.add (current_value s) (step_size s)
       else Binary64.sub (current_value s) (step_size s)) /\
  (forall (exn : Type) (eps t : Binary64.float)
          (f : list (Query Binary64.float) -> Query Binary64.float
               -> Binary64.float) (n : nat),
     (n <= 63)%nat ->
     let s := state_after (exn:=exn) n eps t f
                (init Notebook.LOWER_BOUND Notebook.UPPER_BOUND) in
     let s' := state_after (exn:=exn) (S n) eps t f
                 (init Notebook.LOWER_BOUND Notebook.UPPER_BOUND) in
     let up := Binary64.gtb (answer_at eps f s) t in
     exists q q' st : Q,
       Binary64.value (current_value s) = Some q /\
       Binary64.value (current_value s') = Some q' /\
       Binary64.value (step_size s) = Some st /\
       0 < st /\
       ((n <= 52)%nat -> q' == if up then q + st else q - st) /\
       Qabs (q' - (if up then q + st else q - st)) <= 1 / inject_Z (2 ^ 22) /\
       (if up then q <= q' else q' <= q))%Q /\
  (forall (exn : Type) (LOWER_BOUND UPPER_BOUND k : Z) (eps t : Q)
          (f : list (Query Q) -> Query Q -> Q) (i : nat),
     (LOWER_BOUND < UPPER_BOUND)%Z -> (Z.of_nat i < k)%Z ->
     let s := state_after (exn:=exn) i eps t f
                (init LOWER_BOUND UPPER_BOUND) in
     let s' := state_after (exn:=exn) (S i) eps t f
                 (init LOWER_BOUND UPPER_BOUND) in
     let result := answer_at eps f s in
     (current_value s' == current_value s + step_size s <-> t < result) /\
     (current_value s' == current_value s - step_size s <-> result <= t))%Q.
Proof.
  split; [|split].
  - intros exn LOWER_BOUND UPPER_BOUND eps t f n s s'.
    destruct (state_after_round (exn:=exn) n eps t f
                (init LOWER_BOUND UPPER_BOUND)) as (Hc & _ & _).
    exact Hc.
  - intros exn eps t f n Hn s s' up.
    destruct (binary64_round (exn:=exn) n eps t f Hn)
      as (q & q' & st & Vq & Vq' & Vst & _ & Pst & Hex & Herr & Hdir).
    exists q, q', st. repeat split; assumption.
  - intros exn LOWER_BOUND UPPER_BOUND k eps t f i HLU Hi s s' result.
    destruct (exact_round_moves_one_step (exn:=exn) LOWER_BOUND UPPER_BOUND k
                eps t f i HLU Hi) as (_ & _ & H1 & H2).
    split; [exact H1 | exact H2].
Qed.


(** ** A comparison is never undone, through round 53 *)

Section Displacement.
Local Open Scope Z_scope.

(** While nothing is rounded, the rounds from [i] to [j] move the estimate
    by at most the steps they spend. *)
Lemma run64_displacement (a : nat -> Binary64.float) (i j : nat) :
  (i <= j <= 53)%nat ->
  Z.abs (scaled (run64 a j) - scaled (run64 a i))
  <= 2 * step_scaled i - 2 * step_scaled j.
Proof.
  intros [Hij Hj]. induction j as [|j IH].
  - replace i with O by lia. lia.
  - destruct (Nat.eq_dec i (S j)) as [->|Hne]; [lia|].
    specialize (IH ltac:(lia) ltac:(lia)).
    destruct (run64_round a j ltac:(lia)) as (ez & Hv & Hex & _).
    cbv zeta in Hv. rewrite (Hex ltac:(lia)) in Hv.
    pose proof (step_scaled_succ j ltac:(lia)) as HS.
    pose proof (step_scaled_bounds (S j) ltac:(lia)) as HB.
    destruct (Binary64.gtb (a j) Notebook.t); lia.
Qed.

Lemma run64_never_returns (a : nat -> Binary64.float) (i n : nat) :
  (i < n <= 53)%nat ->
  if Binary64.gtb (a i) Notebook.t
  then scaled (run64 a i) < scaled (run64 a n)
  else scaled (run64 a n) < scaled (run64 a i).
Proof.
  intros Hin.
  pose proof (run64_displacement a (S i) n ltac:(lia)) as D.
  destruct (run64_round a i ltac:(lia)) as (ez & Hv & Hex & _).
  cbv zeta in Hv. rewrite (Hex ltac:(lia)) in Hv.
  pose proof (step_scaled_succ i ltac:(lia)) as HS.
  assert (HB : 0 < step_scaled n)
    by (unfold step_scaled; apply Z.pow_pos_nonneg; lia).
  destruct (Binary64.gtb (a i) Notebook.t); lia.
Qed.

End Displacement.

(** (X11) Through round 53 of a binary64 run over the notebook's domain the
    estimate never comes back to a threshold it has left.  If round [i]
    found the oracle's result above [t], every later estimate, up to the one
    after round 53, is strictly above the estimate round [i] started with;
    otherwise it is strictly below.  A comparison that noise got wrong is
    not made up for by the rounds after it. *)
Theorem binary64_estimate_never_returns (exn : Type) (eps t : Binary64.float)
    (f : list (Query Binary64.float) -> Query Binary64.float -> Binary64.float)
    (i n : nat) :
  (i < n)%nat -> (n <= 53)%nat ->
  let s0 := init (V:=Binary64.float)
              Notebook.LOWER_BOUND Notebook.UPPER_BOUND in
  let si := state_after (exn:=exn) i eps t f s0 in
  let sn := state_after (exn:=exn) n eps t f s0 in
  exists qi qn : Q,
    Binary64.value (current_value si) = Some qi /\
    Binary64.value (current_value sn) = Some qn /\
    (Binary64.gtb (answer_at eps f si) t = true -> qi < qn)%Q /\
    (Binary64.gtb (answer_at eps f si) t = false -> qn < qi)%Q.
Proof.
  intros Hin Hn s0 si sn.
  destruct (notebook_run64 (exn:=exn) i eps t f) as [Hci _].
  destruct (notebook_run64 (exn:=exn) n eps t f) as [Hcn _].
  fold s0 in Hci, Hcn. fold si in Hci. fold sn in Hcn.
  set (a := decided (decisions (exn:=exn) eps t f s0)) in *.
  destruct (run64_value a i ltac:(lia)) as (qi & Vi & Ei).
  destruct (run64_value a n ltac:(lia)) as (qn & Vn & En).
  exists qi, qn. rewrite Hci, Hcn.
  split; [exact Vi|]. split; [exact Vn|].
  pose proof (run64_never_returns a i n ltac:(lia)) as H.
  assert (Hup : Binary64.gtb (a i) Notebook.t
                = Binary64.gtb (answer_at eps f si) t).
  { subst a. rewrite decided_gtb. reflexivity. }
  rewrite Hup in H.
  split; intros Hd; rewrite Hd in H.
  - exact (scaled_lt _ _ _ _ Ei En H).
  - exact (scaled_lt _ _ _ _ En Ei H).
Qed.

(** ** Where the estimate ends *)

Section Bracket64.
Context {exn : Type}.
Implicit Types (eps t : Binary64.float)
  (f : list (Query Binary64.float) -> Query Binary64.float -> Binary64.float).
Local Open Scope Q_scope.

Lemma rounding_error_0 (n : nat) : (n <= 53)%nat -> rounding_error n == 0.
Proof.
  intros Hn. unfold rounding_error. replace (n - 53)%nat with O by lia.
  reflexivity.
Qed.

Lemma rounding_error_S (n : nat) :
  (53 <= n)%nat ->
  rounding_error (S n) == rounding_error n + 1 / inject_Z (2 ^ 22).
Proof.
  intros Hn. unfold rounding_error.
  replace (Z.of_nat (S n - 53)) with (Z.of_nat (n - 53) + 1)%Z by lia.
  rewrite inject_Z_plus. field. discriminate.
Qed.

Lemma rounding_error_nonneg (n : nat) : 0 <= rounding_error n.
Proof.
  unfold rounding_error. apply Qle_shift_div_l; [reflexivity|].
  rewrite Qmult_0_l. change 0 with (inject_Z 0). rewrite <- Zle_Qle. lia.
Qed.

(** The threshold of a round of a run over the notebook's domain is a valid
    float. *)
Lemma notebook_threshold_valid (n : nat) eps t f :
  (n <= 64)%nat ->
  Binary64.valid (current_value (state_after (exn:=exn) n eps t f
                          (init Notebook.LOWER_BOUND Notebook.UPPER_BOUND)))
  = true.
Proof.
  intros Hn. destruct (notebook_run64 (exn:=exn) n eps t f) as [-> _].
  now apply run64_valid.
Qed.

(** An oracle that finds the result above [t] at every threshold below [m],
    and not above [t] at every threshold from [M] on, keeps the estimate of
    the binary64 run within two steps of the interval from [m] to [M], up
    to what rounding adds from round 54 on. *)
Lemma binary64_bracket_tracking (m M : Q) eps t f (n : nat) :
  m <= inject_Z Notebook.UPPER_BOUND ->
  inject_Z Notebook.LOWER_BOUND <= M ->
  (n <= 64)%nat ->
  (forall h q x, Binary64.valid (threshold q) = true ->
     Binary64.value (threshold q) = Some x -> x < m ->
     Binary64.gtb (f h q) t = true) ->
  (forall h q x, Binary64.valid (threshold q) = true ->
     Binary64.value (threshold q) = Some x -> M <= x ->
     Binary64.gtb (f h q) t = false) ->
  let st := inject_Z (Notebook.UPPER_BOUND - Notebook.LOWER_BOUND) / 4
            / 2 ^ Z.of_nat n in
  exists q : Q,
    Binary64.value
      (current_value (state_after (exn:=exn) n eps t f
                        (init Notebook.LOWER_BOUND Notebook.UPPER_BOUND)))
    = Some q /\
    m - 2 * st - rounding_error n <= q <= M + 2 * st + rounding_error n.
Proof.
  intros Hm HM Hn Hlow Hhigh. cbv zeta.
  induction n as [|n IH].
  - exists 0. split; [reflexivity|].
    assert (HL : inject_Z Notebook.LOWER_BOUND == - 4294967296) by reflexivity.
    assert (HU : inject_Z Notebook.UPPER_BOUND == 4294967296) by reflexivity.
    assert (H0 : inject_Z (Notebook.UPPER_BOUND - Notebook.LOWER_BOUND) / 4
                 / 2 ^ Z.of_nat 0 == 2147483648) by reflexivity.
    rewrite H0, (rounding_error_0 0) by lia. lra.
  - destruct (IH ltac:(lia)) as (q0 & V0 & B0). clear IH.
    destruct (binary64_round (exn:=exn) n eps t f ltac:(lia))
      as (q & q' & st & Vq & Vq' & Vst & Est & Pst & Hex & Herr & _).
    rewrite V0 in Vq. injection Vq as <-.
    exists q'. split; [exact Vq'|].
    rewrite step_Q_succ, <- Est. rewrite <- Est in B0.
    pose proof (notebook_threshold_valid n eps t f ltac:(lia)) as Vt.
    set (s := state_after n eps t f
                (init Notebook.LOWER_BOUND Notebook.UPPER_BOUND)) in *.
    assert (Hhalf : st / 2 == st * (1 # 2)) by field.
    rewrite Hhalf.
    pose proof (rounding_error_nonneg n) as En.
    assert (HE : rounding_error (S n) == rounding_error n
                 \/ (53 <= n)%nat /\
                    rounding_error (S n)
                    == rounding_error n + 1 / inject_Z (2 ^ 22)).
    { destruct (le_lt_dec n 52) as [H|H].
      - left. now rewrite !rounding_error_0 by lia.
      - right. split; [lia | apply rounding_error_S; lia]. }
    assert (Hmove : exists e : Q,
               q' == (if Binary64.gtb (answer_at eps f s) t
                      then q0 + st else q0 - st) + e /\
               - (rounding_error (S n) - rounding_error n) <= e
               <= rounding_error (S n) - rounding_error n).
    { exists (q' - (if Binary64.gtb (answer_at eps f s) t
                    then q0 + st else q0 - st)).
      split; [ring|].
      destruct HE as [HE|[H53 HE]].
      - rewrite HE.
        assert (Hz : q' - (if Binary64.gtb (answer_at eps f s) t
                           then q0 + st else q0 - st) == 0).
        { rewrite (Hex ltac:(destruct (le_lt_dec n 52); [lia|];
                             rewrite rounding_error_S in HE by lia;
                             exfalso; revert HE;
                             generalize (rounding_error n); intros r HE;
                             assert (1 / inject_Z (2 ^ 22) == 0) by lra;
                             discriminate)). ring. }
        rewrite Hz. lra.
      - rewrite HE. apply Qabs_Qle_condition in Herr.
        assert (Hr : rounding_error n + 1 / inject_Z (2 ^ 22) - rounding_error n
                     == 1 / inject_Z (2 ^ 22)) by ring.
        rewrite Hr. exact Herr. }
    destruct Hmove as (e & Hq' & He).
    unfold answer_at in Hq'.
    destruct (Binary64.gtb (f (ledger s)
                {| threshold := current_value s; epsilon := eps |}) t) eqn:Hup.
    + destruct (Qlt_le_dec q0 M) as [HqM|HqM].
      * rewrite Hq'. lra.
      * rewrite (Hhigh (ledger s)
                   {| threshold := current_value s; epsilon := eps |} q0
                   Vt V0 HqM) in Hup. discriminate.
    + destruct (Qlt_le_dec q0 m) as [Hqm|Hqm].
      * rewrite (Hlow (ledger s)
                   {| threshold := current_value s; epsilon := eps |} q0
                   Vt V0 Hqm) in Hup. discriminate.
      * rewrite Hq'. lra.
Qed.

End Bracket64.


Section Noiseless64.
Context {exn : Type}.
Local Open Scope Q_scope.

(** Against a noiseless oracle for the maximum [M], the binary64 run over
    the notebook's domain ends within two of its last steps of [M], up to
    what rounding adds from round 54 on. *)
Lemma binary64_noiseless_run (M : Binary64.float) (qM : Q)
    (eps t : Binary64.float) (n : nat) :
  Binary64.valid M = true -> Binary64.value M = Some qM ->
  inject_Z Notebook.LOWER_BOUND <= qM <= inject_Z Notebook.UPPER_BOUND ->
  Binary64.gtb (Binary64.of_int 1) t = true ->
  Binary64.gtb (Binary64.of_int 0) t = false ->
  (n <= 64)%nat ->
  exists q : Q,
    Binary64.value
      (current_value (state_after (exn:=exn) n eps t (noiseless_answer M)
                        (init Notebook.LOWER_BOUND Notebook.UPPER_BOUND)))
    = Some q /\
    Qabs (q - qM) <=
      inject_Z (Notebook.UPPER_BOUND - Notebook.LOWER_BOUND)
      / 2 ^ (Z.of_nat n + 1) + rounding_error n.
Proof.
  intros VM HM [Hlo Hhi] H1 H0 Hn.
  destruct (binary64_bracket_tracking (exn:=exn) qM qM eps t
              (noiseless_answer M) n Hhi Hlo Hn) as (q & Vq & Hq).
  - intros h qu x Vx Hx Hlt. unfold noiseless_answer.
    change (gtb M (threshold qu)) with (Binary64.gtb M (threshold qu)).
    rewrite (gtb_value M (threshold qu) qM x VM Vx HM Hx).
    assert (E : Qle_bool qM x = false).
    { apply not_true_iff_false. rewrite Qle_bool_iff. now apply Qlt_not_le. }
    rewrite E. exact H1.
  - intros h qu x Vx Hx Hle. unfold noiseless_answer.
    change (gtb M (threshold qu)) with (Binary64.gtb M (threshold qu)).
    rewrite (gtb_value M (threshold qu) qM x VM Vx HM Hx).
    assert (E : Qle_bool qM x = true) by now apply Qle_bool_iff.
    rewrite E. exact H0.
  - exists q. split; [exact Vq|].
    cbv zeta in Hq. rewrite two_steps_Q in Hq.
    apply Qabs_Qle_condition. lra.
Qed.

End Noiseless64.

(** (C2, as the cell behaves) Against a noiseless oracle for a maximum [M]
    of the notebook's domain [[-2^32, 2^32]], with a threshold [t] that
    tells the oracle's two answers apart ([0 <= t < 1]), the binary64 run of
    [k <= 64] rounds ends within [(upper-lower)/2^(k+1)] of [M] through
    [k = 53], and within that plus [(k - 53) * 2^-22] from [k = 54] on, when
    sums are rounded.  The recorded session ([k = 64], [t = 0.02], maximum
    -151861469) ends on the maximum itself.  In exact arithmetic the
    estimate is within [(upper-lower)/2^(k+1)] of [M] for every
    [k >= 10]. *)
Theorem binary64_noiseless_convergence :
  (forall (exn : Type) (M : Binary64.float) (qM : Q)
          (eps t : Binary64.float) (k : Z),
     Binary64.valid M = true -> Binary64.value M = Some qM ->
     inject_Z Notebook.LOWER_BOUND <= qM <= inject_Z Notebook.UPPER_BOUND ->
     Binary64.gtb (Binary64.of_int 1) t = true ->
     Binary64.gtb (Binary64.of_int 0) t = false ->
     (0 <= k <= 64)%Z ->
     let bound :=
       inject_Z (Notebook.UPPER_BOUND - Notebook.LOWER_BOUND) / 2 ^ (k + 1) in
     let r := EstimateMax Notebook.LOWER_BOUND Notebook.UPPER_BOUND k eps t
                (noiseless (exn:=exn) M) in
     exists q : Q,
       Binary64.value (estimate r) = Some q /\
       Qabs (q - qM) <= bound + rounding_error (Z.to_nat k) /\
       ((k <= 53)%Z -> Qabs (q - qM) <= bound))%Q /\
  (let r := Notebook.run (noiseless (Binary64.of_int Notebook.true_max)) in
   estimate r = Binary64.of_int Notebook.true_max /\
   (exists q : Q,
      Binary64.value (estimate r) = Some q /\
      q == inject_Z Notebook.true_max)%Q /\
   snd r = Completed /\ calls r = 64%nat) /\
  (forall (exn : Type) (M : Q) (k : Z) (eps t : Q),
     inject_Z Notebook.LOWER_BOUND <= M <= inject_Z Notebook.UPPER_BOUND ->
     (10 <= k)%Z ->
     0 <= t < 1 ->
     let r := EstimateMax Notebook.LOWER_BOUND Notebook.UPPER_BOUND k eps t
                (noiseless (exn:=exn) M) in
     Qabs (estimate r - M) <=
       inject_Z (Notebook.UPPER_BOUND - Notebook.LOWER_BOUND) / 2 ^ (k + 1))%Q.
Proof.
  split; [|split].
  - intros exn M qM eps t k VM HM HqM H1 H0 Hk bound r.
    destruct (binary64_noiseless_run (exn:=exn) M qM eps t (Z.to_nat k)
                VM HM HqM H1 H0 ltac:(lia)) as (q & Vq & Hq).
    rewrite Z2Nat.id in Hq by lia.
    exists q. split; [exact Vq|]. split; [exact Hq|].
    intros H53. rewrite rounding_error_0 in Hq by lia.
    subst bound. lra.
  - cbv zeta. split; [vm_compute; reflexivity|].
    split; [|split; vm_compute; reflexivity].
    eexists. split; [vm_compute; reflexivity | reflexivity].
  - intros exn M k eps t HM Hk Ht r.
    destruct (exact_noiseless_convergence (exn:=exn) M k eps t HM Hk Ht) as [H _].
    exact H.
Qed.

(** ** Raising answers *)

Section Monotone64.
Context {exn : Type}.
Local Open Scope Q_scope.

(** In the binary64 run over the notebook's domain, raising answers never
    lowers the estimate. *)
Lemma binary64_scripted_ordered (eps t : Binary64.float)
    (a b : nat -> Binary64.float) (n : nat) :
  (n <= 64)%nat -> Binary64.valid t = true ->
  (forall i : nat, (i < n)%nat ->
     Binary64.valid (a i) = true /\ Binary64.valid (b i) = true /\
     SFleb (b i) (a i) = true) ->
  exists qa qb : Q,
    Binary64.value
      (current_value (state_after (exn:=exn) n eps t (script a)
                        (init Notebook.LOWER_BOUND Notebook.UPPER_BOUND)))
    = Some qa /\
    Binary64.value
      (current_value (state_after (exn:=exn) n eps t (script b)
                        (init Notebook.LOWER_BOUND Notebook.UPPER_BOUND)))
    = Some qb /\
    qb <= qa.
Proof.
  intros Hn Vt Hab.
  destruct (notebook_run64 (exn:=exn) n eps t (script a)) as [-> _].
  destruct (notebook_run64 (exn:=exn) n eps t (script b)) as [-> _].
  set (s0 := init (V:=Binary64.float) Notebook.LOWER_BOUND Notebook.UPPER_BOUND).
  set (da := decisions (exn:=exn) eps t (script a) s0).
  set (db := decisions (exn:=exn) eps t (script b) s0).
  destruct (run64_value (decided da) n Hn) as (qa & Va & Ea).
  destruct (run64_value (decided db) n Hn) as (qb & Vb & Eb).
  exists qa, qb. split; [exact Va|]. split; [exact Vb|].
  apply (scaled_le _ _ _ _ Eb Ea).
  destruct n as [|n]; [apply Z.le_refl|].
  apply run64_ordered; [lia|].
  intros i Hi. rewrite !decided_gtb. subst da db.
  rewrite !decisions_script by reflexivity.
  destruct (Hab i ltac:(lia)) as (Vai & Vbi & Hle).
  now apply gtb_raise.
Qed.

End Monotone64.

(** ** Rounding to the nearest float

    Sums and differences of floats, counted in units of [2^-1074]: the
    exact sum or difference, rounded by [snap].  This holds of every float,
    and [snap] keeps the order. *)

Section Nearest.
Local Open Scope Z_scope.

(** Below the normal range nothing is rounded: the mantissa is written at
    the smallest exponent. *)
Lemma binary_round_subnormal (s : bool) (p : positive) (e : Z) :
  -1074 <= e -> dig p + e - 53 < -1074 ->
  binary_round 53 1024 s p e =
  S754_finite s (Z.to_pos (Z.pos p * 2 ^ (e + 1074))) (-1074).
Proof.
  intros He Hd. pose proof (dig_pos p) as Hp.
  assert (Hmain : forall mz : positive,
             Z.pos mz = Z.pos p * 2 ^ (e + 1074) ->
             binary_round_aux 53 1024 s (Z.pos mz) (-1074) loc_Exact =
             S754_finite s (Z.to_pos (Z.pos p * 2 ^ (e + 1074))) (-1074)).
  { intros mz Hmz.
    assert (Hdz : dig mz = dig p + (e + 1074))
      by (apply (dig_scale p mz (e + 1074)); [lia | exact Hmz]).
    unfold binary_round_aux, shr_fexp, fexp, emin. cbn [Zdigits2].
    fold (dig mz). rewrite Hdz.
    replace (Z.max (dig p + (e + 1074) + -1074 - 53) (3 - 1024 - 53) - -1074)
      with 0 by lia.
    cbn [shr shr_record_of_loc loc_of_shr_record shr_m round_nearest_even].
    cbn [Zdigits2]. fold (dig mz). rewrite Hdz.
    replace (Z.max (dig p + (e + 1074) + -1074 - 53) (3 - 1024 - 53) - -1074)
      with 0 by lia.
    cbn [shr shr_record_of_loc shr_m].
    change (-1074 <=? 1024 - 53) with true. cbv iota.
    now rewrite <- Hmz, Pos2Z.id. }
  unfold binary_round, shl_align, fexp, emin. fold (dig p).
  replace (Z.max (dig p + e - 53) (3 - 1024 - 53)) with (-1074) by lia.
  destruct (-1074 - e) as [|d|d] eqn:Hde; try lia.
  - assert (e = -1074) by lia. subst e. apply Hmain.
    simpl (-1074 + 1074). lia.
  - apply Hmain. rewrite shl_iter. do 2 f_equal. lia.
Qed.

(** [binary_normalize] sees the number, whatever the exponent it is written
    with. *)
Lemma binary_round_units (s : bool) (p p' : positive) (e : Z) :
  -1074 <= e -> Z.pos p' = Z.pos p * 2 ^ (e + 1074) ->
  binary_round 53 1024 s p e = binary_round 53 1024 s p' (-1074).
Proof.
  intros He Hp'. pose proof (dig_pos p) as Hp.
  assert (Hd' : dig p' = dig p + (e + 1074))
    by (apply (dig_scale p p' (e + 1074)); [lia | exact Hp']).
  destruct (Z_lt_le_dec (dig p + e - 53) (-1074)) as [Hsub|Hnor].
  - rewrite !binary_round_subnormal by lia.
    simpl (-1074 + 1074). rewrite Z.pow_0_r, Z.mul_1_r, <- Hp'. reflexivity.
  - pose proof (binary_round_scale s p p' (e + 1074) e ltac:(lia) Hp' Hnor)
      as H.
    replace (e - (e + 1074)) with (-1074) in H by lia. now symmetry.
Qed.

Lemma nearest_scale (z e : Z) :
  -1074 <= e ->
  binary_normalize 53 1024 z e false = nearest (z * 2 ^ (e + 1074)).
Proof.
  intros He. unfold nearest.
  assert (H2 : 0 < 2 ^ (e + 1074)) by (apply Z.pow_pos_nonneg; lia).
  destruct z as [|p|p].
  - reflexivity.
  - destruct (Z.pos p * 2 ^ (e + 1074)) as [|p'|p'] eqn:Hp'; try lia.
    cbn [binary_normalize]. apply binary_round_units; [lia | now rewrite Hp'].
  - destruct (Z.neg p * 2 ^ (e + 1074)) as [|p'|p'] eqn:Hp'; try lia.
    cbn [binary_normalize]. apply binary_round_units; [lia | lia].
Qed.

(** What the nearest float counts, in units of [2^-1074]. *)
Lemma ord_binary_round (s : bool) (p : positive) :
  ord (binary_round 53 1024 s p (-1074)) = cond_Zopp s (snap_pos p) /\
  Binary64.valid (binary_round 53 1024 s p (-1074)) = true /\
  is_nan (binary_round 53 1024 s p (-1074)) = false.
Proof.
  pose proof (dig_pos p) as Hp. unfold snap_pos.
  destruct (Z.ltb_spec (dig p) 53) as [Hsub|Hnor].
  - rewrite binary_round_subnormal by lia.
    simpl (-1074 + 1074). rewrite Z.pow_0_r, Z.mul_1_r, Pos2Z.id.
    pose proof (dig_bounds p) as [_ Hh].
    assert (2 ^ dig p <= 2 ^ 53) by (apply Z.pow_le_mono_r; lia).
    assert (2 ^ 53 < 2 ^ 2098) by (apply Z.pow_lt_mono_r; lia).
    destruct (Z.ltb_spec (Z.pos p) (2 ^ 2098)); [|lia].
    split; [|split; [|reflexivity]].
    + cbn [ord]. simpl (-1074 + 1074). now rewrite Z.pow_0_r, Z.mul_1_r.
    + unfold Binary64.valid, Binary64.prec, Binary64.emax, valid_binary, bounded,
    canonical_mantissa, fexp, emin.
      fold (dig p). apply andb_true_intro. split.
      * apply Z.eqb_eq. lia.
      * reflexivity.
  - rewrite binary_round_cases by lia.
    pose proof (rnd_mant_bounds p) as Hb.
    unfold rne_pos.
    assert (P : 0 < 2 ^ (dig p - 53)) by (apply Z.pow_pos_nonneg; lia).
    destruct (Z.ltb_spec (rnd_mant p) (2 ^ 53)) as [Hlt|Hge].
    + destruct (Z.leb_spec (dig p + -1074 - 53) 971) as [He|He].
      * assert (Hlim : rnd_mant p * 2 ^ (dig p - 53) < 2 ^ 2098).
        { assert (2 ^ (dig p - 53) <= 2 ^ 2045)
            by (apply Z.pow_le_mono_r; lia).
          change (2 ^ 2098) with (2 ^ 53 * 2 ^ 2045). nia. }
        destruct (Z.ltb_spec (rnd_mant p * 2 ^ (dig p - 53)) (2 ^ 2098));
          [|lia].
        split; [|split; [|reflexivity]].
        -- cbn [ord]. rewrite Z2Pos.id by lia.
           replace (dig p + -1074 - 53 + 1074) with (dig p - 53) by lia.
           reflexivity.
        -- apply finite_valid; [|lia].
           apply dig_unique. rewrite Z2Pos.id by lia. simpl (53 - 1). lia.
      * assert (Hlim : 2 ^ 2098 <= rnd_mant p * 2 ^ (dig p - 53)).
        { assert (2 ^ 2046 <= 2 ^ (dig p - 53))
            by (apply Z.pow_le_mono_r; lia).
          change (2 ^ 2098) with (2 ^ 52 * 2 ^ 2046). nia. }
        destruct (Z.ltb_spec (rnd_mant p * 2 ^ (dig p - 53)) (2 ^ 2098));
          [lia|].
        split; [reflexivity | split; reflexivity].
    + assert (Hr : rnd_mant p = 2 ^ 53) by lia. rewrite Hr.
      destruct (Z.leb_spec (dig p + -1074 - 53 + 1) 971) as [He|He].
      * assert (Hlim : 2 ^ 53 * 2 ^ (dig p - 53) < 2 ^ 2098).
        { assert (2 ^ (dig p - 53) <= 2 ^ 2044)
            by (apply Z.pow_le_mono_r; lia).
          change (2 ^ 2098) with (2 ^ 53 * 2 ^ 2045).
          assert (2 ^ 2044 < 2 ^ 2045) by (apply Z.pow_lt_mono_r; lia).
          nia. }
        destruct (Z.ltb_spec (2 ^ 53 * 2 ^ (dig p - 53)) (2 ^ 2098)); [|lia].
        split; [|split; [|reflexivity]].
        -- cbn [ord].
           replace (dig p + -1074 - 53 + 1 + 1074) with (1 + (dig p - 53))
             by lia.
           rewrite Z.pow_add_r by lia.
           change (Z.pos (Z.to_pos (2 ^ 52))) with (2 ^ 52).
           change (2 ^ 53) with (2 ^ 52 * 2 ^ 1). f_equal. ring.
        -- apply finite_valid; [reflexivity | lia].
      * assert (Hlim : 2 ^ 2098 <= 2 ^ 53 * 2 ^ (dig p - 53)).
        { assert (2 ^ 2045 <= 2 ^ (dig p - 53))
            by (apply Z.pow_le_mono_r; lia).
          change (2 ^ 2098) with (2 ^ 53 * 2 ^ 2045). nia. }
        destruct (Z.ltb_spec (2 ^ 53 * 2 ^ (dig p - 53)) (2 ^ 2098)); [lia|].
        split; [reflexivity | split; reflexivity].
Qed.

Lemma ord_nearest (z : Z) :
  ord (nearest z) = snap z /\ Binary64.valid (nearest z) = true /\
  is_nan (nearest z) = false.
Proof.
  unfold nearest. destruct z as [|p|p]; cbn [binary_normalize snap].
  - repeat split.
  - apply (ord_binary_round false p).
  - apply (ord_binary_round true p).
Qed.

End Nearest.

Section Snap.
Local Open Scope Z_scope.

Lemma snap_pos_bounds (p : positive) : 0 < snap_pos p <= 2 ^ 2200.
Proof.
  unfold snap_pos.
  assert (H : 2 ^ 2098 < 2 ^ 2200) by (apply Z.pow_lt_mono_r; lia).
  assert (H0 : 0 < 2 ^ 2200) by (apply Z.pow_pos_nonneg; lia).
  destruct (Z.ltb_spec (dig p) 53) as [Hd|Hd].
  - destruct (Z.ltb_spec (Z.pos p) (2 ^ 2098)); lia.
  - pose proof (rne_pos_bounds p Hd) as [Hl _].
    assert (0 < 2 ^ (dig p - 1)) by (apply Z.pow_pos_nonneg; lia).
    destruct (Z.ltb_spec (rne_pos p) (2 ^ 2098)); lia.
Qed.

(** Rounding to the nearest float is monotone, overflow included. *)
Lemma snap_pos_mono (p1 p2 : positive) :
  Z.pos p1 <= Z.pos p2 -> snap_pos p1 <= snap_pos p2.
Proof.
  intros Hp. pose proof (snap_pos_bounds p1) as B1. unfold snap_pos in *.
  pose proof (dig_mono p1 p2 Hp) as Hdm.
  assert (H : 2 ^ 2098 < 2 ^ 2200) by (apply Z.pow_lt_mono_r; lia).
  assert (Hr : (if dig p1 <? 53 then Z.pos p1 else rne_pos p1)
               <= (if dig p2 <? 53 then Z.pos p2 else rne_pos p2)).
  { destruct (Z.ltb_spec (dig p1) 53) as [H1|H1];
      destruct (Z.ltb_spec (dig p2) 53) as [H2|H2]; try lia.
    - pose proof (rne_pos_bounds p2 H2) as [Hl _].
      pose proof (dig_bounds p1) as [_ Hh].
      assert (2 ^ dig p1 <= 2 ^ (dig p2 - 1)) by (apply Z.pow_le_mono_r; lia).
      lia.
    - now apply rne_pos_mono. }
  set (r1 := if dig p1 <? 53 then Z.pos p1 else rne_pos p1) in *.
  set (r2 := if dig p2 <? 53 then Z.pos p2 else rne_pos p2) in *.
  destruct (Z.ltb_spec r1 (2 ^ 2098)); destruct (Z.ltb_spec r2 (2 ^ 2098)); lia.
Qed.

Lemma snap_mono (z1 z2 : Z) : z1 <= z2 -> snap z1 <= snap z2.
Proof.
  intros Hz.
  destruct z1 as [|p1|p1]; destruct z2 as [|p2|p2]; cbn [snap]; try lia;
    try (pose proof (snap_pos_bounds p1)); try (pose proof (snap_pos_bounds p2));
    try lia.
  - now apply snap_pos_mono.
  - assert (snap_pos p2 <= snap_pos p1) by (apply snap_pos_mono; lia). lia.
Qed.

(** Far beyond the largest float everything rounds to an infinity. *)
Lemma snap_pos_far (p : positive) :
  2 ^ 2199 <= Z.pos p -> snap_pos p = 2 ^ 2200.
Proof.
  intros Hp. unfold snap_pos.
  pose proof (dig_ge p 2199 Hp) as Hd.
  destruct (Z.ltb_spec (dig p) 53); [lia|].
  pose proof (rne_pos_bounds p ltac:(lia)) as [Hl _].
  assert (2 ^ 2199 <= 2 ^ (dig p - 1)) by (apply Z.pow_le_mono_r; lia).
  assert (2 ^ 2098 < 2 ^ 2199) by (apply Z.pow_lt_mono_r; lia).
  destruct (Z.ltb_spec (rne_pos p) (2 ^ 2098)); [lia | reflexivity].
Qed.

(** A float is its own nearest float. *)
Lemma snap_pos_float (m : positive) (e : Z) (p : positive) :
  Binary64.valid (S754_finite false m e) = true ->
  Z.pos p = Z.pos m * 2 ^ (e + 1074) ->
  snap_pos p = Z.pos p /\ Z.pos p < 2 ^ 2098.
Proof.
  intros V Hp. unfold snap_pos.
  pose proof (valid_size _ _ _ V) as [_ [_ Hsz]].
  apply valid_finite in V. destruct V as (He & Hd & _).
  pose proof (dig_pos m) as Hm.
  assert (Hdp : dig p = dig m + (e + 1074))
    by (apply (dig_scale m p (e + 1074)); [lia | exact Hp]).
  assert (Hlim : Z.pos p < 2 ^ 2098).
  { rewrite Hp.
    assert (2 ^ (dig m + e + 1074) <= 2 ^ 2098)
      by (apply Z.pow_le_mono_r; lia). lia. }
  split; [|exact Hlim].
  destruct (Z.ltb_spec (dig p) 53) as [H53|H53].
  - destruct (Z.ltb_spec (Z.pos p) (2 ^ 2098)); [reflexivity | lia].
  - rewrite rne_pos_exact.
    + destruct (Z.ltb_spec (Z.pos p) (2 ^ 2098)); [reflexivity | lia].
    + exact H53.
    + rewrite Hp. apply Z.mod_divide; [pw|].
      exists (Z.pos m * 2 ^ (e + 1074 - (dig p - 53))).
      rewrite <- Z.mul_assoc, <- Z.pow_add_r by lia. do 2 f_equal. lia.
Qed.

Lemma ord_finite (s : bool) (m : positive) (e : Z) :
  ord (S754_finite s m e) = cond_Zopp s (Z.pos m * 2 ^ (e + 1074)).
Proof. reflexivity. Qed.

Lemma snap_ord (x : spec_float) :
  Binary64.valid x = true -> is_nan x = false -> snap (ord x) = ord x.
Proof.
  intros V N. destruct x as [s|s| |s m e]; try discriminate.
  - reflexivity.
  - assert (E : snap_pos (Z.to_pos (2 ^ 2200)) = 2 ^ 2200).
    { apply snap_pos_far. rewrite Z2Pos.id by (apply Z.pow_pos_nonneg; lia).
      apply Z.pow_le_mono_r; lia. }
    assert (P : 0 < 2 ^ 2200) by (apply Z.pow_pos_nonneg; lia).
    cbn [ord]. destruct s; cbn [cond_Zopp];
      destruct (2 ^ 2200) as [|q|q] eqn:Eq; try lia; cbn [snap Z.opp];
      rewrite Pos2Z.id in E; now rewrite E.
  - rewrite (valid_sign s false) in V. rewrite ord_finite.
    apply valid_finite in V as V'. destruct V' as (He & _).
    assert (P : 0 < 2 ^ (e + 1074)) by (apply Z.pow_pos_nonneg; lia).
    destruct (Z.pos m * 2 ^ (e + 1074)) as [|p|p] eqn:Ep; try lia.
    destruct (snap_pos_float m e p V) as [Hs _]; [now rewrite Ep|].
    destruct s; cbn [cond_Zopp snap Z.opp]; now rewrite Hs.
Qed.

Lemma ord_small (x : spec_float) :
  Binary64.valid x = true ->
  (forall s, x <> S754_infinity s) -> Z.abs (ord x) < 2 ^ 2098.
Proof.
  intros V Hi. destruct x as [s|s| |s m e].
  - cbn [ord Z.abs]. apply Z.pow_pos_nonneg; lia.
  - now destruct (Hi s).
  - cbn [ord Z.abs]. apply Z.pow_pos_nonneg; lia.
  - rewrite (valid_sign s false) in V. rewrite ord_finite.
    apply valid_finite in V as V'. destruct V' as (He & _).
    assert (P : 0 < 2 ^ (e + 1074)) by (apply Z.pow_pos_nonneg; lia).
    destruct (Z.pos m * 2 ^ (e + 1074)) as [|p|p] eqn:Ep; try lia.
    destruct (snap_pos_float m e p V) as [_ Hs]; [now rewrite Ep|].
    destruct s; cbn [cond_Zopp]; lia.
Qed.

Lemma snap_far (z : Z) :
  2 ^ 2199 <= z -> snap z = 2 ^ 2200.
Proof.
  intros Hz. assert (0 < 2 ^ 2199) by (apply Z.pow_pos_nonneg; lia).
  destruct z as [|p|p]; try lia. now apply snap_pos_far.
Qed.

Lemma snap_far_neg (z : Z) :
  z <= - 2 ^ 2199 -> snap z = - 2 ^ 2200.
Proof.
  intros Hz. assert (0 < 2 ^ 2199) by (apply Z.pow_pos_nonneg; lia).
  destruct z as [|p|p]; try lia. cbn [snap]. rewrite snap_pos_far; lia.
Qed.

Lemma aligned_ord (s : bool) (m : positive) (e ez : Z) :
  -1074 <= ez <= e ->
  cond_Zopp s (Z.pos (fst (shl_align m e ez))) * 2 ^ (ez + 1074) =
  ord (S754_finite s m e).
Proof.
  intros He. rewrite shl_align_fst by lia. cbn [ord].
  replace (e + 1074) with ((e - ez) + (ez + 1074)) by lia.
  rewrite (Z.pow_add_r 2 (e - ez) (ez + 1074)) by lia.
  destruct s; cbn [cond_Zopp]; ring.
Qed.

(** Sums and differences of floats are the nearest floats to the exact
    ones. *)
Lemma SFadd_nearest (sx sy : bool) (mx my : positive) (ex ey : Z) :
  -1074 <= ex -> -1074 <= ey ->
  SFadd 53 1024 (S754_finite sx mx ex) (S754_finite sy my ey) =
  nearest (ord (S754_finite sx mx ex) + ord (S754_finite sy my ey)).
Proof.
  intros Hx Hy. cbn [SFadd]. cbv zeta.
  rewrite nearest_scale by lia.
  f_equal. rewrite Z.mul_add_distr_r.
  rewrite !aligned_ord by lia. reflexivity.
Qed.

Lemma SFsub_nearest (sx sy : bool) (mx my : positive) (ex ey : Z) :
  -1074 <= ex -> -1074 <= ey ->
  SFsub 53 1024 (S754_finite sx mx ex) (S754_finite sy my ey) =
  nearest (ord (S754_finite sx mx ex) - ord (S754_finite sy my ey)).
Proof.
  intros Hx Hy. cbn [SFsub]. cbv zeta.
  rewrite nearest_scale by lia.
  f_equal. rewrite Z.mul_sub_distr_r.
  rewrite !aligned_ord by lia. reflexivity.
Qed.

(** Adding a float to the estimate, or taking it away, in units of
    [2^-1074]: whatever the estimate, short of a NaN. *)
Lemma ord_add (x : spec_float) (ss : bool) (ms : positive) (es : Z) :
  Binary64.valid x = true -> is_nan x = false ->
  Binary64.valid (S754_finite ss ms es) = true ->
  let s := S754_finite ss ms es in
  (ord (Binary64.add x s) = snap (ord x + ord s) /\
   Binary64.valid (Binary64.add x s) = true /\ is_nan (Binary64.add x s) = false) /\
  (ord (Binary64.sub x s) = snap (ord x - ord s) /\
   Binary64.valid (Binary64.sub x s) = true /\ is_nan (Binary64.sub x s) = false).
Proof.
  intros Vx Nx Vs s.
  pose proof (ord_small s Vs ltac:(discriminate)) as Hs.
  assert (H99 : 2 ^ 2098 + 2 ^ 2199 <= 2 ^ 2200).
  { change (2 ^ 2200) with (2 ^ 2199 * 2).
    assert (2 ^ 2098 < 2 ^ 2199) by (apply Z.pow_lt_mono_r; lia). lia. }
  destruct x as [sx|sx| |sx mx ex]; try discriminate.
  - (* zero *)
    split.
    + change (Binary64.add (S754_zero sx) s) with s.
      rewrite Z.add_0_l, snap_ord by (assumption || reflexivity).
      repeat split; assumption.
    + change (Binary64.sub (S754_zero sx) s) with (S754_finite (negb ss) ms es).
      assert (Vn : Binary64.valid (S754_finite (negb ss) ms es) = true)
        by (rewrite (valid_sign _ ss); exact Vs).
      assert (En : ord (S754_finite (negb ss) ms es) = - ord s).
      { subst s. rewrite !ord_finite. destruct ss; cbn [negb cond_Zopp]; lia. }
      change (ord (S754_zero sx)) with 0. rewrite Z.sub_0_l, <- En.
      rewrite snap_ord by (assumption || reflexivity).
      repeat split; assumption.
  - (* infinity *)
    change (Binary64.add (S754_infinity sx) s) with (S754_infinity sx).
    change (Binary64.sub (S754_infinity sx) s) with (S754_infinity sx).
    cbn [ord]. destruct sx; cbn [cond_Zopp].
    + rewrite !snap_far_neg by lia. repeat split.
    + rewrite !snap_far by lia. repeat split.
  - (* finite *)
    apply valid_finite in Vx as Vx'. destruct Vx' as (Hex & _).
    apply valid_finite in Vs as Vs'. destruct Vs' as (Hes & _).
    unfold Binary64.add, Binary64.sub, Binary64.prec, Binary64.emax. subst s.
    rewrite SFadd_nearest, SFsub_nearest by lia.
    split; apply ord_nearest.
Qed.

End Snap.

Section Halving.
Local Open Scope Z_scope.

(** Halving a float at the lowest exponent rounds its last bit away, to
    even; what is left is a float at the lowest exponent, or zero. *)
Lemma div_2_lowest (m : positive) :
  dig m <= 53 ->
  Binary64.div (S754_finite false m (-1074)) (S754_finite false (2 ^ 52) (-51))
    = S754_zero false \/
  exists m' : positive,
    Binary64.div (S754_finite false m (-1074))
      (S754_finite false (2 ^ 52) (-51)) = S754_finite false m' (-1074) /\
    dig m' <= 53.
Proof.
  intros Hd. pose proof (dig_pos m) as Hp. pose proof (dig_bounds m) as [_ Hm].
  assert (H53 : 2 ^ dig m <= 2 ^ 53) by (apply Z.pow_le_mono_r; lia).
  unfold Binary64.div, SFdiv, SFdiv_core_binary, Binary64.prec, Binary64.emax.
  cbn [Zdigits2]. fold (dig m).
  change (Z.pos (digits2_pos (2 ^ 52))) with 53.
  unfold fexp, emin.
  replace (Z.min (Z.max (dig m + -1074 - (53 + -51) - 53) (3 - 1024 - 53))
                 (-1074 - -51)) with (-1074) by lia.
  replace (-1074 - -51 - -1074) with 51 by lia.
  set (q := Z.pos m / 2).
  assert (Hq : Z.div_eucl (Z.shiftl (Z.pos m) 51) (Z.pos (2 ^ 52))
               = (q, if Z.odd (Z.pos m) then 2 ^ 51 else 0)).
  { rewrite Z.shiftl_mul_pow2 by lia.
    pose proof (Z.div_eucl_eq (Z.pos m * 2 ^ 51) (Z.pos (2 ^ 52)) ltac:(lia)) as E.
    pose proof (Z.mod_pos_bound (Z.pos m * 2 ^ 51) (Z.pos (2 ^ 52)) ltac:(lia)) as B.
    unfold Z.modulo in B.
    destruct (Z.div_eucl (Z.pos m * 2 ^ 51) (Z.pos (2 ^ 52))) as [q' r].
    change (Z.pos (2 ^ 52)) with (2 * 2 ^ 51) in *.
    pose proof (Z.div_mod (Z.pos m) 2 ltac:(lia)) as Em. fold q in Em.
    pose proof (Z.mod_pos_bound (Z.pos m) 2 ltac:(lia)) as Bm.
    rewrite Zmod_odd in Em, Bm.
    assert (P : 0 < 2 ^ 51) by (apply Z.pow_pos_nonneg; lia).
    destruct (Z.odd (Z.pos m)).
    - assert (q' = q) by nia. subst q'. f_equal. nia.
    - assert (q' = q) by nia. subst q'. f_equal. nia. }
  rewrite Hq.
  assert (Hq0 : 0 <= q) by (apply Z.div_pos; lia).
  assert (Hq52 : q < 2 ^ 52).
  { apply Z.div_lt_upper_bound; [lia|]. change (2 * 2 ^ 52) with (2 ^ 53). lia. }
  assert (Hloc : new_location (Z.pos (2 ^ 52))
                   (if Z.odd (Z.pos m) then 2 ^ 51 else 0)
                 = if Z.odd (Z.pos m) then loc_Inexact Eq else loc_Exact)
    by (destruct (Z.odd (Z.pos m)); reflexivity).
  rewrite Hloc.
  unfold binary_round_aux, shr_fexp, fexp, emin.
  assert (Hdq : Zdigits2 q <= 52).
  { destruct q as [|p|p]; [cbn; lia | | lia].
    cbn [Zdigits2]. fold (dig p). now apply dig_le. }
  assert (Hdq0 : 0 <= Zdigits2 q).
  { destruct q as [|p|p]; [cbn; lia | | lia].
    cbn [Zdigits2]. fold (dig p). pose proof (dig_pos p). lia. }
  replace (Z.max (Zdigits2 q + -1074 - 53) (3 - 1024 - 53) - -1074) with 0 by lia.
  cbn [shr].
  set (q' := round_nearest_even
               (shr_m (shr_record_of_loc q
                         (if Z.odd (Z.pos m) then loc_Inexact Eq else loc_Exact)))
               (loc_of_shr_record
                  (shr_record_of_loc q
                     (if Z.odd (Z.pos m) then loc_Inexact Eq else loc_Exact)))).
  assert (Hq' : 0 <= q' <= 2 ^ 52).
  { subst q'. destruct (Z.odd (Z.pos m));
      cbn [shr_record_of_loc shr_m shr_r shr_s loc_of_shr_record
           round_nearest_even]; [|lia].
    destruct (IntDef.Z.even q); lia. }
  assert (Hdq' : Zdigits2 q' <= 53 /\ 0 <= Zdigits2 q').
  { destruct q' as [|p|p]; [cbn; lia | | lia].
    cbn [Zdigits2]. fold (dig p). pose proof (dig_pos p). split; [|lia].
    apply dig_le. change (2 ^ 53) with (2 * 2 ^ 52). lia. }
  replace (Z.max (Zdigits2 q' + -1074 - 53) (3 - 1024 - 53) - -1074) with 0 by lia.
  cbn [shr shr_record_of_loc shr_m xorb].
  destruct q' as [|p|p]; [now left | | lia].
  right. exists p. split; [reflexivity|].
  cbn [Zdigits2] in Hdq'. fold (dig p) in Hdq'. lia.
Qed.

(** One exponent above the lowest, halving is still exact. *)
Lemma div_2_above_lowest (m : positive) :
  dig m = 53 ->
  Binary64.div (S754_finite false m (-1073)) (S754_finite false (2 ^ 52) (-51))
    = S754_finite false m (-1074).
Proof.
  intros Hd.
  unfold Binary64.div, SFdiv, SFdiv_core_binary, Binary64.prec, Binary64.emax.
  cbn [Zdigits2]. fold (dig m). rewrite Hd.
  change (Z.pos (digits2_pos (2 ^ 52))) with 53.
  unfold fexp, emin.
  replace (Z.min (Z.max (53 + -1073 - (53 + -51) - 53) (3 - 1024 - 53))
                 (-1073 - -51)) with (-1074) by lia.
  replace (-1073 - -51 - -1074) with 52 by lia.
  assert (Hq : Z.div_eucl (Z.shiftl (Z.pos m) 52) (Z.pos (2 ^ 52))
               = (Z.pos m, 0)).
  { rewrite Z.shiftl_mul_pow2 by lia.
    pose proof (Z.div_eucl_eq (Z.pos m * 2 ^ 52) (Z.pos (2 ^ 52)) ltac:(lia)) as E.
    pose proof (Z.mod_pos_bound (Z.pos m * 2 ^ 52) (Z.pos (2 ^ 52)) ltac:(lia)) as B.
    unfold Z.modulo in B.
    destruct (Z.div_eucl (Z.pos m * 2 ^ 52) (Z.pos (2 ^ 52))) as [q r].
    change (2 ^ 52) with (Z.pos (2 ^ 52)) in E.
    assert (q = Z.pos m) by nia. assert (r = 0) by nia. now subst. }
  rewrite Hq.
  change (new_location (Z.pos (2 ^ 52)) 0) with loc_Exact.
  unfold binary_round_aux, shr_fexp, fexp, emin.
  cbn [Zdigits2]. fold (dig m). rewrite Hd.
  change (Z.max (53 + -1074 - 53) (3 - 1024 - 53) - -1074) with 0.
  cbn [shr shr_record_of_loc shr_m shr_r shr_s loc_of_shr_record
       round_nearest_even Zdigits2].
  fold (dig m). rewrite Hd.
  change (Z.max (53 + -1074 - 53) (3 - 1024 - 53) - -1074) with 0.
  reflexivity.
Qed.

(** The step stays a float that is positive or zero, however often it is
    halved. *)
Lemma div_2_step (x : spec_float) :
  Binary64.valid x = true ->
  (x = S754_zero false \/ exists m e, x = S754_finite false m e) ->
  let h := Binary64.div x (S754_finite false (2 ^ 52) (-51)) in
  Binary64.valid h = true /\
  (h = S754_zero false \/ exists m e, h = S754_finite false m e).
Proof.
  intros V [->|(m & e & ->)]; cbv zeta.
  - split; [reflexivity | now left].
  - apply valid_finite in V. destruct V as (He & Hd & Hn).
    destruct (Z.eq_dec e (-1074)) as [->|Hne].
    + destruct (div_2_lowest m Hd) as [->|(m' & -> & Hd')].
      * split; [reflexivity | now left].
      * split; [|right; now exists m', (-1074)].
        unfold Binary64.valid, Binary64.prec, Binary64.emax, valid_binary, bounded,
    canonical_mantissa, fexp, emin.
        fold (dig m'). pose proof (dig_pos m').
        apply andb_true_intro. split; [apply Z.eqb_eq | apply Z.leb_le]; lia.
    + specialize (Hn ltac:(lia)).
      destruct (Z.eq_dec e (-1073)) as [->|Hne'].
      * rewrite div_2_above_lowest by assumption.
        split; [apply finite_valid; lia | right; now exists m, (-1074)].
      * change (-51) with (1 - 52). rewrite (div_pow2 false m e 1) by lia.
        split; [apply finite_valid; lia | right; now exists m, (e - 1)].
Qed.

(** Adding a step that is zero, or taking it away, changes nothing. *)
Lemma ord_add_zero (x : spec_float) :
  Binary64.valid x = true -> is_nan x = false ->
  let s := S754_zero false in
  (ord (Binary64.add x s) = snap (ord x + ord s) /\
   Binary64.valid (Binary64.add x s) = true /\ is_nan (Binary64.add x s) = false) /\
  (ord (Binary64.sub x s) = snap (ord x - ord s) /\
   Binary64.valid (Binary64.sub x s) = true /\ is_nan (Binary64.sub x s) = false).
Proof.
  intros V N. cbv zeta. change (ord (S754_zero false)) with 0.
  rewrite Z.add_0_r, Z.sub_0_r, snap_ord by assumption.
  destruct x as [sx|sx| |sx mx ex]; try discriminate.
  - destruct sx; repeat split.
  - repeat split.
  - repeat split; assumption.
Qed.

End Halving.

Section MonotoneEvery.
Context {exn : Type}.
Local Open Scope Z_scope.

(** The step of every round, over a domain whose width is turned into a
    float: a float that is positive or zero. *)
Lemma binary64_step_any_round (LOWER_BOUND UPPER_BOUND : Z)
    (eps t : Binary64.float)
    (f : list (Query Binary64.float) -> Query Binary64.float -> Binary64.float)
    (n : nat) :
  0 < UPPER_BOUND - LOWER_BOUND < 2 ^ 1024 - 2 ^ 970 ->
  let st := step_size (state_after (exn:=exn) n eps t f
                         (init LOWER_BOUND UPPER_BOUND)) in
  Binary64.valid st = true /\
  (st = S754_zero false \/ exists m e, st = S754_finite false m e).
Proof.
  intros Hw. cbv zeta.
  destruct (binary64_init_step LOWER_BOUND UPPER_BOUND Hw)
    as (m & e & _ & Hm & He & H0 & _).
  induction n as [|n IH].
  - change (state_after 0 eps t f (init LOWER_BOUND UPPER_BOUND))
      with (init (V:=Binary64.float) LOWER_BOUND UPPER_BOUND).
    rewrite H0. split; [apply finite_valid; lia | right; now exists m, (e - 2)].
  - destruct (state_after_round (exn:=exn) n eps t f
                (init LOWER_BOUND UPPER_BOUND)) as (_ & Hs & _).
    rewrite Hs. destruct IH as [V S]. exact (div_2_step _ V S).
Qed.

(** The step does not depend on the answers. *)
Lemma step_size_any_answers {V : Type} {A : Arith V} (n : nat) (eps t : V)
    (f g : list (Query V) -> Query V -> V) (s : Kernel V) :
  step_size (state_after (exn:=exn) n eps t f s) =
  step_size (state_after (exn:=exn) n eps t g s).
Proof. unfold state_after. now rewrite !rounds_answering_step. Qed.

(** In binary64, over every domain whose width is turned into a float and
    for every number of rounds, raising answers never lowers the estimate:
    both runs add or take away the same step, the raised run adds wherever
    the other does, and rounding to the nearest float keeps the order, also
    once an estimate has overflowed. *)
Lemma binary64_scripted_ordered_every (LOWER_BOUND UPPER_BOUND : Z)
    (eps t : Binary64.float) (a b : nat -> Binary64.float) (n : nat) :
  0 < UPPER_BOUND - LOWER_BOUND < 2 ^ 1024 - 2 ^ 970 ->
  Binary64.valid t = true ->
  (forall i : nat, (i < n)%nat ->
     Binary64.valid (a i) = true /\ Binary64.valid (b i) = true /\
     SFleb (b i) (a i) = true) ->
  let ea := current_value (state_after (exn:=exn) n eps t (script a)
                             (init LOWER_BOUND UPPER_BOUND)) in
  let eb := current_value (state_after (exn:=exn) n eps t (script b)
                             (init LOWER_BOUND UPPER_BOUND)) in
  (Binary64.valid ea = true /\ is_nan ea = false) /\
  (Binary64.valid eb = true /\ is_nan eb = false) /\
  ord eb <= ord ea.
Proof.
  intros Hw Vt Hab.
  induction n as [|n IH]; cbv zeta.
  - repeat split; apply Z.le_refl.
  - destruct IH as ((Va & Na) & (Vb & Nb) & Hle);
      [intros i Hi; apply Hab; lia |].
    destruct (state_after_round (exn:=exn) n eps t (script a)
                (init LOWER_BOUND UPPER_BOUND)) as (Ha & _).
    destruct (state_after_round (exn:=exn) n eps t (script b)
                (init LOWER_BOUND UPPER_BOUND)) as (Hb & _).
    rewrite Ha, Hb.
    rewrite (step_size_any_answers n eps t (script b) (script a)).
    destruct (binary64_step_any_round LOWER_BOUND UPPER_BOUND eps t
                (script a) n Hw) as [Vs Ss].
    pose proof (decisions_script (exn:=exn) a eps t
                  (init LOWER_BOUND UPPER_BOUND) n eq_refl) as Da.
    pose proof (decisions_script (exn:=exn) b eps t
                  (init LOWER_BOUND UPPER_BOUND) n eq_refl) as Db.
    unfold decisions in Da, Db. rewrite Da, Db.
    set (ca := current_value (state_after n eps t (script a) _)) in *.
    set (cb := current_value (state_after n eps t (script b) _)) in *.
    set (st := step_size (state_after n eps t (script a) _)) in *.
    assert (Ps : 0 <= ord st).
    { destruct Ss as [->|(m & e & ->)]; [apply Z.le_refl|].
      rewrite ord_finite. cbn [cond_Zopp].
      apply valid_finite in Vs. destruct Vs as (He & _).
      assert (0 < 2 ^ (e + 1074)) by (apply Z.pow_pos_nonneg; lia). lia. }
    assert (Oa : (ord (Binary64.add ca st) = snap (ord ca + ord st) /\
                  Binary64.valid (Binary64.add ca st) = true /\
                  is_nan (Binary64.add ca st) = false) /\
                 (ord (Binary64.sub ca st) = snap (ord ca - ord st) /\
                  Binary64.valid (Binary64.sub ca st) = true /\
                  is_nan (Binary64.sub ca st) = false)).
    { destruct Ss as [E|(m & e & E)]; rewrite E in *;
        [now apply ord_add_zero | now apply ord_add]. }
    assert (Ob : (ord (Binary64.add cb st) = snap (ord cb + ord st) /\
                  Binary64.valid (Binary64.add cb st) = true /\
                  is_nan (Binary64.add cb st) = false) /\
                 (ord (Binary64.sub cb st) = snap (ord cb - ord st) /\
                  Binary64.valid (Binary64.sub cb st) = true /\
                  is_nan (Binary64.sub cb st) = false)).
    { destruct Ss as [E|(m & e & E)]; rewrite E in *;
        [now apply ord_add_zero | now apply ord_add]. }
    destruct Oa as ((Oaa & Vaa & Naa) & (Osa & Vsa & Nsa)).
    destruct Ob as ((Oab & Vab & Nab) & (Osb & Vsb & Nsb)).
    destruct (Hab n ltac:(lia)) as (Van & Vbn & Hlen).
    pose proof (gtb_raise t (b n) (a n) Vt Van Vbn Hlen) as Hr.
    change (@add Binary64.float _) with Binary64.add.
    change (@sub Binary64.float _) with Binary64.sub.
    change (@gtb Binary64.float _) with Binary64.gtb.
    destruct (Binary64.gtb (b n) t) eqn:Gb.
    + rewrite (Hr eq_refl). repeat split; try assumption.
      rewrite Oaa, Oab. apply snap_mono. lia.
    + destruct (Binary64.gtb (a n) t) eqn:Ga.
      * repeat split; try assumption.
        rewrite Oaa, Osb. apply snap_mono. lia.
      * repeat split; try assumption.
        rewrite Osa, Osb. apply snap_mono. lia.
Qed.

End MonotoneEvery.

(** (C10) As a function of the [k] answers played to it, the estimate is
    monotone: raising any of the answers never lowers the final estimate.
    In the cell's binary64 this holds for every valid domain whose width is
    turned into a float (over a wider one the cell raises before the loop
    and there is no estimate), every [k], every [eps] and every float
    threshold, with floats compared as Python compares them ([b_i <= a_i],
    which no NaN satisfies): the two estimates compare the same way, also
    when rounds have rounded their sums or an estimate has overflowed to an
    infinity.  Over the notebook's domain and up to 64 rounds both estimates
    are numbers.  In exact arithmetic the order holds over every valid
    domain and for every [k]. *)
Theorem estimate_monotone_in_answers :
  (forall (exn : Type) (LOWER_BOUND UPPER_BOUND k : Z)
          (eps t : Binary64.float) (a b : nat -> Binary64.float),
     (0 < UPPER_BOUND - LOWER_BOUND < 2 ^ 1024 - 2 ^ 970)%Z ->
     Binary64.valid t = true ->
     (forall i : nat, (Z.of_nat i < k)%Z ->
        Binary64.valid (a i) = true /\ Binary64.valid (b i) = true /\
        SFleb (b i) (a i) = true) ->
     exists ra rb : Kernel Binary64.float * Outcome exn,
       cell LOWER_BOUND UPPER_BOUND k eps t (scripted a) = Ran ra /\
       cell LOWER_BOUND UPPER_BOUND k eps t (scripted b) = Ran rb /\
       SFleb (estimate rb) (estimate ra) = true) /\
  (forall (exn : Type) (eps t : Binary64.float)
          (a b : nat -> Binary64.float) (k : Z),
     (k <= 64)%Z -> Binary64.valid t = true ->
     (forall i : nat, (Z.of_nat i < k)%Z ->
        Binary64.valid (a i) = true /\ Binary64.valid (b i) = true /\
        SFleb (b i) (a i) = true) ->
     exists qa qb : Q,
       Binary64.value
         (estimate (EstimateMax Notebook.LOWER_BOUND Notebook.UPPER_BOUND k
                      eps t (scripted (exn:=exn) a))) = Some qa /\
       Binary64.value
         (estimate (EstimateMax Notebook.LOWER_BOUND Notebook.UPPER_BOUND k
                      eps t (scripted (exn:=exn) b))) = Some qb /\
       qb <= qa)%Q /\
  (forall (exn : Type) (LOWER_BOUND UPPER_BOUND k : Z) (eps t : Q)
          (a b : nat -> Q),
     (LOWER_BOUND < UPPER_BOUND)%Z ->
     (forall i : nat, (Z.of_nat i < k)%Z -> b i <= a i) ->
     estimate (EstimateMax LOWER_BOUND UPPER_BOUND k eps t
                 (scripted (exn:=exn) b)) <=
     estimate (EstimateMax LOWER_BOUND UPPER_BOUND k eps t
                 (scripted (exn:=exn) a)))%Q.
Proof.
  split; [|split].
  - intros exn LOWER_BOUND UPPER_BOUND k eps t a b Hw Vt Hab.
    rewrite !cell_ran by lia.
    eexists; eexists. split; [reflexivity|]. split; [reflexivity|].
    destruct (binary64_scripted_ordered_every (exn:=exn) LOWER_BOUND
                UPPER_BOUND eps t a b (Z.to_nat k) Hw Vt)
      as ((Va & Na) & (Vb & Nb) & Hle).
    { intros i Hi. apply Hab. lia. }
    change (estimate (EstimateMax LOWER_BOUND UPPER_BOUND k eps t
                        (scripted (exn:=exn) b)))
      with (current_value (state_after (exn:=exn) (Z.to_nat k) eps t
                             (script b) (init LOWER_BOUND UPPER_BOUND))).
    change (estimate (EstimateMax LOWER_BOUND UPPER_BOUND k eps t
                        (scripted (exn:=exn) a)))
      with (current_value (state_after (exn:=exn) (Z.to_nat k) eps t
                             (script a) (init LOWER_BOUND UPPER_BOUND))).
    rewrite SFleb_ord by assumption. now apply Z.leb_le.
  - intros exn eps t a b k Hk Vt Hab.
    apply (binary64_scripted_ordered (exn:=exn) eps t a b (Z.to_nat k));
      [lia | exact Vt |].
    intros i Hi. apply Hab. lia.
  - intros exn. exact (exact_estimate_monotone (exn:=exn)).
Qed.

(** * Example 1: the date-format tests *)

(** ** Python's string methods *)

Section StrLemmas.

Lemma str_eqb_eq (a b : str) : Str.eqb a b = true <-> a = b.
Proof.
  revert b; induction a as [|x a IH]; intros [|y b]; simpl;
    try (split; [discriminate | discriminate]); [tauto|].
  rewrite andb_true_iff, N.eqb_eq, IH.
  split; [intros [-> ->]; reflexivity | intros H; injection H; auto].
Qed.

Lemma startswith_app (p s : str) : Str.startswith (p ++ s) p = true.
Proof.
  induction p as [|y p IH]; simpl; [reflexivity|].
  now rewrite N.eqb_refl, IH.
Qed.

Lemma startswith_inv (s p : str) :
  Str.startswith s p = true -> s = p ++ skipn (length p) s.
Proof.
  revert s; induction p as [|y p IH]; intros s H; simpl in *; [reflexivity|].
  destruct s as [|x s]; [discriminate|].
  apply andb_true_iff in H as [Hx Hs].
  apply N.eqb_eq in Hx; subst x.
  f_equal; auto.
Qed.

Lemma startswith_head (x c : char) (s r : str) :
  Str.startswith (x :: s) (c :: r) = true -> x = c.
Proof.
  simpl; intros H; apply andb_true_iff in H as [H _].
  now apply N.eqb_eq.
Qed.

Lemma find_unfold (s sub : str) :
  Str.find s sub =
  if Str.startswith s sub then Some O
  else match s with
       | [] => None
       | _ :: s' => option_map S (Str.find s' sub)
       end.
Proof. destruct s; reflexivity. Qed.

(** Where [find] reports an occurrence, there is one. *)
Lemma find_Some (s sub : str) (j : nat) :
  Str.find s sub = Some j ->
  s = firstn j s ++ sub ++ skipn (j + length sub) s.
Proof.
  revert j; induction s as [|x s IH]; intros j H; rewrite find_unfold in H.
  - destruct (Str.startswith [] sub) eqn:E; [|discriminate].
    injection H as <-; simpl; now apply startswith_inv.
  - destruct (Str.startswith (x :: s) sub) eqn:E.
    + injection H as <-; simpl firstn; simpl app at 1.
      now apply startswith_inv.
    + destruct (Str.find s sub) as [i|] eqn:F; [|discriminate].
      simpl in H; injection H as <-.
      simpl; f_equal; now apply IH.
Qed.

Lemma startswith_length (s p : str) :
  Str.startswith s p = true -> (length p <= length s)%nat.
Proof.
  intros H; apply startswith_inv in H.
  apply (f_equal (@length _)) in H; rewrite length_app in H.
  unfold str, char in *; lia.
Qed.

Lemma find_Some_length (s sub : str) (j : nat) :
  Str.find s sub = Some j -> (j + length sub <= length s)%nat.
Proof.
  revert j; induction s as [|x s IH]; intros j H; rewrite find_unfold in H.
  - destruct (Str.startswith [] sub) eqn:E; [|discriminate].
    injection H as <-; now apply startswith_length in E.
  - destruct (Str.startswith (x :: s) sub) eqn:E.
    + injection H as <-; now apply startswith_length in E.
    + destruct (Str.find s sub) as [i|] eqn:F; [|discriminate].
      simpl in H; injection H as <-.
      specialize (IH i eq_refl); simpl; lia.
Qed.

(** The first occurrence is where the separator's first character first
    appears, when that character occurs nowhere before. *)
Lemma find_first (c : char) (r a b : str) :
  ~ In c a -> Str.find (a ++ (c :: r) ++ b) (c :: r) = Some (length a).
Proof.
  induction a as [|x a IH]; intros Hn.
  - change ([] ++ (c :: r) ++ b) with ((c :: r) ++ b).
    rewrite find_unfold, startswith_app; reflexivity.
  - rewrite find_unfold.
    destruct (Str.startswith ((x :: a) ++ (c :: r) ++ b) (c :: r)) eqn:E.
    + apply startswith_head in E; subst x; exfalso; apply Hn; now left.
    + change ((x :: a) ++ (c :: r) ++ b) with (x :: (a ++ (c :: r) ++ b)).
      cbv beta iota; rewrite IH; [reflexivity|].
      intros Hin; apply Hn; now right.
Qed.

Lemma find_absent (c : char) (r s : str) :
  ~ In c s -> Str.find s (c :: r) = None.
Proof.
  induction s as [|x s IH]; intros Hn; [reflexivity|].
  rewrite find_unfold.
  destruct (Str.startswith (x :: s) (c :: r)) eqn:E.
  - apply startswith_head in E; subst x; exfalso; apply Hn; now left.
  - rewrite IH; [reflexivity | intros Hin; apply Hn; now right].
Qed.

Lemma split_loop_unfold (fuel : nat) (s sep : str) :
  Str.split_loop fuel s sep =
  match Str.find s sep with
  | None => [s]
  | Some j =>
      match fuel with
      | O => [s]
      | S n =>
          firstn j s :: Str.split_loop n (skipn (j + length sep) s) sep
      end
  end.
Proof. destruct fuel; reflexivity. Qed.

(** [length s] iterations are enough: more change nothing. *)
Lemma split_loop_fuel (sep : str) (n m : nat) (s : str) :
  sep <> [] -> (length s <= n)%nat -> (length s <= m)%nat ->
  Str.split_loop n s sep = Str.split_loop m s sep.
Proof.
  intros Hsep; revert m s; induction n as [|n IH]; intros m s Hn Hm;
    rewrite (split_loop_unfold _ s), (split_loop_unfold m s);
    destruct (Str.find s sep) as [j|] eqn:F; try reflexivity.
  - apply find_Some_length in F.
    destruct sep; [congruence | simpl in F; lia].
  - pose proof (find_Some_length _ _ _ F) as Hj.
    assert (Hl : (1 <= length sep)%nat)
      by (destruct sep; [congruence | simpl; lia]).
    destruct m as [|m]; [lia|].
    f_equal; apply IH; rewrite length_skipn; lia.
Qed.

(** The loop of [split], as an equation. *)
Lemma split_eq (s sep : str) :
  sep <> [] ->
  Str.split s sep =
  match Str.find s sep with
  | None => [s]
  | Some j => firstn j s :: Str.split (skipn (j + length sep) s) sep
  end.
Proof.
  intros Hsep; unfold Str.split.
  rewrite split_loop_unfold.
  destruct (Str.find s sep) as [j|] eqn:F; [|reflexivity].
  pose proof (find_Some_length _ _ _ F) as Hj.
  assert (Hl : (1 <= length sep)%nat)
    by (destruct sep; [congruence | simpl; lia]).
  destruct (length s) as [|n] eqn:L; [lia|].
  f_equal; apply split_loop_fuel; [assumption | |];
    rewrite ?length_skipn; lia.
Qed.

Lemma split_first (c : char) (r a b : str) :
  ~ In c a ->
  Str.split (a ++ (c :: r) ++ b) (c :: r) = a :: Str.split b (c :: r).
Proof.
  intros Hn; rewrite split_eq by discriminate.
  rewrite find_first by assumption.
  rewrite firstn_app, firstn_all, Nat.sub_diag; simpl firstn at 1.
  rewrite app_nil_r; f_equal; f_equal.
  rewrite skipn_app, skipn_all2 by lia.
  replace (length a + length (c :: r) - length a)%nat
    with (length (c :: r)) by lia.
  simpl app at 1.
  now rewrite skipn_app, skipn_all, Nat.sub_diag.
Qed.

Lemma split_absent (c : char) (r s : str) :
  ~ In c s -> Str.split s (c :: r) = [s].
Proof.
  intros Hn; rewrite split_eq by discriminate.
  now rewrite find_absent.
Qed.

Lemma split_loop_nonempty (fuel : nat) (s sep : str) :
  Str.split_loop fuel s sep <> [].
Proof.
  rewrite split_loop_unfold.
  destruct (Str.find s sep); [destruct fuel|]; discriminate.
Qed.

Lemma join_cons (sep x : str) (rest : list str) :
  rest <> [] -> Str.join sep (x :: rest) = x ++ sep ++ Str.join sep rest.
Proof. destruct rest; [congruence | reflexivity]. Qed.

(** Joining the pieces with the separator gives the string back. *)
Lemma join_split (s sep : str) :
  sep <> [] -> Str.join sep (Str.split s sep) = s.
Proof.
  intros Hsep; unfold Str.split.
  assert (H : forall n s, (length s <= n)%nat ->
              Str.join sep (Str.split_loop n s sep) = s).
  { clear s; induction n as [|n IH]; intros s Hn;
      rewrite split_loop_unfold;
      destruct (Str.find s sep) as [j|] eqn:F; try reflexivity.
    pose proof (find_Some_length _ _ _ F) as Hj.
    assert (Hl : (1 <= length sep)%nat)
      by (destruct sep; [congruence | simpl; lia]).
    rewrite join_cons by apply split_loop_nonempty.
    rewrite IH by (rewrite length_skipn; lia).
    symmetry; now apply find_Some. }
  now apply H.
Qed.

End StrLemmas.

(** ** The date-format tests *)

Section DateFormatSpecs.
Context {U : Unicode}.

Lemma isdigit_true (s : str) :
  Str.isdigit s = true <-> s <> [] /\ forallb isdigit_char s = true.
Proof.
  unfold Str.isdigit; rewrite andb_true_iff, negb_true_iff, Nat.eqb_neq.
  destruct s; simpl; split; intros [H1 H2]; split; auto; congruence.
Qed.

Lemma isdigit_absent (c : char) (s : str) :
  isdigit_char c = false -> forallb isdigit_char s = true -> ~ In c s.
Proof.
  intros Hc Hs Hin.
  rewrite forallb_forall in Hs; specialize (Hs c Hin); congruence.
Qed.

Lemma is_day_month_year_format_same (s : str) :
  is_day_month_year_format s = is_dd_mm_yyyy_format s.
Proof. reflexivity. Qed.

Lemma is_dd_mm_yyyy_format_01 (s : str) :
  is_dd_mm_yyyy_format s = 0%Z \/ is_dd_mm_yyyy_format s = 1%Z.
Proof.
  unfold is_dd_mm_yyyy_format.
  destruct (negb _); [now left|].
  destruct (Str.split s (lit "-")) as [|d [|m [|y [|]]]]; try (now left).
  destruct (_ && _); [now right | now left].
Qed.

Lemma is_dd_mm_yyyy_format_shape (s : str) :
  is_dd_mm_yyyy_format s = 1%Z -> shape_dd_mm_yyyy s.
Proof.
  unfold is_dd_mm_yyyy_format.
  pose proof (join_split s (lit "-")) as J.
  destruct (Str.split s (lit "-")) as [|d [|m [|y [|]]]]; try discriminate.
  specialize (J ltac:(discriminate)).
  cbv beta iota zeta; simpl negb; cbv iota.
  destruct (_ && _) eqn:E; [intros _ | discriminate].
  repeat (apply andb_true_iff in E as [E ?]).
  exists d, m, y.
  repeat match goal with
         | H : Str.isdigit _ = true |- _ => apply isdigit_true in H as [_ H]
         | H : (_ =? _)%nat = true |- _ => apply Nat.eqb_eq in H
         end.
  rewrite !forallb_app.
  repeat split; try assumption; [symmetry; exact J|].
  now rewrite H, H0, H1.
Qed.

Lemma is_dd_mm_yyyy_format_accepts (s : str) :
  isdigit_char (chr "-") = false ->
  shape_dd_mm_yyyy s -> is_dd_mm_yyyy_format s = 1%Z.
Proof.
  intros Hdash (d & m & y & -> & Hd & Hm & Hy & Hall).
  rewrite !forallb_app, !andb_true_iff in Hall.
  destruct Hall as (Ad & Am & Ay).
  unfold is_dd_mm_yyyy_format.
  change (lit "-") with [chr "-"].
  rewrite split_first by (now apply isdigit_absent).
  rewrite split_first by (now apply isdigit_absent).
  rewrite split_absent by (now apply isdigit_absent).
  cbv beta iota zeta; simpl negb; cbv iota.
  rewrite Hd, Hm, Hy; simpl.
  assert (D : forall x : str, x <> [] -> forallb isdigit_char x = true ->
                              Str.isdigit x = true)
    by (intros x H1 H2; apply isdigit_true; auto).
  rewrite !D; try assumption; try reflexivity;
    intros ->; discriminate.
Qed.

Lemma is_ddmmyyyy_format_eq (s : str) :
  is_ddmmyyyy_format s =
  if (length s =? 8)%nat && forallb isdigit_char s then 1%Z else 0%Z.
Proof.
  unfold is_ddmmyyyy_format.
  destruct (length s =? 8)%nat eqn:L; [|reflexivity].
  apply Nat.eqb_eq in L.
  destruct s as [|a [|b [|c [|d [|e [|f [|g [|h [|]]]]]]]]]; try discriminate.
  unfold Str.isdigit; simpl.
  destruct (isdigit_char a), (isdigit_char b), (isdigit_char c),
    (isdigit_char d), (isdigit_char e), (isdigit_char f),
    (isdigit_char g), (isdigit_char h); reflexivity.
Qed.

Lemma is_month_str_day_year_format_01 (s : str) :
  is_month_str_day_year_format s = 0%Z \/
  is_month_str_day_year_format s = 1%Z.
Proof.
  unfold is_month_str_day_year_format.
  destruct (negb _); [now left|].
  destruct (Str.split s (lit ", ")) as [|md [|y [|]]]; try (now left).
  cbv beta iota zeta; simpl negb at 1; cbv iota.
  destruct (_ || _); [now left|].
  destruct (negb _); [now left|].
  destruct (Str.split md (lit " ")) as [|m [|d [|]]]; try (now left).
  destruct (_ && _); [now right | now left].
Qed.

Lemma is_month_str_day_year_format_shape (s : str) :
  is_month_str_day_year_format s = 1%Z -> shape_month_day_year s.
Proof.
  unfold is_month_str_day_year_format.
  destruct (negb _); [discriminate|].
  pose proof (join_split s (lit ", ")) as J.
  destruct (Str.split s (lit ", ")) as [|md [|y [|]]]; try discriminate.
  specialize (J ltac:(discriminate)).
  cbv beta iota zeta; simpl negb at 1; cbv iota.
  destruct (_ || _) eqn:E1; [discriminate|].
  apply orb_false_iff in E1 as [Ly Dy].
  apply negb_false_iff in Ly, Dy.
  apply Nat.eqb_eq in Ly; apply isdigit_true in Dy as [_ Dy].
  pose proof (join_split md (lit " ")) as K.
  destruct (Str.split md (lit " ")) as [|m [|d [|]]]; try discriminate.
  specialize (K ltac:(discriminate)).
  simpl negb; cbv iota.
  destruct (_ && _) eqn:E2; [intros _ | discriminate].
  apply andb_true_iff in E2 as [E2 Ld].
  apply andb_true_iff in E2 as [Em Dd].
  apply Nat.leb_le in Ld; apply isdigit_true in Dd as [Nd Dd].
  apply existsb_exists in Em as (n & Hn & Hmn).
  apply str_eqb_eq in Hmn; subst n.
  exists m, d, y.
  rewrite forallb_app, Dd, Dy.
  repeat split; try assumption.
  - rewrite <- J; simpl Str.join; rewrite <- K; simpl Str.join.
    now rewrite <- !app_assoc.
  - destruct d; [congruence | simpl; lia].
Qed.

Lemma month_names_plain (c : char) (m : str) :
  In m month_names -> In c m -> ascii_digit c = false /\ (c < 128)%N
                               /\ c <> chr " " /\ c <> chr ",".
Proof.
  intros Hm Hc.
  assert (H : forallb (forallb (fun c => negb (ascii_digit c)
                                 && (c <? 128)%N
                                 && negb (c =? chr " ")%N
                                 && negb (c =? chr ",")%N))
                month_names = true) by reflexivity.
  rewrite forallb_forall in H; specialize (H m Hm).
  rewrite forallb_forall in H; specialize (H c Hc).
  rewrite !andb_true_iff, !negb_true_iff, N.ltb_lt, !N.eqb_neq in H.
  tauto.
Qed.

Lemma month_names_long (m : str) :
  In m month_names -> (3 <= length m)%nat.
Proof.
  intros Hm.
  assert (H : forallb (fun m => (3 <=? length m)%nat) month_names = true)
    by reflexivity.
  rewrite forallb_forall in H; specialize (H m Hm).
  now apply Nat.leb_le.
Qed.

Lemma is_month_str_day_year_format_accepts (s : str) :
  isdigit_char (chr " ") = false -> isdigit_char (chr ",") = false ->
  shape_month_day_year s -> is_month_str_day_year_format s = 1%Z.
Proof.
  intros Hsp Hco (m & d & y & -> & Hm & Hd & Hy & Hall).
  rewrite forallb_app, andb_true_iff in Hall; destruct Hall as [Ad Ay].
  assert (Nm : ~ In (chr ",") m /\ ~ In (chr " ") m).
  { split; intros Hin;
      destruct (month_names_plain _ _ Hm Hin) as (_ & _ & A & B);
      congruence. }
  destruct Nm as [Nmc Nms].
  assert (Nmd : ~ In (chr ",") (m ++ lit " " ++ d)).
  { rewrite !in_app_iff; intros [H|[H|H]]; [now apply Nmc | |].
    - simpl in H; destruct H as [H|[]]; discriminate.
    - now apply (isdigit_absent _ _ Hco Ad). }
  unfold is_month_str_day_year_format, Str.contains.
  change (lit ", ") with (chr "," :: [chr " "]).
  replace (m ++ lit " " ++ d ++ (chr "," :: [chr " "]) ++ y)
    with ((m ++ lit " " ++ d) ++ (chr "," :: [chr " "]) ++ y)
    by (now rewrite <- !app_assoc).
  rewrite find_first by assumption.
  rewrite split_first by assumption.
  rewrite split_absent by (now apply isdigit_absent).
  cbv beta iota zeta; simpl negb at 1 2; cbv iota.
  assert (D : forall x : str, x <> [] -> forallb isdigit_char x = true ->
                              Str.isdigit x = true)
    by (intros x H1 H2; apply isdigit_true; auto).
  rewrite Hy, D by (try assumption; intros ->; discriminate).
  simpl orb; cbv iota.
  change (lit " ") with [chr " "].
  rewrite split_first by assumption.
  rewrite split_absent by (now apply isdigit_absent).
  simpl negb; cbv iota.
  rewrite D by (try assumption; intros ->; simpl in Hd; lia).
  assert (E : existsb (Str.eqb m) month_names = true)
    by (apply existsb_exists; exists m; split;
        [assumption | now apply str_eqb_eq]).
  rewrite E.
  destruct Hd as [_ Hd]; apply Nat.leb_le in Hd; now rewrite Hd.
Qed.

End DateFormatSpecs.

Section DateFormatTheorems.
Context {U : Unicode}.

Lemma shape_dd_mm_yyyy_length (s : str) :
  shape_dd_mm_yyyy s -> length s = 10%nat.
Proof.
  intros (d & m & y & -> & Hd & Hm & Hy & _).
  rewrite !length_app, Hd, Hm, Hy; reflexivity.
Qed.

Lemma shape_month_day_year_length (s : str) :
  shape_month_day_year s -> (11 <= length s)%nat.
Proof.
  intros (m & d & y & -> & Hm & Hd & Hy & _).
  apply month_names_long in Hm.
  rewrite !length_app, Hy; simpl length; lia.
Qed.

Lemma month_names_letters (c : char) (m : str) :
  In m month_names -> In c m -> (65 <= c <= 122)%N.
Proof.
  intros Hm Hc.
  assert (H : forallb (forallb (fun c => (65 <=? c)%N && (c <=? 122)%N))
                month_names = true) by reflexivity.
  rewrite forallb_forall in H; specialize (H m Hm).
  rewrite forallb_forall in H; specialize (H c Hc).
  rewrite andb_true_iff, !N.leb_le in H; exact H.
Qed.

(** (X1) [is_ddmmyyyy_format] returns 1 exactly on the strings of eight
    characters that [str.isdigit] takes for digits, and 0 on every other
    string.  Nothing else is looked at: no day or month has to exist. *)
Theorem is_ddmmyyyy_format_spec (s : str) :
  (is_ddmmyyyy_format s = 1%Z <->
   length s = 8%nat /\ Forall (fun c => isdigit_char c = true) s) /\
  (is_ddmmyyyy_format s = 0%Z \/ is_ddmmyyyy_format s = 1%Z).
Proof.
  rewrite is_ddmmyyyy_format_eq, Forall_forall, <- forallb_forall.
  rewrite <- Nat.eqb_eq, <- andb_true_iff.
  destruct (_ && _).
  - split; [tauto | now right].
  - split; [split; discriminate | now left].
Qed.

(** (X2) The dash is no digit; given that, the test of the first cell and
    its copy in the second return 1 exactly on the strings made of two
    digits, a dash, two digits, a dash and four digits, and 0 on every other
    string. *)
Theorem is_dd_mm_yyyy_format_spec (s : str) :
  isdigit_char (chr "-") = false ->
  (shape_dd_mm_yyyy s ->
   is_dd_mm_yyyy_format s = 1%Z /\ is_day_month_year_format s = 1%Z) /\
  (~ shape_dd_mm_yyyy s ->
   is_dd_mm_yyyy_format s = 0%Z /\ is_day_month_year_format s = 0%Z).
Proof.
  intros Hdash; split; intros H.
  - split; exact (is_dd_mm_yyyy_format_accepts s Hdash H).
  - destruct (is_dd_mm_yyyy_format_01 s) as [E|E]; [split; exact E|].
    exfalso; apply H; now apply is_dd_mm_yyyy_format_shape.
Qed.

(** (X3) Neither the space nor the comma is a digit; given that,
    [is_month_str_day_year_format] returns 1 exactly on the strings made of
    an English month name, a space, one or two digits, a comma and a space,
    and four digits, and 0 on every other string. *)
Theorem is_month_str_day_year_format_spec (s : str) :
  isdigit_char (chr " ") = false -> isdigit_char (chr ",") = false ->
  (shape_month_day_year s -> is_month_str_day_year_format s = 1%Z) /\
  (~ shape_month_day_year s -> is_month_str_day_year_format s = 0%Z).
Proof.
  intros Hsp Hco; split; intros H.
  - now apply is_month_str_day_year_format_accepts.
  - destruct (is_month_str_day_year_format_01 s) as [E|E]; [assumption|].
    exfalso; apply H; now apply is_month_str_day_year_format_shape.
Qed.

(** (X4) The bounds [(0, 1)] that the cell declares for
    [combine_known_dates] hold on every string, whatever the Unicode table:
    no string passes two of the three tests, which ask for a length of 10,
    of 8 and of at least 11. *)
Theorem combine_known_dates_bounds (s : str) :
  (0 <= combine_known_dates s <= 1)%Z.
Proof.
  unfold combine_known_dates.
  change (is_day_month_year_format s) with (is_dd_mm_yyyy_format s).
  pose proof (is_dd_mm_yyyy_format_shape s) as A.
  pose proof (is_month_str_day_year_format_shape s) as C.
  pose proof (is_ddmmyyyy_format_eq s) as B.
  destruct (is_dd_mm_yyyy_format_01 s) as [Ea|Ea];
    destruct (is_month_str_day_year_format_01 s) as [Ec|Ec];
    rewrite Ea, Ec in *;
    try (apply shape_dd_mm_yyyy_length in A; [|reflexivity]);
    try (apply shape_month_day_year_length in C; [|reflexivity]);
    destruct (length s =? 8)%nat eqn:L;
    try (apply Nat.eqb_eq in L); simpl in B;
    try (destruct (forallb isdigit_char s)); rewrite B; lia.
Qed.

Lemma is_dd_mm_yyyy_format_length (s : str) :
  length s <> 10%nat -> is_dd_mm_yyyy_format s = 0%Z.
Proof.
  intros H; destruct (is_dd_mm_yyyy_format_01 s) as [E|E]; [assumption|].
  now apply is_dd_mm_yyyy_format_shape, shape_dd_mm_yyyy_length in E.
Qed.

Lemma is_ddmmyyyy_format_length (s : str) :
  length s <> 8%nat -> is_ddmmyyyy_format s = 0%Z.
Proof.
  intros H; rewrite is_ddmmyyyy_format_eq.
  apply Nat.eqb_neq in H; now rewrite H.
Qed.

Lemma is_month_str_day_year_format_length (s : str) :
  (length s < 11)%nat -> is_month_str_day_year_format s = 0%Z.
Proof.
  intros H.
  destruct (is_month_str_day_year_format_01 s) as [E|E]; [assumption|].
  apply is_month_str_day_year_format_shape,
    shape_month_day_year_length in E; lia.
Qed.

(** None of the three tests lets a slash through. *)
Lemma slash_rejected (s : str) :
  isdigit_char (chr "/") = false -> In (chr "/") s ->
  is_dd_mm_yyyy_format s = 0%Z /\ is_ddmmyyyy_format s = 0%Z
  /\ is_month_str_day_year_format s = 0%Z.
Proof.
  intros Hsl Hin; split; [|split].
  - destruct (is_dd_mm_yyyy_format_01 s) as [E|E]; [assumption|].
    apply is_dd_mm_yyyy_format_shape in E.
    destruct E as (d & m & y & -> & _ & _ & _ & Hall).
    exfalso; apply (isdigit_absent _ _ Hsl Hall).
    rewrite !in_app_iff in *; simpl in Hin.
    destruct Hin as [H|[[H|[]]|[H|[[H|[]]|H]]]]; try discriminate; tauto.
  - rewrite is_ddmmyyyy_format_eq.
    destruct (forallb isdigit_char s) eqn:E;
      [|now rewrite andb_false_r].
    exfalso; now apply (isdigit_absent _ _ Hsl E).
  - destruct (is_month_str_day_year_format_01 s) as [E|E]; [assumption|].
    apply is_month_str_day_year_format_shape in E.
    destruct E as (m & d & y & -> & Hm & _ & _ & Hall).
    exfalso; rewrite !in_app_iff in Hin; simpl in Hin.
    destruct Hin as [H|[[H|[]]|[H|[[H|[H|[]]]|H]]]]; try discriminate.
    + apply (month_names_letters _ _ Hm) in H.
      change (chr "/") with 47%N in H; lia.
    + apply (isdigit_absent _ _ Hsl Hall); rewrite in_app_iff; tauto.
    + apply (isdigit_absent _ _ Hsl Hall); rewrite in_app_iff; tauto.
Qed.

(** (X5) A string with a slash in it scores 0 (the slash is no digit): the
    fourth format the rows are written in, month/day/year, is never counted
    as a known date. *)
Theorem combine_known_dates_rejects_slash (s : str) :
  isdigit_char (chr "/") = false -> In (chr "/") s ->
  combine_known_dates s = 0%Z.
Proof.
  intros Hsl Hin; unfold combine_known_dates.
  change (is_day_month_year_format s) with (is_dd_mm_yyyy_format s).
  destruct (slash_rejected s Hsl Hin) as (-> & -> & ->); reflexivity.
Qed.

End DateFormatTheorems.

(** ** The rows the first cell writes *)

Section Rows.
Context {U : Unicode}.

Lemma zero_padded_digits (n : N) :
  (n < 100)%N ->
  exists a b : char,
    zero_padded n = [a; b] /\ ascii_digit a = true /\ ascii_digit b = true.
Proof.
  intros Hn.
  pose (check := fun n =>
          match zero_padded n with
          | [a; b] => ascii_digit a && ascii_digit b
          | _ => false
          end).
  assert (H : forallb check (map N.of_nat (seq 0 100)) = true)
    by (vm_compute; reflexivity).
  rewrite forallb_forall in H.
  assert (Hin : In n (map N.of_nat (seq 0 100)))
    by (rewrite <- (N2Nat.id n); apply in_map, in_seq; lia).
  specialize (H n Hin); unfold check in H.
  destruct (zero_padded n) as [|a [|b [|]]]; try discriminate H.
  apply andb_true_iff in H; exists a, b; tauto.
Qed.

Lemma decimal_digits (y : N) :
  (1000 <= y <= 9999)%N ->
  exists a b c d : char,
    decimal y = [a; b; c; d] /\
    forallb ascii_digit [a; b; c; d] = true.
Proof.
  intros Hy.
  pose (check := fun n =>
          match decimal n with
          | [a; b; c; d] => forallb ascii_digit [a; b; c; d]
          | _ => false
          end).
  assert (H : forallb check
                (map N.of_nat (seq (N.to_nat 1000) (N.to_nat 9000))) = true)
    by (vm_compute; reflexivity).
  rewrite forallb_forall in H.
  assert (Hin : In y (map N.of_nat (seq (N.to_nat 1000) (N.to_nat 9000))))
    by (rewrite <- (N2Nat.id y); apply in_map, in_seq; lia).
  specialize (H y Hin); unfold check in H.
  destruct (decimal y) as [|a [|b [|c [|d [|]]]]]; try discriminate H.
  exists a, b, c, d; split; [reflexivity | exact H].
Qed.

Lemma locale_month_name (m : N) :
  (1 <= m <= 12)%N -> In (locale_month m) month_names.
Proof.
  intros Hm.
  assert (H : forallb (fun m => existsb (Str.eqb (locale_month m)) month_names)
                (map N.of_nat (seq 1 12)) = true) by (vm_compute; reflexivity).
  rewrite forallb_forall in H.
  assert (Hin : In m (map N.of_nat (seq 1 12)))
    by (rewrite <- (N2Nat.id m); apply in_map, in_seq; lia).
  specialize (H m Hin).
  apply existsb_exists in H as (x & Hx & E).
  apply str_eqb_eq in E; now rewrite E.
Qed.

Lemma conforming_digit (c : char) :
  ascii_conforming U -> ascii_digit c = true -> isdigit_char c = true.
Proof.
  intros HU Hc; rewrite HU; [exact Hc|].
  unfold ascii_digit in Hc; apply andb_true_iff in Hc as [_ Hc].
  apply N.leb_le in Hc; lia.
Qed.

Lemma conforming_digits (s : str) :
  ascii_conforming U -> forallb ascii_digit s = true ->
  forallb isdigit_char s = true.
Proof.
  intros HU H; rewrite forallb_forall in *.
  intros c Hc; apply conforming_digit; auto.
Qed.

Lemma conforming_plain (c : char) :
  ascii_conforming U -> (c < 48)%N -> isdigit_char c = false.
Proof.
  intros HU Hc; rewrite HU by lia.
  unfold ascii_digit; apply andb_false_iff; left; apply N.leb_gt; lia.
Qed.

(** The four renderings of a date. *)
Lemma strftime_formats (d : Datetime.t) :
  map (strftime d) formats =
  [Some (zero_padded (Datetime.day d) ++ lit "-"
         ++ zero_padded (Datetime.month d) ++ lit "-"
         ++ decimal (Datetime.year d));
   Some (zero_padded (Datetime.day d) ++ zero_padded (Datetime.month d)
         ++ decimal (Datetime.year d));
   Some (locale_month (Datetime.month d) ++ lit " "
         ++ zero_padded (Datetime.day d) ++ lit ", "
         ++ decimal (Datetime.year d));
   Some (zero_padded (Datetime.month d) ++ lit "/"
         ++ zero_padded (Datetime.day d) ++ lit "/"
         ++ decimal (Datetime.year d))].
Proof.
  unfold formats; simpl map.
  cbn [strftime lit map String.list_ascii_of_string chr Ascii.N_of_ascii
       N.eqb Pos.eqb directive option_map].
  now rewrite !app_nil_r.
Qed.

End Rows.

Section RowScores.
Context {U : Unicode}.
Hypothesis HU : ascii_conforming U.
Variable d : Datetime.t.
Hypothesis Hd : Datetime.valid d.

Lemma row_day_month_year :
  shape_dd_mm_yyyy
    (zero_padded (Datetime.day d) ++ lit "-"
     ++ zero_padded (Datetime.month d) ++ lit "-"
     ++ decimal (Datetime.year d)).
Proof.
  destruct Hd as (Hy & Hm & Hday).
  destruct (zero_padded_digits (Datetime.day d)) as (a & b & -> & A & B);
    [lia|].
  destruct (zero_padded_digits (Datetime.month d)) as (a' & b' & -> & A' & B');
    [lia|].
  destruct (decimal_digits (Datetime.year d) Hy) as (e & f & g & h & -> & E).
  exists [a; b], [a'; b'], [e; f; g; h].
  repeat split; try reflexivity.
  rewrite !forallb_app, !andb_true_iff; repeat split;
    apply (conforming_digits _ HU); simpl; rewrite ?A, ?B, ?A', ?B';
    auto.
Qed.

Lemma row_ddmmyyyy :
  let s := zero_padded (Datetime.day d) ++ zero_padded (Datetime.month d)
           ++ decimal (Datetime.year d) in
  length s = 8%nat /\ forallb isdigit_char s = true.
Proof.
  destruct Hd as (Hy & Hm & Hday).
  destruct (zero_padded_digits (Datetime.day d)) as (a & b & -> & A & B);
    [lia|].
  destruct (zero_padded_digits (Datetime.month d)) as (a' & b' & -> & A' & B');
    [lia|].
  destruct (decimal_digits (Datetime.year d) Hy) as (e & f & g & h & -> & E).
  split; [reflexivity|].
  apply (conforming_digits _ HU); simpl in *; now rewrite A, B, A', B', E.
Qed.

Lemma row_month_day_year :
  shape_month_day_year
    (locale_month (Datetime.month d) ++ lit " "
     ++ zero_padded (Datetime.day d) ++ lit ", "
     ++ decimal (Datetime.year d)).
Proof.
  destruct Hd as (Hy & Hm & Hday).
  destruct (zero_padded_digits (Datetime.day d)) as (a & b & -> & A & B);
    [lia|].
  destruct (decimal_digits (Datetime.year d) Hy) as (e & f & g & h & -> & E).
  exists (locale_month (Datetime.month d)), [a; b], [e; f; g; h].
  repeat split; try reflexivity; try (simpl; lia).
  - now apply locale_month_name.
  - apply (conforming_digits _ HU); simpl in *; now rewrite A, B, E.
Qed.

Lemma row_slashes :
  let s := zero_padded (Datetime.month d) ++ lit "/"
           ++ zero_padded (Datetime.day d) ++ lit "/"
           ++ decimal (Datetime.year d) in
  In (chr "/") s.
Proof.
  cbv zeta; rewrite !in_app_iff; right; left; now left.
Qed.

Lemma conforming_separators :
  isdigit_char (chr "-") = false /\ isdigit_char (chr "/") = false /\
  isdigit_char (chr " ") = false /\ isdigit_char (chr ",") = false.
Proof. repeat split; now apply conforming_plain. Qed.

(** What the three tests say of each rendering. *)
Lemma row_day_month_year_scores :
  let s := zero_padded (Datetime.day d) ++ lit "-"
           ++ zero_padded (Datetime.month d) ++ lit "-"
           ++ decimal (Datetime.year d) in
  is_dd_mm_yyyy_format s = 1%Z /\ is_ddmmyyyy_format s = 0%Z
  /\ is_month_str_day_year_format s = 0%Z.
Proof.
  cbv zeta.
  destruct conforming_separators as (Hdash & _).
  pose proof row_day_month_year as S.
  pose proof (shape_dd_mm_yyyy_length _ S) as L.
  split; [now apply is_dd_mm_yyyy_format_accepts | split].
  - apply is_ddmmyyyy_format_length; rewrite L; discriminate.
  - apply is_month_str_day_year_format_length; rewrite L; lia.
Qed.

Lemma row_ddmmyyyy_scores :
  let s := zero_padded (Datetime.day d) ++ zero_padded (Datetime.month d)
           ++ decimal (Datetime.year d) in
  is_dd_mm_yyyy_format s = 0%Z /\ is_ddmmyyyy_format s = 1%Z
  /\ is_month_str_day_year_format s = 0%Z.
Proof.
  cbv zeta.
  destruct row_ddmmyyyy as [L D]; cbv zeta in L, D.
  split; [|split].
  - apply is_dd_mm_yyyy_format_length; rewrite L; discriminate.
  - now rewrite is_ddmmyyyy_format_eq, L, D.
  - apply is_month_str_day_year_format_length; rewrite L; lia.
Qed.

Lemma row_month_day_year_scores :
  let s := locale_month (Datetime.month d) ++ lit " "
           ++ zero_padded (Datetime.day d) ++ lit ", "
           ++ decimal (Datetime.year d) in
  is_dd_mm_yyyy_format s = 0%Z /\ is_ddmmyyyy_format s = 0%Z
  /\ is_month_str_day_year_format s = 1%Z.
Proof.
  cbv zeta.
  destruct conforming_separators as (_ & _ & Hspace & Hcomma).
  pose proof row_month_day_year as S.
  pose proof (shape_month_day_year_length _ S) as L.
  split; [|split].
  - apply is_dd_mm_yyyy_format_length; intros E; rewrite E in L; lia.
  - apply is_ddmmyyyy_format_length; intros E; rewrite E in L; lia.
  - now apply is_month_str_day_year_format_accepts.
Qed.

Lemma row_slashes_scores :
  let s := zero_padded (Datetime.month d) ++ lit "/"
           ++ zero_padded (Datetime.day d) ++ lit "/"
           ++ decimal (Datetime.year d) in
  is_dd_mm_yyyy_format s = 0%Z /\ is_ddmmyyyy_format s = 0%Z
  /\ is_month_str_day_year_format s = 0%Z.
Proof.
  cbv zeta.
  destruct conforming_separators as (_ & Hslash & _).
  apply (slash_rejected _ Hslash), row_slashes.
Qed.

End RowScores.

Section RowTheorems.
Context {U : Unicode}.

(** (X6) On the rows the first cell writes, for any date with a year of
    four digits: the test of that cell returns 1 on the rendering with
    ['%d-%m-%Y'] and 0 on the renderings with the three other formats. *)
Theorem first_test_on_rows (d : Datetime.t) :
  ascii_conforming U -> Datetime.valid d ->
  map (fun fmt => option_map is_dd_mm_yyyy_format (strftime d fmt)) formats
  = [Some 1%Z; Some 0%Z; Some 0%Z; Some 0%Z].
Proof.
  intros HU Hd.
  rewrite <- (map_map (strftime d) (option_map is_dd_mm_yyyy_format)).
  rewrite strftime_formats; cbn [map option_map].
  destruct (row_day_month_year_scores HU d Hd) as (-> & _).
  destruct (row_ddmmyyyy_scores HU d Hd) as (-> & _).
  destruct (row_month_day_year_scores HU d Hd) as (-> & _).
  destruct (row_slashes_scores HU d) as (-> & _).
  reflexivity.
Qed.

(** (X7) On the same rows each test of the second cell returns 1 on the
    rendering of its own format and 0 on the others, so that
    [combine_known_dates] is 1 on the first three formats and 0 on
    month/day/year. *)
Theorem known_dates_on_rows (d : Datetime.t) :
  ascii_conforming U -> Datetime.valid d ->
  map (fun fmt =>
         option_map
           (fun s => (is_day_month_year_format s, is_ddmmyyyy_format s,
                      is_month_str_day_year_format s, combine_known_dates s))
           (strftime d fmt))
      formats
  = [Some (1, 0, 0, 1)%Z; Some (0, 1, 0, 1)%Z; Some (0, 0, 1, 1)%Z;
     Some (0, 0, 0, 0)%Z].
Proof.
  intros HU Hd.
  rewrite <- (map_map (strftime d)
                (option_map
                   (fun s => (is_day_month_year_format s,
                              is_ddmmyyyy_format s,
                              is_month_str_day_year_format s,
                              combine_known_dates s)))).
  rewrite strftime_formats; cbn [map option_map].
  unfold combine_known_dates.
  change (@is_day_month_year_format U) with (@is_dd_mm_yyyy_format U).
  destruct (row_day_month_year_scores HU d Hd) as (-> & -> & ->).
  destruct (row_ddmmyyyy_scores HU d Hd) as (-> & -> & ->).
  destruct (row_month_day_year_scores HU d Hd) as (-> & -> & ->).
  destruct (row_slashes_scores HU d) as (-> & -> & ->).
  reflexivity.
Qed.

End RowTheorems.

(** ** Where the cell departs from the specification *)

(** A valid domain and one round, yet no invocation: over [[0, 2^1024]] the
    cell raises [OverflowError] when it computes the first step, before the
    loop. *)
Lemma wide_domain_raises_overflow :
  let r := cell (exn:=unit) 0 (2 ^ 1024) 1 Notebook.eps Notebook.t
             (scripted (fun _ => Binary64.of_int 1)) in
  (0 < 2 ^ 1024)%Z /\ (1 <= 1)%Z /\
  r = OverflowError /\
  ~ (exists r' : Kernel Binary64.float * Outcome unit,
       r = Ran r' /\ calls r' = 1%nat).
Proof.
  cbv zeta. split; [reflexivity|]. split; [discriminate|].
  assert (H : cell (exn:=unit) 0 (2 ^ 1024) 1 Notebook.eps Notebook.t
                (scripted (fun _ => Binary64.of_int 1)) = OverflowError)
    by (vm_compute; reflexivity).
  split; [exact H|]. rewrite H. intros (r' & Hr & _). discriminate.
Qed.

(** The cell validates nothing: with [totalRounds = -1] or [0] it completes
    without an invocation and leaves the estimate at the seed; with
    [lower = upper], or with [lower > upper], and one round it invokes the
    oracle once and completes.  Where it fails before the loop it fails with
    Python's [OverflowError], the bounds being too far apart for a float. *)
Lemma invalid_configuration_accepted :
  let one : list (Query Binary64.float) -> Query Binary64.float
            -> Binary64.float := fun _ _ => Binary64.of_int 1 in
  (exists r : Kernel Binary64.float * Outcome unit,
     cell Notebook.LOWER_BOUND Notebook.UPPER_BOUND (-1)
       Notebook.eps Notebook.t (answering one) = Ran r /\
     snd r = Completed /\ calls r = 0%nat /\
     estimate r = Binary64.of_int 0) /\
  (exists r : Kernel Binary64.float * Outcome unit,
     cell Notebook.LOWER_BOUND Notebook.UPPER_BOUND 0
       Notebook.eps Notebook.t (answering one) = Ran r /\
     snd r = Completed /\ calls r = 0%nat /\
     estimate r = Binary64.of_int 0) /\
  (exists r : Kernel Binary64.float * Outcome unit,
     cell 5 5 1 Notebook.eps Notebook.t (answering one) = Ran r /\
     snd r = Completed /\ calls r = 1%nat) /\
  (exists r : Kernel Binary64.float * Outcome unit,
     cell 8 0 1 Notebook.eps Notebook.t (answering one) = Ran r /\
     snd r = Completed /\ calls r = 1%nat /\
     estimate r = Binary64.of_int (-2)) /\
  cell (exn:=unit) (2 ^ 1024) 0 1 Notebook.eps Notebook.t (answering one)
    = OverflowError.
Proof.
  cbv zeta.
  split; [eexists; split; [vm_compute; reflexivity | vm_compute; repeat split]|].
  split; [eexists; split; [vm_compute; reflexivity | vm_compute; repeat split]|].
  split; [eexists; split; [vm_compute; reflexivity | vm_compute; repeat split]|].
  split; [eexists; split; [vm_compute; reflexivity | vm_compute; repeat split]|].
  vm_compute. reflexivity.
Qed.

(** What a failed run surfaces is the oracle's exception and nothing else:
    a run of 10 rounds that fails in its third round and one that fails in
    its fourth surface the same thing, so no count of rounds can be read
    from it. *)
Lemma oracle_failure_reports_no_count :
  let run (j : nat) :=
    EstimateMax (V:=Q) Notebook.LOWER_BOUND Notebook.UPPER_BOUND 10
      Notebook.eps Notebook.t (failing_at j tt (fun _ _ => 1%Q)) in
  snd (run 2%nat) = Raised tt /\
  snd (run 3%nat) = Raised tt /\
  ~ (exists report : Outcome unit -> nat,
       forall j : nat, (j < 10)%nat -> report (snd (run j)) = j).
Proof.
  cbv zeta. split; [reflexivity | split; [reflexivity|]].
  intros [report H].
  pose proof (H 2%nat ltac:(lia)) as H2.
  pose proof (H 3%nat ltac:(lia)) as H3.
  change (report (Raised tt) = 2%nat) in H2.
  change (report (Raised tt) = 3%nat) in H3.
  congruence.
Qed.

(** No clamping, and rounding: in the notebook's own run (binary64, seed 0 at
    the midpoint of [[-2^32, 2^32]], step [2^31], [k = 64]) the estimate is
    exactly [upper] when every answer is above the threshold, so it is not
    strictly below [upper]. *)
Lemma binary64_estimate_reaches_upper :
  let s0 := init (V:=Binary64.float)
              Notebook.LOWER_BOUND Notebook.UPPER_BOUND in
  let r := Notebook.run (scripted (fun _ => Binary64.of_int 1)) in
  current_value s0 = Binary64.of_int 0 /\
  step_size s0 = Binary64.of_int (2 ^ 31) /\
  estimate r = Binary64.of_int Notebook.UPPER_BOUND /\
  Binary64.gtb (Binary64.of_int Notebook.UPPER_BOUND) (estimate r) = false.
Proof. vm_compute. repeat split. Qed.

(** The seed is the literal 0 and the step a float.  Over [[0, 8]] the seed
    is not the midpoint 4, and one round answered below the threshold takes
    the estimate to -2, outside the domain.  Over [[0, 2^53 + 1]] the step is
    [2^51], the width having been rounded to [2^53], not a quarter of the
    width.  Over [[0, 2^1024]] there is no initial state at all. *)
Lemma seed_is_not_the_midpoint :
  let zero : nat -> Binary64.float := fun _ => Binary64.of_int 0 in
  (let s0 := init (V:=Binary64.float) 0 8 in
   current_value s0 = Binary64.of_int 0 /\
   ~ ((inject_Z 0 + inject_Z 8) / 2 == 0)%Q /\
   estimate (EstimateMax (exn:=unit) 0 8 1 Notebook.eps Notebook.t
               (scripted zero)) = Binary64.of_int (-2)) /\
  (let s0 := init (V:=Binary64.float) 0 (2 ^ 53 + 1) in
   step_size s0 = Binary64.of_int (2 ^ 51) /\
   exists st : Q,
     Binary64.value (step_size s0) = Some st /\
     ~ (st == inject_Z (2 ^ 53 + 1 - 0) / 4)%Q) /\
  cell (exn:=unit) 0 (2 ^ 1024) 1 Notebook.eps Notebook.t (scripted zero)
    = OverflowError.
Proof.
  cbv zeta. split; [|split].
  - split; [reflexivity|]. split; [|vm_compute; reflexivity].
    intros H. vm_compute in H. discriminate.
  - split; [vm_compute; reflexivity|].
    eexists. split; [vm_compute; reflexivity|].
    intros H. vm_compute in H. discriminate.
  - vm_compute. reflexivity.
Qed.


(** In the notebook's run with every answer above the threshold, the 54th
    round finds the estimate at [2^32 - 2^-21] and the step at [2^-22]: the
    sum is rounded to [2^32], two steps up.  The 55th round, answered above
    the threshold as well, leaves the estimate where it is. *)
Lemma rounded_sum_moves_two_steps_or_none :
  let one : nat -> Binary64.float := fun _ => Binary64.of_int 1 in
  let after (n : nat) :=
    state_after (exn:=unit) n Notebook.eps Notebook.t (script one)
      (init Notebook.LOWER_BOUND Notebook.UPPER_BOUND) in
  Binary64.gtb (answer_at Notebook.eps (script one) (after 53%nat)) Notebook.t
    = true /\
  Binary64.gtb (answer_at Notebook.eps (script one) (after 54%nat)) Notebook.t
    = true /\
  exists q53 q54 q55 st53 st54 : Q,
    Binary64.value (current_value (after 53%nat)) = Some q53 /\
    Binary64.value (current_value (after 54%nat)) = Some q54 /\
    Binary64.value (current_value (after 55%nat)) = Some q55 /\
    Binary64.value (step_size (after 53%nat)) = Some st53 /\
    Binary64.value (step_size (after 54%nat)) = Some st54 /\
    (q54 == q53 + 2 * st53 /\ 0 < st53 /\ ~ q54 == q53 + st53)%Q /\
    (q55 == q54 /\ 0 < st54 /\ ~ q55 == q54 + st54)%Q.
Proof.
  cbv zeta. split; [vm_compute; reflexivity|].
  split; [vm_compute; reflexivity|].
  do 5 eexists.
  split; [vm_compute; reflexivity|]. split; [vm_compute; reflexivity|].
  split; [vm_compute; reflexivity|]. split; [vm_compute; reflexivity|].
  split; [vm_compute; reflexivity|].
  split; (split; [reflexivity | split; [reflexivity|]]);
    intros H; vm_compute in H; discriminate.
Qed.


(** With the threshold [t = 1.0], which no answer exceeds, the noiseless run
    of 10 rounds goes down at every round and ends on -4290772992, far from
    the maximum -151861469.  And with the notebook's own threshold, the run
    of 54 rounds for the maximum [2^31 + 2^-21], a float, ends on [2^31]:
    [2^-21] away, twice the bound [2^33/2^55]. *)
Lemma noiseless_run_misses_the_maximum :
  (let t := Binary64.of_int 1 in
   let r := EstimateMax (exn:=unit) Notebook.LOWER_BOUND Notebook.UPPER_BOUND
              10 Notebook.eps t
              (noiseless (Binary64.of_int Notebook.true_max)) in
   estimate r = Binary64.of_int (-4290772992) /\
   exists q : Q,
     Binary64.value (estimate r) = Some q /\
     ~ (Qabs (q - inject_Z Notebook.true_max) <=
        inject_Z (Notebook.UPPER_BOUND - Notebook.LOWER_BOUND)
        / 2 ^ (10 + 1))%Q) /\
  (let M := S754_finite false (2 ^ 52 + 1) (-21) in
   let r := EstimateMax (exn:=unit) Notebook.LOWER_BOUND Notebook.UPPER_BOUND
              54 Notebook.eps Notebook.t (noiseless M) in
   Binary64.valid M = true /\
   estimate r = Binary64.of_int (2 ^ 31) /\
   exists q qM : Q,
     Binary64.value (estimate r) = Some q /\
     Binary64.value M = Some qM /\
     (inject_Z Notebook.LOWER_BOUND <= qM <= inject_Z Notebook.UPPER_BOUND)%Q /\
     ~ (Qabs (q - qM) <=
        inject_Z (Notebook.UPPER_BOUND - Notebook.LOWER_BOUND)
        / 2 ^ (54 + 1))%Q).
Proof.
  cbv zeta. split.
  - split; [vm_compute; reflexivity|].
    eexists. split; [vm_compute; reflexivity|].
    intros H. vm_compute in H. apply H. reflexivity.
  - split; [reflexivity|]. split; [vm_compute; reflexivity|].
    do 2 eexists.
    split; [vm_compute; reflexivity|]. split; [vm_compute; reflexivity|].
    split; [split; vm_compute; discriminate|].
    intros H. vm_compute in H. apply H. reflexivity.
Qed.

Lemma cell_exact_budget_witness :
  (Notebook.LOWER_BOUND < Notebook.UPPER_BOUND)%Z /\
  (1 <= Notebook.k)%Z /\
  (Notebook.UPPER_BOUND - Notebook.LOWER_BOUND < 2 ^ 1024 - 2 ^ 970)%Z /\
  exists r : Kernel Binary64.float * Outcome unit,
    cell Notebook.LOWER_BOUND Notebook.UPPER_BOUND Notebook.k
      Notebook.eps Notebook.t (scripted (fun _ => Binary64.of_int 1)) = Ran r /\
    Z.of_nat (calls r) = Notebook.k /\
    snd r = Completed.
Proof.
  assert (H1 : (Notebook.LOWER_BOUND < Notebook.UPPER_BOUND)%Z) by reflexivity.
  assert (H2 : (1 <= Notebook.k)%Z) by (unfold Notebook.k; lia).
  assert (H3 : (Notebook.UPPER_BOUND - Notebook.LOWER_BOUND
                < 2 ^ 1024 - 2 ^ 970)%Z) by (vm_compute; reflexivity).
  split; [exact H1 | split; [exact H2 | split; [exact H3|]]].
  destruct (cell_exact_budget (exn:=unit)
              Notebook.LOWER_BOUND Notebook.UPPER_BOUND Notebook.k
              Notebook.eps Notebook.t (script (fun _ => Binary64.of_int 1))
              H1 H2) as [Hran _].
  destruct (Hran H3) as (r & Hr & Hc & Hs & _).
  exists r. split; [exact Hr | split; [exact Hc | exact Hs]].
Defined.

Lemma binary64_noiseless_convergence_witness :
  let M := Binary64.of_int Notebook.true_max in
  let qM := (-5095625334980608 # 33554432)%Q in
  Binary64.valid M = true /\
  Binary64.value M = Some qM /\
  (inject_Z Notebook.LOWER_BOUND <= qM <= inject_Z Notebook.UPPER_BOUND)%Q /\
  Binary64.gtb (Binary64.of_int 1) Notebook.t = true /\
  Binary64.gtb (Binary64.of_int 0) Notebook.t = false /\
  (0 <= Notebook.k <= 64)%Z /\
  exists q : Q,
    Binary64.value (estimate (Notebook.run (noiseless M))) = Some q /\
    (Qabs (q - qM) <=
       inject_Z (Notebook.UPPER_BOUND - Notebook.LOWER_BOUND)
       / 2 ^ (Notebook.k + 1) + rounding_error (Z.to_nat Notebook.k))%Q.
Proof.
  cbv zeta.
  assert (H1 : Binary64.valid (Binary64.of_int Notebook.true_max) = true)
    by reflexivity.
  assert (H2 : Binary64.value (Binary64.of_int Notebook.true_max)
               = Some (-5095625334980608 # 33554432)%Q)
    by (vm_compute; reflexivity).
  assert (H3 : (inject_Z Notebook.LOWER_BOUND
                <= -5095625334980608 # 33554432
                <= inject_Z Notebook.UPPER_BOUND)%Q)
    by (split; vm_compute; discriminate).
  assert (H4 : Binary64.gtb (Binary64.of_int 1) Notebook.t = true)
    by reflexivity.
  assert (H5 : Binary64.gtb (Binary64.of_int 0) Notebook.t = false)
    by reflexivity.
  assert (H6 : (0 <= Notebook.k <= 64)%Z) by (unfold Notebook.k; lia).
  split; [exact H1 | split; [exact H2 | split; [exact H3 |
    split; [exact H4 | split; [exact H5 | split; [exact H6|]]]]]].
  destruct binary64_noiseless_convergence as [Hfloat _].
  destruct (Hfloat unit (Binary64.of_int Notebook.true_max) _
              Notebook.eps Notebook.t Notebook.k H1 H2 H3 H4 H5 H6)
    as (q & Vq & Hq & _).
  exists q. split; [exact Vq | exact Hq].
Defined.



Lemma binary64_round_moves_witness :
  let one : nat -> Binary64.float := fun _ => Binary64.of_int 1 in
  let s0 := init (V:=Binary64.float)
              Notebook.LOWER_BOUND Notebook.UPPER_BOUND in
  let s := state_after (exn:=unit) 53 Notebook.eps Notebook.t (script one) s0 in
  let s' := state_after (exn:=unit) 54 Notebook.eps Notebook.t (script one) s0 in
  (53 <= 63)%nat /\
  exists q q' st : Q,
    Binary64.value (current_value s) = Some q /\
    Binary64.value (current_value s') = Some q' /\
    Binary64.value (step_size s) = Some st /\
    (Qabs (q' - (q + st)) <= 1 / inject_Z (2 ^ 22))%Q /\
    (q <= q')%Q.
Proof.
  cbv zeta.
  assert (H : (53 <= 63)%nat) by lia.
  split; [exact H|].
  destruct binary64_round_moves as (_ & Hfloat & _).
  destruct (Hfloat unit Notebook.eps Notebook.t
              (script (fun _ => Binary64.of_int 1)) 53%nat H)
    as (q & q' & st & Vq & Vq' & Vst & _ & _ & Herr & Hdir).
  exists q, q', st.
  split; [exact Vq | split; [exact Vq' | split; [exact Vst|]]].
  split; [exact Herr | exact Hdir].
Defined.

Lemma cell_no_validation_witness :
  (-1 < 1 \/ Notebook.UPPER_BOUND <= Notebook.LOWER_BOUND)%Z /\
  (Z.abs (Notebook.UPPER_BOUND - Notebook.LOWER_BOUND)
   < 2 ^ 1024 - 2 ^ 970)%Z /\
  exists r : Kernel Binary64.float * Outcome unit,
    cell Notebook.LOWER_BOUND Notebook.UPPER_BOUND (-1)
      Notebook.eps Notebook.t (scripted (fun _ => Binary64.of_int 1)) = Ran r /\
    snd r = Completed /\
    Z.of_nat (calls r) = Z.max 0 (-1).
Proof.
  assert (H1 : (-1 < 1 \/ Notebook.UPPER_BOUND <= Notebook.LOWER_BOUND)%Z)
    by (left; reflexivity).
  assert (H2 : (Z.abs (Notebook.UPPER_BOUND - Notebook.LOWER_BOUND)
                < 2 ^ 1024 - 2 ^ 970)%Z) by (vm_compute; reflexivity).
  split; [exact H1 | split; [exact H2|]].
  destruct (cell_no_validation (exn:=unit)
              Notebook.LOWER_BOUND Notebook.UPPER_BOUND (-1)
              Notebook.eps Notebook.t (script (fun _ => Binary64.of_int 1))
              H1) as [Hran _].
  destruct (Hran H2) as (r & Hr & Hs & Hc & _).
  exists r. split; [exact Hr | split; [exact Hs | exact Hc]].
Defined.

Lemma EstimateMax_oracle_failure_witness :
  (Z.of_nat 2 < 10)%Z /\
  snd (EstimateMax (V:=Q) Notebook.LOWER_BOUND Notebook.UPPER_BOUND 10
         Notebook.eps Notebook.t (failing_at 2 tt (fun _ _ => 1%Q)))
    = Raised tt /\
  calls (EstimateMax (V:=Q) Notebook.LOWER_BOUND Notebook.UPPER_BOUND 10
           Notebook.eps Notebook.t (failing_at 2 tt (fun _ _ => 1%Q)))
    = 3%nat.
Proof.
  assert (H : (Z.of_nat 2 < 10)%Z) by reflexivity.
  split; [exact H|].
  destruct (EstimateMax_oracle_failure (V:=Q)
              Notebook.LOWER_BOUND Notebook.UPPER_BOUND 10
              Notebook.eps Notebook.t 2 tt (fun _ _ => 1%Q) H)
    as (Hs & Hc & _).
  split; [exact Hs | exact Hc].
Defined.

Lemma cell_initial_state_witness :
  (1 <= Notebook.k)%Z /\
  (0 < Notebook.UPPER_BOUND - Notebook.LOWER_BOUND
   < 2 ^ 1024 - 2 ^ 970)%Z /\
  exists (r : Kernel Binary64.float * Outcome unit) (st : Q),
    cell Notebook.LOWER_BOUND Notebook.UPPER_BOUND Notebook.k
      Notebook.eps Notebook.t (scripted (fun _ => Binary64.of_int 1)) = Ran r /\
    Binary64.value
      (step_size (init (V:=Binary64.float)
                    Notebook.LOWER_BOUND Notebook.UPPER_BOUND)) = Some st /\
    (st == inject_Z (Notebook.UPPER_BOUND - Notebook.LOWER_BOUND) / 4)%Q /\
    exists later : list (Query Binary64.float),
      ledger (fst r) =
      later ++ [{| threshold := S754_zero false; epsilon := Notebook.eps |}].
Proof.
  assert (H1 : (1 <= Notebook.k)%Z) by (unfold Notebook.k; lia).
  assert (H2 : (0 < Notebook.UPPER_BOUND - Notebook.LOWER_BOUND
   < 2 ^ 1024 - 2 ^ 970)%Z)
    by (split; vm_compute; reflexivity).
  split; [exact H1 | split; [exact H2|]].
  destruct (cell_initial_state (exn:=unit)
              Notebook.LOWER_BOUND Notebook.UPPER_BOUND Notebook.k
              Notebook.eps Notebook.t (script (fun _ => Binary64.of_int 1))
              H1 H2)
    as (r & w & st & Hr & _ & _ & _ & _ & Hw & Hst & Hq & _ & Hl).
  exists r, st. split; [exact Hr|]. split; [exact Hst|]. split; [|exact Hl].
  rewrite Hq, (Hw ltac:(vm_compute; reflexivity)). reflexivity.
Defined.

Lemma estimate_stays_inside_witness :
  (inject_Z Notebook.LOWER_BOUND < inject_Z Notebook.UPPER_BOUND)%Q /\
  (current_value (init (V:=Q) Notebook.LOWER_BOUND Notebook.UPPER_BOUND) ==
   (inject_Z Notebook.LOWER_BOUND + inject_Z Notebook.UPPER_BOUND) / 2)%Q /\
  (step_size (init (V:=Q) Notebook.LOWER_BOUND Notebook.UPPER_BOUND) ==
   (inject_Z Notebook.UPPER_BOUND - inject_Z Notebook.LOWER_BOUND) / 4)%Q /\
  (inject_Z Notebook.LOWER_BOUND <
   current_value (state_after (exn:=unit) 64 Notebook.eps Notebook.t
                    (fun _ _ => 1%Q)
                    (init Notebook.LOWER_BOUND Notebook.UPPER_BOUND))
   < inject_Z Notebook.UPPER_BOUND)%Q /\
  (64 <= 64)%nat /\
  exists q : Q,
    Binary64.value
      (current_value (state_after (exn:=unit) 64 Notebook.eps Notebook.t
                        (script (fun _ => Binary64.of_int 1))
                        (init Notebook.LOWER_BOUND Notebook.UPPER_BOUND)))
    = Some q /\
    (inject_Z Notebook.LOWER_BOUND <= q <= inject_Z Notebook.UPPER_BOUND)%Q.
Proof.
  assert (H1 : (inject_Z Notebook.LOWER_BOUND
                < inject_Z Notebook.UPPER_BOUND)%Q) by reflexivity.
  assert (H2 : (current_value
                  (init (V:=Q) Notebook.LOWER_BOUND Notebook.UPPER_BOUND) ==
                (inject_Z Notebook.LOWER_BOUND
                 + inject_Z Notebook.UPPER_BOUND) / 2)%Q) by reflexivity.
  assert (H3 : (step_size
                  (init (V:=Q) Notebook.LOWER_BOUND Notebook.UPPER_BOUND) ==
                (inject_Z Notebook.UPPER_BOUND
                 - inject_Z Notebook.LOWER_BOUND) / 4)%Q) by reflexivity.
  assert (H4 : (64 <= 64)%nat) by lia.
  destruct estimate_stays_inside as [Hexact Hfloat].
  split; [exact H1 | split; [exact H2 | split; [exact H3|]]].
  split; [|split; [exact H4|]].
  - exact (Hexact unit _ _ Notebook.eps Notebook.t (fun _ _ => 1%Q) _ 64%nat
             H1 H2 H3).
  - destruct (Hfloat (script (fun _ => Binary64.of_int 1)) 64%nat H4)
      as (q & Hq & Hb & _).
    exists q. split; [exact Hq | exact Hb].
Defined.

Lemma estimate_monotone_in_answers_witness :
  let a : nat -> Binary64.float := fun _ => Binary64.of_int 1 in
  let b : nat -> Binary64.float := fun _ => Binary64.of_int 0 in
  (0 < Notebook.UPPER_BOUND - Notebook.LOWER_BOUND < 2 ^ 1024 - 2 ^ 970)%Z /\
  Binary64.valid (Notebook.t (V:=Binary64.float)) = true /\
  (forall i : nat, (Z.of_nat i < Notebook.k)%Z ->
     Binary64.valid (a i) = true /\ Binary64.valid (b i) = true /\
     SFleb (b i) (a i) = true) /\
  exists ra rb : Kernel Binary64.float * Outcome unit,
    cell Notebook.LOWER_BOUND Notebook.UPPER_BOUND Notebook.k
      Notebook.eps Notebook.t (scripted a) = Ran ra /\
    cell Notebook.LOWER_BOUND Notebook.UPPER_BOUND Notebook.k
      Notebook.eps Notebook.t (scripted b) = Ran rb /\
    SFleb (estimate rb) (estimate ra) = true.
Proof.
  cbv zeta.
  assert (H1 : (0 < Notebook.UPPER_BOUND - Notebook.LOWER_BOUND
                < 2 ^ 1024 - 2 ^ 970)%Z) by (split; reflexivity).
  assert (H2 : Binary64.valid (Notebook.t (V:=Binary64.float)) = true) by reflexivity.
  assert (H3 : forall i : nat, (Z.of_nat i < Notebook.k)%Z ->
             Binary64.valid (Binary64.of_int 1) = true /\
             Binary64.valid (Binary64.of_int 0) = true /\
             SFleb (Binary64.of_int 0) (Binary64.of_int 1) = true)
    by (intros i _; repeat split).
  split; [exact H1 | split; [exact H2 | split; [exact H3|]]].
  destruct estimate_monotone_in_answers as [Hfloat _].
  exact (Hfloat unit Notebook.LOWER_BOUND Notebook.UPPER_BOUND Notebook.k
           Notebook.eps Notebook.t
           (fun _ => Binary64.of_int 1) (fun _ => Binary64.of_int 0)
           H1 H2 H3).
Defined.

(** ** The further theorems on instances

    The date tests are run with the table that has no digit outside ASCII,
    the loop at the notebook's configuration. *)

Lemma is_dd_mm_yyyy_format_spec_witness :
  @isdigit_char ascii_table (chr "-") = false /\
  shape_dd_mm_yyyy (U:=ascii_table) (lit "31-12-2023") /\
  is_dd_mm_yyyy_format (U:=ascii_table) (lit "31-12-2023") = 1%Z /\
  is_day_month_year_format (U:=ascii_table) (lit "31-12-2023") = 1%Z.
Proof.
  assert (H : @isdigit_char ascii_table (chr "-") = false) by reflexivity.
  assert (S : shape_dd_mm_yyyy (U:=ascii_table) (lit "31-12-2023")).
  { exists (lit "31"), (lit "12"), (lit "2023").
    split; [reflexivity|]. split; [reflexivity|]. split; [reflexivity|].
    split; reflexivity. }
  split; [exact H | split; [exact S|]].
  destruct (is_dd_mm_yyyy_format_spec (U:=ascii_table) (lit "31-12-2023") H)
    as [Hyes _].
  exact (Hyes S).
Defined.

Lemma is_month_str_day_year_format_spec_witness :
  @isdigit_char ascii_table (chr " ") = false /\
  @isdigit_char ascii_table (chr ",") = false /\
  shape_month_day_year (U:=ascii_table) (lit "December 31, 2023") /\
  is_month_str_day_year_format (U:=ascii_table) (lit "December 31, 2023")
  = 1%Z.
Proof.
  assert (H1 : @isdigit_char ascii_table (chr " ") = false) by reflexivity.
  assert (H2 : @isdigit_char ascii_table (chr ",") = false) by reflexivity.
  assert (S : shape_month_day_year (U:=ascii_table)
                (lit "December 31, 2023")).
  { exists (lit "December"), (lit "31"), (lit "2023").
    split; [reflexivity|].
    split; [do 11 right; left; reflexivity|].
    split; [simpl; lia|]. split; reflexivity. }
  split; [exact H1 | split; [exact H2 | split; [exact S|]]].
  destruct (is_month_str_day_year_format_spec (U:=ascii_table)
              (lit "December 31, 2023") H1 H2) as [Hyes _].
  exact (Hyes S).
Defined.

Lemma combine_known_dates_rejects_slash_witness :
  @isdigit_char ascii_table (chr "/") = false /\
  In (chr "/") (lit "12/31/2023") /\
  combine_known_dates (U:=ascii_table) (lit "12/31/2023") = 0%Z.
Proof.
  assert (H1 : @isdigit_char ascii_table (chr "/") = false) by reflexivity.
  assert (H2 : In (chr "/") (lit "12/31/2023"))
    by (right; right; left; reflexivity).
  split; [exact H1 | split; [exact H2|]].
  exact (combine_known_dates_rejects_slash (U:=ascii_table)
           (lit "12/31/2023") H1 H2).
Defined.

Lemma first_test_on_rows_witness :
  let d := {| Datetime.year := 2023; Datetime.month := 9;
              Datetime.day := 5 |} in
  ascii_conforming ascii_table /\ Datetime.valid d /\
  map (fun fmt =>
         option_map (is_dd_mm_yyyy_format (U:=ascii_table)) (strftime d fmt))
      formats
  = [Some 1%Z; Some 0%Z; Some 0%Z; Some 0%Z].
Proof.
  cbv zeta.
  assert (H1 : ascii_conforming ascii_table) by (intros c _; reflexivity).
  assert (H2 : Datetime.valid {| Datetime.year := 2023; Datetime.month := 9;
                                 Datetime.day := 5 |})
    by (unfold Datetime.valid; simpl; lia).
  split; [exact H1 | split; [exact H2|]].
  exact (first_test_on_rows (U:=ascii_table) _ H1 H2).
Defined.

Lemma known_dates_on_rows_witness :
  let d := {| Datetime.year := 2023; Datetime.month := 9;
              Datetime.day := 5 |} in
  ascii_conforming ascii_table /\ Datetime.valid d /\
  map (fun fmt =>
         option_map
           (fun s => (is_day_month_year_format (U:=ascii_table) s,
                      is_ddmmyyyy_format (U:=ascii_table) s,
                      is_month_str_day_year_format (U:=ascii_table) s,
                      combine_known_dates (U:=ascii_table) s))
           (strftime d fmt))
      formats
  = [Some (1, 0, 0, 1)%Z; Some (0, 1, 0, 1)%Z; Some (0, 0, 1, 1)%Z;
     Some (0, 0, 0, 0)%Z].
Proof.
  cbv zeta.
  assert (H1 : ascii_conforming ascii_table) by (intros c _; reflexivity).
  assert (H2 : Datetime.valid {| Datetime.year := 2023; Datetime.month := 9;
                                 Datetime.day := 5 |})
    by (unfold Datetime.valid; simpl; lia).
  split; [exact H1 | split; [exact H2|]].
  exact (known_dates_on_rows (U:=ascii_table) _ H1 H2).
Defined.

Lemma binary64_steps_value_witness :
  (64 <= 64)%nat /\
  exists q : Q,
    Binary64.value
      (step_size (state_after (exn:=unit) 64 Notebook.eps Notebook.t
                    (script (fun _ => Binary64.of_int 1))
                    (init Notebook.LOWER_BOUND Notebook.UPPER_BOUND)))
    = Some q /\
    (q == inject_Z (Notebook.UPPER_BOUND - Notebook.LOWER_BOUND) / 4
          / 2 ^ Z.of_nat 64)%Q.
Proof.
  assert (H : (64 <= 64)%nat) by lia.
  split; [exact H|].
  exact (binary64_steps_value 64 (script (fun _ => Binary64.of_int 1)) H).
Defined.

Lemma binary64_estimate_monotone_witness :
  let a := fun _ : nat => Binary64.of_int 1 in
  let b := fun _ : nat => Binary64.of_int 0 in
  (forall i : nat, (i < 64)%nat ->
     Binary64.gtb (b i) Notebook.t = true ->
     Binary64.gtb (a i) Notebook.t = true) /\
  exists qa qb : Q,
    Binary64.value (estimate (Notebook.run (scripted a))) = Some qa /\
    Binary64.value (estimate (Notebook.run (scripted b))) = Some qb /\
    (qb <= qa)%Q.
Proof.
  cbv zeta.
  assert (H : forall i : nat, (i < 64)%nat ->
            Binary64.gtb (Binary64.of_int 0) Notebook.t = true ->
            Binary64.gtb (Binary64.of_int 1) Notebook.t = true)
    by (intros i _ _; vm_compute; reflexivity).
  split; [exact H|].
  exact (binary64_estimate_monotone (fun _ => Binary64.of_int 1)
           (fun _ => Binary64.of_int 0) H).
Defined.

Lemma binary64_exact_through_round_53_witness :
  let a := fun _ : nat => Binary64.of_int 1 in
  let b := fun _ : nat => 1%Q in
  (53 <= 53)%nat /\
  (forall i : nat, (i < 53)%nat ->
     Binary64.gtb (a i) Notebook.t = gtb (b i) Notebook.t) /\
  exists q : Q,
    Binary64.value
      (current_value (state_after (exn:=unit) 53 Notebook.eps Notebook.t
                        (script a)
                        (init Notebook.LOWER_BOUND Notebook.UPPER_BOUND)))
    = Some q /\
    (q == current_value (state_after (exn:=unit) 53 Notebook.eps Notebook.t
                           (script b)
                           (init Notebook.LOWER_BOUND Notebook.UPPER_BOUND)))%Q.
Proof.
  cbv zeta.
  assert (H1 : (53 <= 53)%nat) by lia.
  assert (H2 : forall i : nat, (i < 53)%nat ->
             Binary64.gtb (Binary64.of_int 1) Notebook.t
             = gtb 1%Q Notebook.t)
    by (intros i _; vm_compute; reflexivity).
  split; [exact H1 | split; [exact H2|]].
  exact (binary64_exact_through_round_53 (fun _ => Binary64.of_int 1)
           (fun _ => 1%Q) 53 H1 H2).
Defined.

Lemma binary64_close_to_exact_witness :
  let a := fun _ : nat => Binary64.of_int 1 in
  let b := fun _ : nat => 1%Q in
  (64 <= 64)%nat /\
  (forall i : nat, (i < 64)%nat ->
     Binary64.gtb (a i) Notebook.t = gtb (b i) Notebook.t) /\
  exists q : Q,
    Binary64.value
      (current_value (state_after (exn:=unit) 64 Notebook.eps Notebook.t
                        (script a)
                        (init Notebook.LOWER_BOUND Notebook.UPPER_BOUND)))
    = Some q /\
    (Qabs (q - current_value
                 (state_after (exn:=unit) 64 Notebook.eps Notebook.t (script b)
                    (init Notebook.LOWER_BOUND Notebook.UPPER_BOUND)))
     <= inject_Z (Z.of_nat (64 - 53)) / inject_Z (2 ^ 22))%Q.
Proof.
  cbv zeta.
  assert (H1 : (64 <= 64)%nat) by lia.
  assert (H2 : forall i : nat, (i < 64)%nat ->
             Binary64.gtb (Binary64.of_int 1) Notebook.t
             = gtb 1%Q Notebook.t)
    by (intros i _; vm_compute; reflexivity).
  split; [exact H1 | split; [exact H2|]].
  exact (binary64_close_to_exact (fun _ => Binary64.of_int 1)
           (fun _ => 1%Q) 64 H1 H2).
Defined.

Lemma binary64_estimate_never_returns_witness :
  let f := script (fun _ : nat => Binary64.of_int 1) in
  let s0 := init (V:=Binary64.float)
              Notebook.LOWER_BOUND Notebook.UPPER_BOUND in
  let s53 := state_after (exn:=unit) 53 Notebook.eps Notebook.t f s0 in
  (0 < 53)%nat /\ (53 <= 53)%nat /\
  exists q0 q53 : Q,
    Binary64.value (current_value s0) = Some q0 /\
    Binary64.value (current_value s53) = Some q53 /\
    (Binary64.gtb (answer_at Notebook.eps f s0) Notebook.t = true ->
     (q0 < q53)%Q).
Proof.
  cbv zeta.
  assert (H1 : (0 < 53)%nat) by lia.
  assert (H2 : (53 <= 53)%nat) by lia.
  split; [exact H1 | split; [exact H2|]].
  destruct (binary64_estimate_never_returns unit Notebook.eps Notebook.t
              (script (fun _ : nat => Binary64.of_int 1)) 0 53 H1 H2)
    as (q0 & q53 & V0 & V53 & Hup & _).
  exists q0, q53. split; [exact V0 | split; [exact V53 | exact Hup]].
Defined.

